(** * RevoDraw: drawable-area model, region classifier, path fitting, erase/undo

    A shallow embedding of the geometry core of RevoDraw
    ([detect_drawing_area.py], [image_draw.py], [revodraw.py],
    [revolut_draw.py]) and the properties its specification states about
    it, followed by further properties read off the code.

    Modelling conventions.
    - Python [int] values are [Z]; [//] is [Z.div] (floor division).
    - Python and JavaScript floating-point values are modelled as exact
      rationals [Q]: [/] is exact division, [int(x)] truncates toward zero.
      Rounding error of IEEE doubles is not modelled.
    - A Python call that may raise returns a [result]; the exception that
      the interpreter would raise is the payload of [Raise].
    - [math.cos], [math.sin], [math.pi], the OpenCV calls and the eraser's
      distance test are parameters: nothing proved here depends on their
      values.
    - A function that drives the phone returns the list of swipes it
      issues, in order. *)

From Stdlib Require Import Ascii String.
From Stdlib Require Import ZArith QArith Qround Qminmax List Bool Lia Lqa Permutation.
From Stdlib Require PrimFloat SpecFloat FloatOps.
Import ListNotations.
Open Scope Z_scope.

(* ================================================================== *)
(** * Python values and exceptions *)

Inductive PyExc : Type :=
| ZeroDivisionError
| ValueError
| CvError.

Inductive result (A : Type) : Type :=
| Ok (a : A)
| Raise (e : PyExc).

Arguments Ok {A} a.
Arguments Raise {A} e.

Definition bind {A B : Type} (r : result A) (k : A -> result B) : result B :=
  match r with
  | Ok a => k a
  | Raise e => Raise e
  end.

Notation "x <- r ;; k" := (bind r (fun x => k))
  (at level 61, r at next level, right associativity).

Module Py.

(** [a / b] on numbers: true division, [ZeroDivisionError] when [b] is 0. *)
Definition truediv (a b : Q) : result Q :=
  if Qeq_bool b 0 then Raise ZeroDivisionError else Ok (a / b)%Q.

(** [int(x)] on a float: truncation toward zero. *)
Definition int (x : Q) : Z :=
  if Qle_bool 0 x then Qfloor x else Qceiling x.

(** [min(a, b)]: keeps [a] unless [b < a]. *)
Definition min2 (a b : Q) : Q :=
  if Qle_bool a b then a else b.

(** [a or d] on integers: [d] when [a] is falsy (zero). *)
Definition or_ (a d : Z) : Z :=
  if a =? 0 then d else a.

(** [min(xs)] and [max(xs)] over a sequence of integers: [ValueError]
    on an empty sequence. *)
Definition min_seq (xs : list Z) : result Z :=
  match xs with
  | [] => Raise ValueError
  | x :: t => Ok (fold_left Z.min t x)
  end.

Definition max_seq (xs : list Z) : result Z :=
  match xs with
  | [] => Raise ValueError
  | x :: t => Ok (fold_left Z.max t x)
  end.

End Py.

(* ================================================================== *)
(** * detect_drawing_area.py: the DrawingArea dataclass *)

Record DrawingArea : Type := mkDrawingArea {
  top : Z;
  left : Z;
  right : Z;
  bottom : Z;
  cutout_left : Z;
  cutout_top : Z;
  top_excl_right : Z;
  top_excl_bottom : Z
}.

Definition Point : Type := (Z * Z)%type.
Definition Path : Type := list Point.

(** [DrawingArea.is_inside]: three guarded early returns. *)
Definition is_inside (a : DrawingArea) (x y : Z) : bool :=
  if negb ((left a <=? x) && (x <=? right a) && (top a <=? y) && (y <=? bottom a))
  then false
  else if (x <=? top_excl_right a) && (y <=? top_excl_bottom a)
  then false
  else if (cutout_left a <=? x) && (cutout_top a <=? y)
  then false
  else true.

Definition width (a : DrawingArea) : Z := right a - left a.
Definition height (a : DrawingArea) : Z := bottom a - top a.

(** [DrawingArea.center] *)
Definition center (a : DrawingArea) : Point :=
  let main_left := Z.max (left a) (top_excl_right a) in
  let main_top := Z.max (top a) (top_excl_bottom a) in
  let cx := main_left + (cutout_left a - main_left) / 2 in
  let cy := main_top + (bottom a - main_top) / 2 in
  (cx, cy).

(** [DrawingArea.get_safe_bounds] *)
Definition get_safe_bounds (a : DrawingArea) (margin : Z) : DrawingArea :=
  {| top := top a + margin;
     left := left a + margin;
     right := right a - margin;
     bottom := bottom a - margin;
     cutout_left := cutout_left a - margin;
     cutout_top := cutout_top a - margin;
     top_excl_right := top_excl_right a + margin;
     top_excl_bottom := top_excl_bottom a + margin |}.

(** A rectangle as the 4-tuple (x0, y0, x1, y1) the code returns. *)
Definition Rect : Type := (Z * Z * Z * Z)%type.

(** [DrawingArea.get_usable_rect] *)
Definition get_usable_rect (a : DrawingArea) (margin : Z) : Rect :=
  (Z.max (left a) (top_excl_right a) + margin,
   Z.max (top a) (top_excl_bottom a) + margin,
   cutout_left a - margin,
   bottom a - margin).

(** The data-model invariant of a DrawingArea: both exclusions are anchored
    at their corner and end strictly inside the outer rectangle. *)
Definition area_invariant (a : DrawingArea) : Prop :=
  left a < top_excl_right a < right a /\
  top a < top_excl_bottom a < bottom a /\
  left a < cutout_left a < right a /\
  top a < cutout_top a < bottom a.

(** Geometric vocabulary of the containment claims. *)
Definition outside_outer (a : DrawingArea) (x y : Z) : Prop :=
  x < left a \/ right a < x \/ y < top a \/ bottom a < y.

Definition in_top_left_excl (a : DrawingArea) (x y : Z) : Prop :=
  x <= top_excl_right a /\ y <= top_excl_bottom a.

Definition in_bottom_right_excl (a : DrawingArea) (x y : Z) : Prop :=
  cutout_left a <= x /\ cutout_top a <= y.

Definition strictly_in_top_left_rect (a : DrawingArea) (x y : Z) : Prop :=
  left a < x < top_excl_right a /\ top a < y < top_excl_bottom a.

Definition strictly_in_bottom_right_rect (a : DrawingArea) (x y : Z) : Prop :=
  cutout_left a < x < right a /\ cutout_top a < y < bottom a.

Definition on_outer_edge (a : DrawingArea) (x y : Z) : Prop :=
  left a <= x <= right a /\ top a <= y <= bottom a /\
  (x = left a \/ x = right a \/ y = top a \/ y = bottom a).

(** Rectangles: every integer point of a rectangle is drawable; number of
    integer points spanned per axis. *)
Definition rect_avoids_exclusions (a : DrawingArea) (r : Rect) : Prop :=
  let '(x0, y0, x1, y1) := r in
  forall x y, x0 <= x <= x1 -> y0 <= y <= y1 -> is_inside a x y = true.

Definition rect_area (r : Rect) : Z :=
  let '(x0, y0, x1, y1) := r in (x1 - x0) * (y1 - y0).

(** The 1000 x 2000 card of the specification's concrete scenario. *)
Definition scenario_area : DrawingArea :=
  {| top := 0; left := 0; right := 1000; bottom := 2000;
     cutout_left := 700; cutout_top := 1200;
     top_excl_right := 200; top_excl_bottom := 150 |}.

(* ================================================================== *)
(** * detect_drawing_area.py: clustering of detected lines *)

(** A detected line or a cluster: (position, strength). *)
Definition Line : Type := (Z * Q)%type.

(** [sorted(lines, key=lambda x: x[0])]: a stable sort on the position. *)
Fixpoint insert_by_position (x : Line) (l : list Line) : list Line :=
  match l with
  | [] => [x]
  | y :: t => if fst x <=? fst y then x :: y :: t else y :: insert_by_position x t
  end.

Definition sorted_by_position (l : list Line) : list Line :=
  fold_right insert_by_position [] l.

(** One iteration of the grouping loop of [cluster_lines]:
    [clusters[-1][-1][0]] is the position of the last member of the last
    cluster.  The defaults of [last] are never reached: the loop starts
    from [[sorted_lines[0]]] and no cluster is ever empty. *)
Definition cluster_step (min_gap : Z) (clusters : list (list Line)) (line : Line)
  : list (list Line) :=
  let current := last clusters [] in
  let prev := last current (0, 0%Q) in
  if fst line - fst prev <? min_gap
  then removelast clusters ++ [current ++ [line]]
  else clusters ++ [[line]].

(** [np.mean([l[0] for l in cluster])] and [sum(l[1] for l in cluster)]. *)
Definition mean_position (cluster : list Line) : Q :=
  (inject_Z (fold_left Z.add (map fst cluster) 0%Z)
   / inject_Z (Z.of_nat (length cluster)))%Q.

Definition total_strength (cluster : list Line) : Q :=
  fold_left Qplus (map snd cluster) 0%Q.

Definition reduce_cluster (cluster : list Line) : Line :=
  (Py.int (mean_position cluster), total_strength cluster).

(** [cluster_lines] *)
Definition cluster_lines (lines : list Line) (min_gap : Z) : list Line :=
  match lines with
  | [] => []
  | _ =>
      let sorted_lines := sorted_by_position lines in
      let clusters :=
        fold_left (cluster_step min_gap) (tl sorted_lines)
                  [[hd (0, 0%Q) sorted_lines]] in
      map reduce_cluster clusters
  end.

(** Vocabulary of the clustering claim. *)
Definition pairwise_farther_than (gap : Z) (lines : list Line) : Prop :=
  ForallOrdPairs (fun a b => gap < Z.abs (fst a - fst b)) lines.

Fixpoint ascending (l : list Line) : Prop :=
  match l with
  | a :: (b :: _) as t => fst a <= fst b /\ ascending t
  | _ => True
  end.

(** Every member but the first lies within the gap of its predecessor. *)
Fixpoint chained (gap : Z) (c : list Line) : Prop :=
  match c with
  | a :: (b :: _) as t => fst b - fst a < gap /\ chained gap t
  | _ => True
  end.

(** The first member of a cluster is not within the gap of the last member
    of the cluster before it. *)
Fixpoint separated (gap : Z) (cs : list (list Line)) : Prop :=
  match cs with
  | c1 :: (c2 :: _) as t =>
      gap <= fst (hd (0, 0%Q) c2) - fst (last c1 (0, 0%Q)) /\ separated gap t
  | _ => True
  end.

(** The grouping in the specification's words: walk the sorted lines; a
    line within the gap of the current cluster's last member [prev] joins
    the current cluster [cur], any other line closes it and starts a new
    one. *)
Fixpoint group_from (gap : Z) (cur : list Line) (prev : Line) (rest : list Line)
  : list (list Line) :=
  match rest with
  | [] => [cur]
  | line :: t =>
      if fst line - fst prev <? gap
      then group_from gap (cur ++ [line]) line t
      else cur :: group_from gap [line] line t
  end.

Definition grouped (gap : Z) (sorted_lines : list Line) : list (list Line) :=
  match sorted_lines with
  | [] => []
  | first :: rest => group_from gap [first] first rest
  end.

(** Two detections of one dotted line, 20 apart, and a third line. *)
Definition dotted_lines : list Line :=
  [(200, (7 # 1)%Q); (100, (5 # 1)%Q); (120, (3 # 1)%Q)].

(** Three detected lines, 100 apart, out of order. *)
Definition far_apart_lines : list Line :=
  [(300, (12 # 1)%Q); (100, (5 # 2)%Q); (200, (7 # 1)%Q)].

(* ================================================================== *)
(** * detect_drawing_area.py: slot assignment of [detect_boundary] *)

(** [region_start * card_dim <= p <= region_end * card_dim] *)
Definition in_band (region_start region_end : Q) (card_dim : Z) (p : Z) : bool :=
  Qle_bool (region_start * inject_Z card_dim) (inject_Z p)
  && Qle_bool (inject_Z p) (region_end * inject_Z card_dim).

(** [max(candidates, key=lambda x: x[1])]: the first element of greatest
    key; [ValueError] on an empty list. *)
Fixpoint max_by_strength_from (best : Line) (rest : list Line) : Line :=
  match rest with
  | [] => best
  | x :: t =>
      max_by_strength_from (if Qle_bool (snd x) (snd best) then best else x) t
  end.

Definition max_by_strength (candidates : list Line) : result Line :=
  match candidates with
  | [] => Raise ValueError
  | x :: t => Ok (max_by_strength_from x t)
  end.

Definition band_candidates (clusters : list Line) (region_start region_end : Q)
  (card_dim : Z) : list Line :=
  filter (fun c => in_band region_start region_end card_dim (fst c)) clusters.

(** The nested function [find_boundary_line]. *)
Definition find_boundary_line (clusters : list Line) (region_start region_end : Q)
  (card_dim : Z) : result (option Z) :=
  let candidates := band_candidates clusters region_start region_end card_dim in
  match candidates with
  | [] => Ok None
  | _ => best <- max_by_strength candidates ;; Ok (Some (fst best))
  end.

(** [v if v is not None else int(card_dim * fraction)] *)
Definition or_estimate (found : option Z) (card_dim : Z) (fraction : Q) : Z :=
  match found with
  | Some v => v
  | None => Py.int (inject_Z card_dim * fraction)
  end.

(** The eight semantic slots: band and fallback fraction, as in the calls
    and the estimates of [detect_boundary]. *)
Inductive Slot : Type :=
| SlotTop | SlotBottom | SlotLeft | SlotRight
| SlotTopExclBottom | SlotTopExclRight | SlotVisaTop | SlotVisaLeft.

Definition slot_horizontal (s : Slot) : bool :=
  match s with
  | SlotTop | SlotBottom | SlotTopExclBottom | SlotVisaTop => true
  | _ => false
  end.

Definition slot_band (s : Slot) : Q * Q :=
  match s with
  | SlotTop => (0, 15 # 100)
  | SlotBottom => (80 # 100, 1)
  | SlotLeft => (0, 15 # 100)
  | SlotRight => (85 # 100, 1)
  | SlotTopExclBottom => (10 # 100, 25 # 100)
  | SlotTopExclRight => (12 # 100, 30 # 100)
  | SlotVisaTop => (45 # 100, 70 # 100)
  | SlotVisaLeft => (50 # 100, 75 # 100)
  end%Q.

Definition slot_estimate (s : Slot) : Q :=
  match s with
  | SlotTop => 5 # 100
  | SlotBottom => 92 # 100
  | SlotLeft => 7 # 100
  | SlotRight => 94 # 100
  | SlotTopExclBottom => 18 # 100
  | SlotTopExclRight => 18 # 100
  | SlotVisaTop => 58 # 100
  | SlotVisaLeft => 60 # 100
  end%Q.

(** [detect_boundary] from the clustered lines on: sort by position, search
    the eight bands, fill the gaps with estimates, translate by the card's
    origin. *)
Definition assign_slots (h_clusters v_clusters : list Line)
  (card_x card_y card_w card_h : Z) : result DrawingArea :=
  let h_sorted := sorted_by_position h_clusters in
  let v_sorted := sorted_by_position v_clusters in
  top0 <- find_boundary_line h_sorted 0 (15 # 100) card_h ;;
  bottom0 <- find_boundary_line h_sorted (80 # 100) 1 card_h ;;
  left0 <- find_boundary_line v_sorted 0 (15 # 100) card_w ;;
  right0 <- find_boundary_line v_sorted (85 # 100) 1 card_w ;;
  top_excl_bottom0 <- find_boundary_line h_sorted (10 # 100) (25 # 100) card_h ;;
  top_excl_right0 <- find_boundary_line v_sorted (12 # 100) (30 # 100) card_w ;;
  visa_top0 <- find_boundary_line h_sorted (45 # 100) (70 # 100) card_h ;;
  visa_left0 <- find_boundary_line v_sorted (50 # 100) (75 # 100) card_w ;;
  let top1 := or_estimate top0 card_h (5 # 100) in
  let bottom1 := or_estimate bottom0 card_h (92 # 100) in
  let left1 := or_estimate left0 card_w (7 # 100) in
  let right1 := or_estimate right0 card_w (94 # 100) in
  let top_excl_bottom1 := or_estimate top_excl_bottom0 card_h (18 # 100) in
  let top_excl_right1 := or_estimate top_excl_right0 card_w (18 # 100) in
  let visa_top1 := or_estimate visa_top0 card_h (58 # 100) in
  let visa_left1 := or_estimate visa_left0 card_w (60 # 100) in
  Ok {| top := card_y + top1;
        left := card_x + left1;
        right := card_x + right1;
        bottom := card_y + bottom1;
        cutout_left := card_x + visa_left1;
        cutout_top := card_y + visa_top1;
        top_excl_right := card_x + top_excl_right1;
        top_excl_bottom := card_y + top_excl_bottom1 |}.

(** [detect_boundary] from the detected lines on (gap threshold 40). *)
Definition detect_boundary (h_lines v_lines : list Line)
  (card_x card_y card_w card_h : Z) : result DrawingArea :=
  let h_clusters := cluster_lines h_lines 40 in
  let v_clusters := cluster_lines v_lines 40 in
  assign_slots h_clusters v_clusters card_x card_y card_w card_h.

(** Reading a slot off an area, relative to the card's origin. *)
Definition slot_value (a : DrawingArea) (card_x card_y : Z) (s : Slot) : Z :=
  match s with
  | SlotTop => top a - card_y
  | SlotBottom => bottom a - card_y
  | SlotLeft => left a - card_x
  | SlotRight => right a - card_x
  | SlotTopExclBottom => top_excl_bottom a - card_y
  | SlotTopExclRight => top_excl_right a - card_x
  | SlotVisaTop => cutout_top a - card_y
  | SlotVisaLeft => cutout_left a - card_x
  end.

(** Vocabulary of the slot-assignment claim: a cluster lies in the band of
    a slot; the cluster list and the card dimension a slot reads. *)
Definition in_slot_band (s : Slot) (card_dim : Z) (c : Line) : Prop :=
  (fst (slot_band s) * inject_Z card_dim <= inject_Z (fst c))%Q /\
  (inject_Z (fst c) <= snd (slot_band s) * inject_Z card_dim)%Q.

Definition slot_clusters (s : Slot) (h_clusters v_clusters : list Line) : list Line :=
  if slot_horizontal s then h_clusters else v_clusters.

Definition slot_dim (s : Slot) (card_w card_h : Z) : Z :=
  if slot_horizontal s then card_h else card_w.

(** What [find_boundary_line] found: the position of an in-band cluster of
    greatest strength, or nothing when no cluster is in band. *)
Definition strongest_in_band (clusters : list Line) (region_start region_end : Q)
  (card_dim : Z) (found : option Z) : Prop :=
  match found with
  | Some v =>
      exists best,
        In best clusters /\
        in_band region_start region_end card_dim (fst best) = true /\
        v = fst best /\
        forall c, In c clusters ->
                  in_band region_start region_end card_dim (fst c) = true ->
                  (snd c <= snd best)%Q
  | None =>
      forall c, In c clusters ->
                in_band region_start region_end card_dim (fst c) = false
  end.

(** Horizontal clusters on a card 1000 high: a weak line at 10 nearest the
    top edge, a strong line at 50, both in the outer-top band. *)
Definition sample_h_clusters : list Line :=
  [(10, (5 # 1)%Q); (50, (100 # 1)%Q); (900, (3 # 1)%Q)].

(* ================================================================== *)
(** * The containment loops shared by both fitting paths

    [scale_paths_to_area] and [draw.generate] end in the same pair of
    nested loops: transform each point, append it to the path under
    construction when [is_inside] holds, append the path to the output when
    it kept at least two points. *)

Definition keep_inside_loop (area : DrawingArea) (transform : Point -> Point)
  (path : Path) : Path :=
  fold_left
    (fun scaled_path p =>
       let '(new_x, new_y) := transform p in
       if is_inside area new_x new_y
       then scaled_path ++ [(new_x, new_y)]
       else scaled_path)
    path [].

Definition collect_loop (area : DrawingArea) (transform : Point -> Point)
  (scaled_paths : list Path) (paths : list Path) : list Path :=
  fold_left
    (fun acc path =>
       let scaled_path := keep_inside_loop area transform path in
       if (2 <=? length scaled_path)%nat then acc ++ [scaled_path] else acc)
    paths scaled_paths.

(** The containment filter in the specification's words: drop the points
    that are not inside, keep the survivors in order, discard a path with
    fewer than two survivors. *)
Definition inside_point (area : DrawingArea) (p : Point) : bool :=
  is_inside area (fst p) (snd p).

Definition containment_filter (area : DrawingArea) (transform : Point -> Point)
  (paths : list Path) : list Path :=
  filter (fun path => (2 <=? length path)%nat)
         (map (fun path => filter (inside_point area) (map transform path)) paths).

(* ================================================================== *)
(** * image_draw.py: the one-shot fit *)

Module ImagePaths.
Record t : Type := mk {
  paths : list Path;
  width : Z;
  height : Z
}.
End ImagePaths.

(** [(new_x, new_y) = (int(offset_x + x * scale_x), int(offset_y + y * scale_y))] *)
Definition scale_point (offset_x offset_y scale_x scale_y : Q) (p : Point) : Point :=
  (Py.int (offset_x + inject_Z (fst p) * scale_x),
   Py.int (offset_y + inject_Z (snd p) * scale_y)).

(** [scale_paths_to_area] *)
Definition scale_paths_to_area (image_paths : ImagePaths.t) (area : DrawingArea)
  (margin : Z) (maintain_aspect use_full_area : bool) : result (list Path) :=
  match ImagePaths.paths image_paths with
  | [] => Ok []
  | _ =>
      let '(available_width, available_height) :=
        if use_full_area
        then (right area - left area - 2 * margin,
              bottom area - top area - 2 * margin)
        else (cutout_left area - left area - 2 * margin,
              bottom area - top area - 2 * margin) in
      let src_width := ImagePaths.width image_paths in
      let src_height := ImagePaths.height image_paths in
      scales <-
        (if maintain_aspect
         then
           rw <- Py.truediv (inject_Z available_width) (inject_Z src_width) ;;
           rh <- Py.truediv (inject_Z available_height) (inject_Z src_height) ;;
           let scale := Py.min2 rw rh in
           Ok (scale, scale)
         else
           sx <- Py.truediv (inject_Z available_width) (inject_Z src_width) ;;
           sy <- Py.truediv (inject_Z available_height) (inject_Z src_height) ;;
           Ok (sx, sy)) ;;
      let '(scale_x, scale_y) := scales in
      let scaled_width := (inject_Z src_width * scale_x)%Q in
      let scaled_height := (inject_Z src_height * scale_y)%Q in
      let offset_x :=
        (inject_Z (left area + margin)
         + (inject_Z available_width - scaled_width) / 2)%Q in
      let offset_y :=
        (inject_Z (top area + margin)
         + (inject_Z available_height - scaled_height) / 2)%Q in
      Ok (collect_loop area (scale_point offset_x offset_y scale_x scale_y)
                       [] (ImagePaths.paths image_paths))
  end.

(* ================================================================== *)
(** * revodraw.py: the per-layer transform of [draw] *)

(** The floating-point library functions the transform calls. *)
Class MathLib : Type := {
  math_radians : Q -> Q;
  math_cos : Q -> Q;
  math_sin : Q -> Q
}.

Module Layer.
(** One entry of the request's [layers] list, defaults already filled in
    ([layer.get('offset_x', 0)] and so on). *)
Record t : Type := mk {
  paths : list Path;
  offset_x : Q;
  offset_y : Q;
  scale_x : Q;
  scale_y : Q;
  rotation : Q;
  flip_h : bool;
  flip_v : bool
}.

(** Rotation 0, no flips, scale 1.0, offset (0, 0). *)
Definition identity (ps : list Path) : t :=
  {| paths := ps; offset_x := 0; offset_y := 0; scale_x := 1; scale_y := 1;
     rotation := 0; flip_h := false; flip_v := false |}.
End Layer.

(** The available rectangle of [draw.generate]. *)
Definition avail_left (a : DrawingArea) : Z := Z.max (left a) (top_excl_right a) + 20.
Definition avail_top (a : DrawingArea) : Z := Z.max (top a) (top_excl_bottom a) + 20.
Definition avail_right (a : DrawingArea) : Z := cutout_left a - 20.
Definition avail_bottom (a : DrawingArea) : Z := bottom a - 20.
Definition avail_w (a : DrawingArea) : Z := avail_right a - avail_left a.
Definition avail_h (a : DrawingArea) : Z := avail_bottom a - avail_top a.
Definition center_x (a : DrawingArea) : Q :=
  (inject_Z (avail_left a) + inject_Z (avail_w a) / 2)%Q.
Definition center_y (a : DrawingArea) : Q :=
  (inject_Z (avail_top a) + inject_Z (avail_h a) / 2)%Q.

(** The nested function [transform_point]; [cx] and [cy] are the captured
    [center_x] and [center_y]. *)
Definition transform_point {M : MathLib} (cx cy : Q)
  (pcx pcy bs sx sy r : Q) (fh fv : bool) (ox oy : Q) (p : Point) : Point :=
  let x := (inject_Z (fst p) - pcx)%Q in
  let y := (inject_Z (snd p) - pcy)%Q in
  let x := if fh then (- x)%Q else x in
  let y := if fv then (- y)%Q else y in
  let '(x, y) :=
    if negb (Qeq_bool r 0)
    then
      let rad := math_radians r in
      let cos_r := math_cos rad in
      let sin_r := math_sin rad in
      ((x * cos_r - y * sin_r)%Q, (x * sin_r + y * cos_r)%Q)
    else (x, y) in
  let x := (x * (bs * sx))%Q in
  let y := (y * (bs * sy))%Q in
  let x := (x + (cx + ox))%Q in
  let y := (y + (cy + oy))%Q in
  (Py.int x, Py.int y).

(** Bounds of a layer: the four generator expressions over all points. *)
Definition all_x (paths : list Path) : list Z := map fst (concat paths).
Definition all_y (paths : list Path) : list Z := map snd (concat paths).

(** What one layer contributes, per the body of the [for layer] loop. *)
Record LayerFit : Type := mkLayerFit {
  path_w : Z;
  path_h : Z;
  path_center_x : Q;
  path_center_y : Q;
  base_scale : Q
}.

Definition layer_fit (a : DrawingArea) (paths : list Path) : result LayerFit :=
  min_x <- Py.min_seq (all_x paths) ;;
  min_y <- Py.min_seq (all_y paths) ;;
  max_x <- Py.max_seq (all_x paths) ;;
  max_y <- Py.max_seq (all_y paths) ;;
  let path_w := Py.or_ (max_x - min_x) 1 in
  let path_h := Py.or_ (max_y - min_y) 1 in
  let path_center_x := (inject_Z min_x + inject_Z path_w / 2)%Q in
  let path_center_y := (inject_Z min_y + inject_Z path_h / 2)%Q in
  rw <- Py.truediv (inject_Z (avail_w a)) (inject_Z path_w) ;;
  rh <- Py.truediv (inject_Z (avail_h a)) (inject_Z path_h) ;;
  let base_scale := Py.min2 rw rh in
  Ok (mkLayerFit path_w path_h path_center_x path_center_y base_scale).

Definition layer_transform {M : MathLib} (a : DrawingArea) (layer : Layer.t)
  (f : LayerFit) : Point -> Point :=
  transform_point (center_x a) (center_y a)
    (path_center_x f) (path_center_y f) (base_scale f)
    (Layer.scale_x layer) (Layer.scale_y layer) (Layer.rotation layer)
    (Layer.flip_h layer) (Layer.flip_v layer)
    (Layer.offset_x layer) (Layer.offset_y layer).

(** The path computation of [draw.generate]: everything up to
    [scaled_paths = all_scaled_paths].  An exception anywhere is caught by
    the generator's [except] and no path is emitted. *)
Definition generate {M : MathLib} (drawing_area : DrawingArea)
  (input_layers : list Layer.t) : result (list Path) :=
  fold_left
    (fun acc layer =>
       all_scaled_paths <- acc ;;
       match Layer.paths layer with
       | [] => Ok all_scaled_paths
       | paths =>
           f <- layer_fit drawing_area paths ;;
           Ok (collect_loop drawing_area (layer_transform drawing_area layer f)
                            all_scaled_paths paths)
       end)
    input_layers (Ok []).

(** A stand-in math library for evaluating examples whose rotation is 0
    (the trigonometric branch is then not taken). *)
Definition unused_math : MathLib :=
  {| math_radians := fun r => r; math_cos := fun _ => 1%Q; math_sin := fun _ => 0%Q |}.

(* ================================================================== *)
(** * revodraw.py (page script): erase and undo *)

Module Editor.

(** An entry of [layers]; the name and the image data are left out. *)
Record layer : Type := mkLayer {
  paths : list Path;
  offset : Q * Q;
  scaleX : Q;
  scaleY : Q;
  rotation : Z;
  flipH : bool;
  flipV : bool;
  visible : bool
}.

(** The globals of the page script that erase and undo read or write. *)
Record session : Type := mkSession {
  pathsHistory : list (list Path);
  layers : list layer;
  activeLayerIndex : Z;
  processedPaths : option (list Path);
  drawingArea : option DrawingArea
}.

Definition set_paths (l : layer) (ps : list Path) : layer :=
  {| paths := ps; offset := offset l; scaleX := scaleX l; scaleY := scaleY l;
     rotation := rotation l; flipH := flipH l; flipV := flipV l;
     visible := visible l |}.

(** [layers[i]]: [undefined] out of range. *)
Definition layer_at (ls : list layer) (i : Z) : option layer :=
  if i <? 0 then None else nth_error ls (Z.to_nat i).

(** [layers[i].paths = ps] for an index in range. *)
Fixpoint assign_paths (ls : list layer) (i : nat) (ps : list Path) : list layer :=
  match ls, i with
  | [], _ => []
  | l :: t, O => set_paths l ps :: t
  | l :: t, S j => l :: assign_paths t j ps
  end.

(** [JSON.stringify(a) !== JSON.stringify(b)] on path sets of integer
    pairs is structural inequality. *)
Definition point_eqb (p q : Point) : bool :=
  (fst p =? fst q) && (snd p =? snd q).

Fixpoint path_eqb (p q : Path) : bool :=
  match p, q with
  | [], [] => true
  | a :: p', b :: q' => point_eqb a b && path_eqb p' q'
  | _, _ => false
  end.

Fixpoint paths_eqb (ps qs : list Path) : bool :=
  match ps, qs with
  | [], [] => true
  | p :: ps', q :: qs' => path_eqb p q && paths_eqb ps' qs'
  | _, _ => false
  end.

(** [pathsHistory.push(snapshot); if (pathsHistory.length > 20) pathsHistory.shift()] *)
Definition push_bounded (history : list (list Path)) (snapshot : list Path)
  : list (list Path) :=
  let pushed := history ++ [snapshot] in
  if (20 <? length pushed)%nat then tl pushed else pushed.

(** The undo snapshot taken at the head of [eraseAt]. *)
Definition save_for_undo (history : list (list Path)) (current : list Path)
  : list (list Path) :=
  if (length history =? 0)%nat || negb (paths_eqb (last history []) current)
  then push_bounded history current
  else history.

(** [eraseAt].  [far ps p] stands for [dist > eraseRadius], the distance
    of the transformed point [p] to the cursor, computed from the bounds of
    the path set [ps], the transform sliders and the cursor position. *)
Definition eraseAt (far : list Path -> Point -> bool) (s : session) : session :=
  match layer_at (layers s) (activeLayerIndex s), drawingArea s with
  | Some layer, Some _ =>
      match paths layer with
      | [] => s
      | current =>
          let history := save_for_undo (pathsHistory s) current in
          let erased :=
            filter (fun path => (2 <=? length path)%nat)
                   (map (filter (far current)) current) in
          {| pathsHistory := history;
             layers := assign_paths (layers s) (Z.to_nat (activeLayerIndex s)) erased;
             activeLayerIndex := activeLayerIndex s;
             processedPaths := Some erased;
             drawingArea := drawingArea s |}
      end
  | _, _ => s
  end.

(** [undoErase].  With a non-negative index past the end of [layers] the
    assignment throws after the pop; the globals keep the popped state. *)
Definition undoErase (s : session) : session :=
  match pathsHistory s with
  | [] => s
  | _ =>
      let restored := last (pathsHistory s) [] in
      {| pathsHistory := removelast (pathsHistory s);
         layers :=
           if 0 <=? activeLayerIndex s
           then assign_paths (layers s) (Z.to_nat (activeLayerIndex s)) restored
           else layers s;
         activeLayerIndex := activeLayerIndex s;
         processedPaths := Some restored;
         drawingArea := drawingArea s |}
  end.

(** The active layer's path set. *)
Definition active_paths (s : session) : option (list Path) :=
  option_map paths (layer_at (layers s) (activeLayerIndex s)).

(** [k] erase operations, one per hit test, then [n] undo operations. *)
Definition erase_all (fars : list (list Path -> Point -> bool)) (s : session)
  : session :=
  fold_left (fun st far => eraseAt far st) fars s.

Definition undo_times (n : nat) (s : session) : session :=
  Nat.iter n undoErase s.

End Editor.

(** The area of the containment counterexample: it satisfies the data-model
    invariant, but the bottom-right exclusion starts left of the top-left
    exclusion's right edge. *)
Definition overlapping_columns_area : DrawingArea :=
  {| top := 0; left := 0; right := 1000; bottom := 2000;
     cutout_left := 300; cutout_top := 1000;
     top_excl_right := 500; top_excl_bottom := 150 |}.

(* ================================================================== *)
(** * Vocabulary and sample data of the fitting claims *)

(** Every point of every output path is inside, and every output path has
    at least two points. *)
Definition contained (a : DrawingArea) (out : list Path) : Prop :=
  Forall (fun path =>
            Forall (fun p => is_inside a (fst p) (snd p) = true) path /\
            (2 <= length path)%nat) out.

(** What one layer contributes to the output of [generate], in the
    specification's words: its paths, transformed and filtered. *)
Definition layer_output {M : MathLib} (a : DrawingArea) (layer : Layer.t)
  : list Path :=
  match layer_fit a (Layer.paths layer) with
  | Ok f => containment_filter a (layer_transform a layer f) (Layer.paths layer)
  | Raise _ => []
  end.

(** The area whose outer left and top edges are moved onto the corner of
    the top-left exclusion: its safe lobe is the rectangle that
    [get_usable_rect] and [generate] measure. *)
Definition usable_area (a : DrawingArea) : DrawingArea :=
  {| top := Z.max (top a) (top_excl_bottom a);
     left := Z.max (left a) (top_excl_right a);
     right := right a;
     bottom := bottom a;
     cutout_left := cutout_left a;
     cutout_top := cutout_top a;
     top_excl_right := top_excl_right a;
     top_excl_bottom := top_excl_bottom a |}.

(** A closed square of side 100 at the source origin, as an extracted
    image and as a layer's path set. *)
Definition square100 : Path := [(0, 0); (100, 0); (100, 100); (0, 100); (0, 0)].

Definition square_image : ImagePaths.t :=
  {| ImagePaths.paths := [square100]; ImagePaths.width := 100; ImagePaths.height := 100 |}.

(** A card whose safe lobe is 440 wide: the one-shot fit scales the square
    by 4, the layer transform by 2. *)
Definition lobe_area : DrawingArea :=
  {| top := 0; left := 0; right := 1000; bottom := 2000;
     cutout_left := 440; cutout_top := 1200;
     top_excl_right := 200; top_excl_bottom := 150 |}.

(** A card whose usable rectangle has zero width ([avail_w] is 0). *)
Definition zero_width_area : DrawingArea :=
  {| top := 0; left := 0; right := 1000; bottom := 2000;
     cutout_left := 240; cutout_top := 1200;
     top_excl_right := 200; top_excl_bottom := 150 |}.

(** An image record with zero width. *)
Definition zero_width_image : ImagePaths.t :=
  {| ImagePaths.paths := [[(0, 0); (0, 10)]];
     ImagePaths.width := 0; ImagePaths.height := 10 |}.

(* ================================================================== *)
(** * Vocabulary and sample data of the erase/undo claim *)

Module EditorSpec.
Import Editor.

(** Every one of the erase operations removes at least one point: it
    changes the active layer's path set. *)
Fixpoint every_erase_changes (fars : list (list Path -> Point -> bool))
  (s : session) : Prop :=
  match fars with
  | [] => True
  | far :: t =>
      active_paths (eraseAt far s) <> active_paths s /\
      every_erase_changes t (eraseAt far s)
  end.

(** A fresh session: one layer holding the square, nothing to undo. *)
Definition fresh_session : session :=
  {| pathsHistory := [];
     layers := [ {| paths := [square100]; offset := (0, 0)%Q;
                    scaleX := 1; scaleY := 1; rotation := 0;
                    flipH := false; flipV := false; visible := true |} ];
     activeLayerIndex := 0;
     processedPaths := Some [square100];
     drawingArea := Some scenario_area |}.

(** An eraser stroke over the square's far corner (100, 100), and a
    stroke over empty canvas that reaches no point. *)
Definition over_far_corner (_ : list Path) (p : Point) : bool :=
  fst p + snd p <? 150.

Definition over_empty_canvas (_ : list Path) (_ : Point) : bool := true.

Definition after_first_erase : session := eraseAt over_far_corner fresh_session.

(** Invariant of [n] erases from an empty history: the history holds at
    most [n] snapshots and its bottom one is the pre-erase path set [P0];
    while it is empty the active layer is untouched. *)
Definition from_empty_history (P0 : option (list Path)) (n : nat) (s : session)
  : Prop :=
  (length (pathsHistory s) <= n)%nat /\
  match pathsHistory s with
  | [] => active_paths s = P0
  | bottom :: _ =>
      P0 = Some bottom /\
      exists l, layer_at (layers s) (activeLayerIndex s) = Some l
  end.

(** Invariant of [n] erases that each changed the path set: the top [n]
    snapshots of the history start with the pre-erase path set [P0] and
    end with a path set different from the current one. *)
Definition all_changed (P0 : option (list Path)) (n : nat) (s : session) : Prop :=
  exists pre stk l,
    pathsHistory s = pre ++ stk /\
    length stk = n /\ stk <> [] /\
    P0 = Some (hd [] stk) /\
    layer_at (layers s) (activeLayerIndex s) = Some l /\
    paths l <> last stk [].

End EditorSpec.

(* ================================================================== *)
(** * detect_drawing_area.py: [detect_lines]

    The segments are the output of [cv2.HoughLinesP] ([None] when nothing
    was found), each (x1, y1, x2, y2); [math_sqrt] is [math.sqrt]. *)

Definition Segment : Type := (Z * Z * Z * Z)%type.

(** The end points are numpy [int32] scalars: their arithmetic wraps
    around to the 32-bit two's-complement range. *)
Definition int32 (z : Z) : Z := (z + 2 ^ 31) mod 2 ^ 32 - 2 ^ 31.

(** The body of the [for line in lines] loop. *)
Definition detect_lines_step (math_sqrt : Q -> Q)
  (acc : list Line * list Line) (line : Segment) : list Line * list Line :=
  let '(h_lines, v_lines) := acc in
  let '(x1, y1, x2, y2) := line in
  let dx := int32 (Z.abs (int32 (x2 - x1))) in
  let dy := int32 (Z.abs (int32 (y2 - y1))) in
  let length := math_sqrt (inject_Z (int32 (int32 (dx * dx) + int32 (dy * dy)))) in
  if (dy <? 20) && (50 <? dx)
  then
    let y_avg := int32 (y1 + y2) / 2 in
    (h_lines ++ [(y_avg, length)], v_lines)
  else if (dx <? 20) && (50 <? dy)
  then
    let x_avg := int32 (x1 + x2) / 2 in
    (h_lines, v_lines ++ [(x_avg, length)])
  else (h_lines, v_lines).

Definition detect_lines (math_sqrt : Q -> Q) (lines : option (list Segment))
  : list Line * list Line :=
  match lines with
  | None => ([], [])
  | Some segments => fold_left (detect_lines_step math_sqrt) segments ([], [])
  end.

(** Vocabulary of the line detection: a segment counted as horizontal
    (resp. vertical) evidence, and the line reported for it. *)
Definition horizontal_segment (line : Segment) : bool :=
  let '(x1, y1, x2, y2) := line in
  (Z.abs (y2 - y1) <? 20) && (50 <? Z.abs (x2 - x1)).

Definition vertical_segment (line : Segment) : bool :=
  let '(x1, y1, x2, y2) := line in
  (Z.abs (x2 - x1) <? 20) && (50 <? Z.abs (y2 - y1)).

Definition squared_length (line : Segment) : Z :=
  let '(x1, y1, x2, y2) := line in
  (x2 - x1) * (x2 - x1) + (y2 - y1) * (y2 - y1).

Definition horizontal_line (math_sqrt : Q -> Q) (line : Segment) : Line :=
  let '(x1, y1, x2, y2) := line in
  ((y1 + y2) / 2, math_sqrt (inject_Z (squared_length line))).

Definition vertical_line (math_sqrt : Q -> Q) (line : Segment) : Line :=
  let '(x1, y1, x2, y2) := line in
  ((x1 + x2) / 2, math_sqrt (inject_Z (squared_length line))).

(** Pixel coordinates of an image whose sides are below 2^15. *)
Definition pixel_segment (line : Segment) : Prop :=
  let '(x1, y1, x2, y2) := line in
  0 <= x1 < 2 ^ 15 /\ 0 <= y1 < 2 ^ 15 /\ 0 <= x2 < 2 ^ 15 /\ 0 <= y2 < 2 ^ 15.

(* ================================================================== *)
(** * image_draw.py, revodraw.py: image size and contour post-processing *)


Section Extraction.

(** [cv2.contourArea] and [cv2.approxPolyDP (contour, epsilon, closed)]. *)
Variable contourArea : Path -> Q.
Variable approxPolyDP : Path -> Q -> bool -> Path.

(** [simplify > 0] *)
Definition positive (q : Q) : bool := negb (Qle_bool q 0).

(** The contour loop of [extract_paths_edges]. *)
Definition extract_paths_edges (contours : list Path) (simplify : Q)
  (img_width img_height : Z) : ImagePaths.t :=
  let paths :=
    fold_left
      (fun paths contour =>
         if (length contour <? 5)%nat then paths
         else
           let contour :=
             if positive simplify then approxPolyDP contour simplify false
             else contour in
           let path := contour in
           if (2 <=? length path)%nat then paths ++ [path] else paths)
      contours [] in
  {| ImagePaths.paths := paths;
     ImagePaths.width := img_width; ImagePaths.height := img_height |}.

(** The contour loop of [extract_paths_contours]. *)
Definition extract_paths_contours (contours : list Path) (simplify : Q)
  (img_width img_height : Z) : ImagePaths.t :=
  let paths :=
    fold_left
      (fun paths contour =>
         if negb (Qle_bool 20 (contourArea contour)) then paths
         else
           let contour :=
             if positive simplify then approxPolyDP contour simplify true
             else contour in
           let path := contour in
           if (3 <=? length path)%nat
           then paths ++ [path ++ [hd (0, 0) path]]
           else paths)
      contours [] in
  {| ImagePaths.paths := paths;
     ImagePaths.width := img_width; ImagePaths.height := img_height |}.

(** The contour loop of [extract_paths_adaptive]. *)
Definition extract_paths_adaptive (contours : list Path) (simplify : Q)
  (img_width img_height : Z) : ImagePaths.t :=
  let paths :=
    fold_left
      (fun paths contour =>
         if negb (Qle_bool 30 (contourArea contour)) then paths
         else
           let contour :=
             if positive simplify then approxPolyDP contour simplify true
             else contour in
           let path := contour in
           if (3 <=? length path)%nat
           then paths ++ [path ++ [hd (0, 0) path]]
           else paths)
      contours [] in
  {| ImagePaths.paths := paths;
     ImagePaths.width := img_width; ImagePaths.height := img_height |}.


End Extraction.

(** A closed polyline: it ends where it starts. *)
Definition closed_path (path : Path) : Prop :=
  last path (0, 0) = hd (0, 0) path.

(* ================================================================== *)
(** * image_draw.py: [draw_paths_adb] and [process_and_draw]

    The ADB commands issued, in order; sleeping and printing are not part
    of the trace. *)

(** [adb shell input swipe x1 y1 x2 y2 duration] *)
Record Swipe : Type := mkSwipe {
  swipe_x1 : Z;
  swipe_y1 : Z;
  swipe_x2 : Z;
  swipe_y2 : Z;
  swipe_duration : Z
}.

(** The body of [for j in range(len(path) - 1)]. *)
Definition swipe_at (path : Path) (stroke_duration : Z) (j : nat) : Swipe :=
  let '(x1, y1) := nth j path (0, 0) in
  let '(x2, y2) := nth (j + 1) path (0, 0) in
  mkSwipe x1 y1 x2 y2 stroke_duration.

Definition path_swipes (path : Path) (stroke_duration : Z) : list Swipe :=
  map (swipe_at path stroke_duration) (seq 0 (length path - 1)).

(** [draw_paths_adb] *)
Definition draw_paths_adb (paths : list Path) (stroke_duration : Z) : list Swipe :=
  flat_map
    (fun path =>
       if (length path <? 2)%nat then []
       else path_swipes path stroke_duration)
    paths.

(** [process_and_draw] from the extracted paths and the detected area on:
    safe bounds of margin 25, fit with margin 10, draw with the default
    stroke duration 60.  Nothing is drawn when there is nothing to draw or
    in preview mode. *)
Definition process_and_draw (image_paths : ImagePaths.t) (area : DrawingArea)
  (preview_only full_area : bool) : result (list Swipe) :=
  match ImagePaths.paths image_paths with
  | [] => Ok []
  | _ =>
      let safe_area := get_safe_bounds area 25 in
      scaled_paths <- scale_paths_to_area image_paths safe_area 10 true full_area ;;
      match scaled_paths with
      | [] => Ok []
      | _ => if preview_only then Ok [] else Ok (draw_paths_adb scaled_paths 60)
      end
  end.

(** The swipes of a path, pair by pair. *)
Fixpoint segments (path : Path) (stroke_duration : Z) : list Swipe :=
  match path with
  | a :: (b :: _) as t =>
      mkSwipe (fst a) (snd a) (fst b) (snd b) stroke_duration
      :: segments t stroke_duration
  | _ => []
  end.

(** The end points of a swipe. *)
Definition swipe_start (s : Swipe) : Point := (swipe_x1 s, swipe_y1 s).
Definition swipe_end (s : Swipe) : Point := (swipe_x2 s, swipe_y2 s).

(** A point and everything within [margin] pixels of it, on both axes, is
    drawable. *)
Definition clear_by (a : DrawingArea) (margin : Z) (p : Point) : Prop :=
  forall dx dy, Z.abs dx <= margin -> Z.abs dy <= margin ->
                is_inside a (fst p + dx) (snd p + dy) = true.

(* ================================================================== *)
(** * revodraw.py: the event stream of [draw]

    What the generator yields and the swipes it issues in between, in
    order.  [drawing i] is the value of [STATE['drawing']] read at the head
    of iteration [i]; the /stop route clears it from another request. *)

Inductive DrawEvent : Type :=
| Message (total_paths total_points : nat)
| SwipeCmd (s : Swipe)
| Progress (percent : Z)
| Stopped
| Complete
| Error (e : PyExc).

(** The [for i, path in enumerate(scaled_paths)] loop and the final yield. *)
Fixpoint emit_paths (drawing : nat -> bool) (stroke_duration : Z)
  (total_paths : nat) (i : nat) (paths : list Path) : list DrawEvent :=
  match paths with
  | [] => [Complete]
  | path :: rest =>
      if negb (drawing i) then [Stopped]
      else
        let swipes := map SwipeCmd (path_swipes path stroke_duration) in
        match Py.truediv (inject_Z (Z.of_nat i + 1))
                         (inject_Z (Z.of_nat total_paths)) with
        | Raise e => swipes ++ [Error e]
        | Ok ratio =>
            let progress := Py.int (ratio * 100) in
            swipes ++ [Progress progress]
                   ++ emit_paths drawing stroke_duration total_paths (S i) rest
        end
  end.

(** The generator of [draw], from the request's area and layers on. *)
Definition draw_events {M : MathLib} (drawing : nat -> bool) (stroke_duration : Z)
  (area : DrawingArea) (input_layers : list Layer.t) : list DrawEvent :=
  match generate area input_layers with
  | Raise e => [Error e]
  | Ok scaled_paths =>
      let total_paths := length scaled_paths in
      let total_points := fold_left Nat.add (map (@length Point) scaled_paths) 0%nat in
      Message total_paths total_points
        :: emit_paths drawing stroke_duration total_paths 0 scaled_paths
  end.

(** Reading a trace. *)
Definition swipes_of (events : list DrawEvent) : list Swipe :=
  flat_map (fun e => match e with SwipeCmd s => [s] | _ => [] end) events.

Definition progress_of (events : list DrawEvent) : list Z :=
  flat_map (fun e => match e with Progress p => [p] | _ => [] end) events.

Fixpoint nondecreasing (l : list Z) : Prop :=
  match l with
  | a :: (b :: _) as t => a <= b /\ nondecreasing t
  | _ => True
  end.

(* ================================================================== *)
(** * revodraw.py: the area on the wire

    [detect_area] sends the area as a flat dictionary of its eight fields;
    [draw] builds the DrawingArea back from the dictionary of the request.
    A missing key raises [KeyError] with the key. *)

Definition AreaDict : Type := list (string * Z).

Inductive Lookup (A : Type) : Type :=
| Found (a : A)
| KeyError (key : string).

Arguments Found {A} a.
Arguments KeyError {A} key.

(** [area[key]] *)
Fixpoint dict_get (d : AreaDict) (key : string) : Lookup Z :=
  match d with
  | [] => KeyError key
  | (k, v) :: rest => if String.eqb k key then Found v else dict_get rest key
  end.

Definition lookup_bind {A B : Type} (r : Lookup A) (k : A -> Lookup B) : Lookup B :=
  match r with
  | Found a => k a
  | KeyError key => KeyError key
  end.

(** The dictionary literal of [detect_area]. *)
Definition area_to_dict (area : DrawingArea) : AreaDict :=
  [("top"%string, top area);
   ("left"%string, left area);
   ("right"%string, right area);
   ("bottom"%string, bottom area);
   ("cutout_left"%string, cutout_left area);
   ("cutout_top"%string, cutout_top area);
   ("top_excl_right"%string, top_excl_right area);
   ("top_excl_bottom"%string, top_excl_bottom area)].

(** The constructor call of [draw.generate], arguments evaluated in order. *)
Definition area_of_dict (area : AreaDict) : Lookup DrawingArea :=
  lookup_bind (dict_get area "top") (fun top0 =>
  lookup_bind (dict_get area "left") (fun left0 =>
  lookup_bind (dict_get area "right") (fun right0 =>
  lookup_bind (dict_get area "bottom") (fun bottom0 =>
  lookup_bind (dict_get area "cutout_left") (fun cutout_left0 =>
  lookup_bind (dict_get area "cutout_top") (fun cutout_top0 =>
  lookup_bind (dict_get area "top_excl_right") (fun top_excl_right0 =>
  lookup_bind (dict_get area "top_excl_bottom") (fun top_excl_bottom0 =>
  Found {| top := top0; left := left0; right := right0; bottom := bottom0;
           cutout_left := cutout_left0; cutout_top := cutout_top0;
           top_excl_right := top_excl_right0;
           top_excl_bottom := top_excl_bottom0 |})))))))).

(** The keys in the order [draw] reads them. *)
Definition area_keys : list string :=
  ["top"; "left"; "right"; "bottom"; "cutout_left"; "cutout_top";
   "top_excl_right"; "top_excl_bottom"]%string.

Definition has_key (d : AreaDict) (key : string) : Prop :=
  exists v, dict_get d key = Found v.

(* ================================================================== *)
(** * revolut_draw.py: the ADBDrawer class

    A drawer is its [stroke_duration]; every method returns the swipes it
    issues.  Text is a list of ASCII characters. *)

Module ADBDrawer.






(** [swipe]: [duration or self.stroke_duration]. *)
Definition swipe (stroke_duration : Z) (x1 y1 x2 y2 : Z) (duration : option Z)
  : Swipe :=
  let duration :=
    match duration with
    | Some d => Py.or_ d stroke_duration
    | None => stroke_duration
    end in
  mkSwipe x1 y1 x2 y2 duration.

(** [draw_path] *)
Definition draw_path (stroke_duration : Z) (points : Path) : list Swipe :=
  if (length points <? 2)%nat then []
  else
    map (fun i =>
           swipe stroke_duration
                 (fst (nth i points (0, 0))) (snd (nth i points (0, 0)))
                 (fst (nth (i + 1) points (0, 0))) (snd (nth (i + 1) points (0, 0)))
                 None)
        (seq 0 (length points - 1)).





(** The shape methods build their point list in a [for i in range(n)]
    loop whose body may raise; nothing is drawn when it does. *)
Fixpoint for_range (body : nat -> result Point) (i n : nat) : result Path :=
  match n with
  | O => Ok []
  | S m =>
      p <- body i ;;
      rest <- for_range body (S i) m ;;
      Ok (p :: rest)
  end.

(** [range(n)] for an integer [n]: empty when [n] is not positive. *)
Definition range_len (n : Z) : nat := Z.to_nat n.

(** [draw_circle]; [pi] is [math.pi]. *)
Definition draw_circle {M : MathLib} (pi : Q) (stroke_duration : Z)
  (cx cy radius segments : Z) : result (list Swipe) :=
  points <-
    for_range
      (fun i =>
         angle <- Py.truediv (2 * pi * inject_Z (Z.of_nat i)) (inject_Z segments) ;;
         let x := Py.int (inject_Z cx + inject_Z radius * math_cos angle) in
         let y := Py.int (inject_Z cy + inject_Z radius * math_sin angle) in
         Ok (x, y))
      0 (range_len (segments + 1)) ;;
  Ok (draw_path stroke_duration points).

(** [draw_star]; [inner_r] is [None] when left out. *)
Definition draw_star {M : MathLib} (pi : Q) (stroke_duration : Z)
  (cx cy outer_r : Z) (inner_r : option Z) (num_points : Z)
  : result (list Swipe) :=
  let inner_r :=
    match inner_r with
    | Some r => Py.or_ r (outer_r / 2)
    | None => outer_r / 2
    end in
  points <-
    for_range
      (fun i =>
         ratio <- Py.truediv (pi * inject_Z (Z.of_nat i)) (inject_Z num_points) ;;
         let angle := (ratio - pi / 2)%Q in
         let r := if (Z.of_nat i mod 2 =? 0) then outer_r else inner_r in
         let x := Py.int (inject_Z cx + inject_Z r * math_cos angle) in
         let y := Py.int (inject_Z cy + inject_Z r * math_sin angle) in
         Ok (x, y))
      0 (range_len (num_points * 2 + 1)) ;;
  Ok (draw_path stroke_duration points).




End ADBDrawer.


(** Consecutive swipes are joined end to start. *)
Fixpoint continuous (swipes : list Swipe) : Prop :=
  match swipes with
  | s1 :: (s2 :: _) as t => swipe_end s1 = swipe_start s2 /\ continuous t
  | _ => True
  end.

(* ================================================================== *)
(** * revodraw.py (page script): layers and the live transform

    The globals that the layer functions read and write; the live
    transform belongs to the active layer until it is saved. *)

Module Workspace.

Record state : Type := mkState {
  layers : list Editor.layer;
  activeLayerIndex : Z;
  processedPaths : option (list Path);
  imageOffset : Q * Q;
  scaleX : Q;
  scaleY : Q;
  rotation : Z;
  flipHorizontal : bool;
  flipVertical : bool
}.

(** [arr[i] = v] for an index in range. *)
Fixpoint assign (ls : list Editor.layer) (i : nat) (v : Editor.layer)
  : list Editor.layer :=
  match ls, i with
  | [], _ => []
  | _ :: t, O => v :: t
  | l :: t, S j => l :: assign t j v
  end.

(** [processedPaths || []] *)
Definition paths_or_empty (ps : option (list Path)) : list Path :=
  match ps with
  | Some p => p
  | None => []
  end.

(** [saveCurrentLayerState] *)
Definition saveCurrentLayerState (s : state) : state :=
  match Editor.layer_at (layers s) (activeLayerIndex s) with
  | Some l =>
      let saved :=
        {| Editor.paths := paths_or_empty (processedPaths s);
           Editor.offset := imageOffset s;
           Editor.scaleX := scaleX s;
           Editor.scaleY := scaleY s;
           Editor.rotation := rotation s;
           Editor.flipH := flipHorizontal s;
           Editor.flipV := flipVertical s;
           Editor.visible := Editor.visible l |} in
      {| layers := assign (layers s) (Z.to_nat (activeLayerIndex s)) saved;
         activeLayerIndex := activeLayerIndex s;
         processedPaths := processedPaths s;
         imageOffset := imageOffset s;
         scaleX := scaleX s; scaleY := scaleY s; rotation := rotation s;
         flipHorizontal := flipHorizontal s; flipVertical := flipVertical s |}
  | None => s
  end.

(** [loadLayerState] *)
Definition loadLayerState (index : Z) (s : state) : state :=
  match Editor.layer_at (layers s) index with
  | Some layer =>
      {| layers := layers s;
         activeLayerIndex := activeLayerIndex s;
         processedPaths := Some (Editor.paths layer);
         imageOffset := Editor.offset layer;
         scaleX := Editor.scaleX layer;
         scaleY := Editor.scaleY layer;
         rotation := Editor.rotation layer;
         flipHorizontal := Editor.flipH layer;
         flipVertical := Editor.flipV layer |}
  | None => s
  end.

Definition set_active (index : Z) (s : state) : state :=
  {| layers := layers s;
     activeLayerIndex := index;
     processedPaths := processedPaths s;
     imageOffset := imageOffset s;
     scaleX := scaleX s; scaleY := scaleY s; rotation := rotation s;
     flipHorizontal := flipHorizontal s; flipVertical := flipVertical s |}.

(** [selectLayer] *)
Definition selectLayer (index : Z) (s : state) : state :=
  loadLayerState index (set_active index (saveCurrentLayerState s)).

(** [layers.splice(index, 1)]: a negative index counts from the end; an
    index past the end removes nothing. *)
Fixpoint remove_at (ls : list Editor.layer) (i : nat) : list Editor.layer :=
  match ls, i with
  | [], _ => []
  | _ :: t, O => t
  | l :: t, S j => l :: remove_at t j
  end.

Definition splice1 (ls : list Editor.layer) (index : Z) : list Editor.layer :=
  let len := Z.of_nat (length ls) in
  let start := if index <? 0 then Z.max (len + index) 0 else Z.min index len in
  remove_at ls (Z.to_nat start).

(** [deleteLayer] *)
Definition deleteLayer (index : Z) (s : state) : state :=
  let layers' := splice1 (layers s) index in
  let active :=
    if Z.of_nat (length layers') <=? activeLayerIndex s
    then Z.of_nat (length layers') - 1
    else activeLayerIndex s in
  let s1 :=
    {| layers := layers';
       activeLayerIndex := active;
       processedPaths := processedPaths s;
       imageOffset := imageOffset s;
       scaleX := scaleX s; scaleY := scaleY s; rotation := rotation s;
       flipHorizontal := flipHorizontal s; flipVertical := flipVertical s |} in
  if 0 <=? active
  then loadLayerState active s1
  else
    {| layers := layers';
       activeLayerIndex := active;
       processedPaths := None;
       imageOffset := imageOffset s;
       scaleX := scaleX s; scaleY := scaleY s; rotation := rotation s;
       flipHorizontal := flipHorizontal s; flipVertical := flipVertical s |}.

(** The layer [addLayer] pushes (name and image data left out). *)
Definition new_layer (paths : list Path) : Editor.layer :=
  {| Editor.paths := paths;
     Editor.offset := (0, 0)%Q;
     Editor.scaleX := 1; Editor.scaleY := 1;
     Editor.rotation := 0;
     Editor.flipH := false; Editor.flipV := false;
     Editor.visible := true |}.

(** [addLayer] *)
Definition addLayer (paths : list Path) (s : state) : state :=
  let s1 := saveCurrentLayerState s in
  let layers' := layers s1 ++ [new_layer paths] in
  let s2 :=
    {| layers := layers';
       activeLayerIndex := Z.of_nat (length layers') - 1;
       processedPaths := processedPaths s1;
       imageOffset := imageOffset s1;
       scaleX := scaleX s1; scaleY := scaleY s1; rotation := rotation s1;
       flipHorizontal := flipHorizontal s1; flipVertical := flipVertical s1 |} in
  loadLayerState (activeLayerIndex s2) s2.

(** [rotate90]: JavaScript's [%] takes the sign of the dividend. *)
Definition rotate90 (dir : Z) (s : state) : state :=
  {| layers := layers s;
     activeLayerIndex := activeLayerIndex s;
     processedPaths := processedPaths s;
     imageOffset := imageOffset s;
     scaleX := scaleX s; scaleY := scaleY s;
     rotation := Z.rem (rotation s + dir * 90) 360;
     flipHorizontal := flipHorizontal s; flipVertical := flipVertical s |}.

(** The live transform and working paths. *)
Definition live (s : state)
  : option (list Path) * (Q * Q) * Q * Q * Z * bool * bool :=
  (processedPaths s, imageOffset s, scaleX s, scaleY s, rotation s,
   flipHorizontal s, flipVertical s).

(** The live state as a layer snapshot with the given visibility. *)
Definition snapshot (s : state) (visible : bool) : Editor.layer :=
  {| Editor.paths := paths_or_empty (processedPaths s);
     Editor.offset := imageOffset s;
     Editor.scaleX := scaleX s;
     Editor.scaleY := scaleY s;
     Editor.rotation := rotation s;
     Editor.flipH := flipHorizontal s;
     Editor.flipV := flipVertical s;
     Editor.visible := visible |}.

(** The active index points at a layer, or is -1 when there is none. *)
Definition well_indexed (s : state) : Prop :=
  (layers s = [] /\ activeLayerIndex s = -1) \/
  0 <= activeLayerIndex s < Z.of_nat (length (layers s)).

End Workspace.

(** A workspace of two layers; the first is active and carries edits that
    are not saved into [layers] yet. *)
Definition two_layer_workspace : Workspace.state :=
  {| Workspace.layers :=
       [Workspace.new_layer [square100]; Workspace.new_layer []];
     Workspace.activeLayerIndex := 0;
     Workspace.processedPaths := Some [square100];
     Workspace.imageOffset := (3, 4)%Q;
     Workspace.scaleX := 2;
     Workspace.scaleY := 1;
     Workspace.rotation := 90;
     Workspace.flipHorizontal := true;
     Workspace.flipVertical := false |}.

(** A layer whose only path has no point. *)
Definition pointless_layer : Layer.t := Layer.identity [[]].

(** [p'] is [p] with some points deleted. *)
Inductive subsequence {A : Type} : list A -> list A -> Prop :=
| subseq_nil : subsequence [] []
| subseq_keep (x : A) (l' l : list A) :
    subsequence l' l -> subsequence (x :: l') (x :: l)
| subseq_drop (x : A) (l' l : list A) :
    subsequence l' l -> subsequence l' (x :: l).

(* ================================================================== *)
(** * Floating-point arithmetic

    The operations on Python [float]s that the fitting code and the slot
    assignment use.  A function written over [Arith] is the source
    function in whatever arithmetic the instance provides: [exact] computes
    in the rationals, without rounding; [binary64] computes in IEEE 754
    double precision, as Python does. *)

Class Arith : Type := {
  num : Type;
  of_int : Z -> num;             (* an [int] operand of a mixed expression *)
  literal : Q -> num;            (* a decimal literal such as [0.15] *)
  fadd : num -> num -> num;
  fsub : num -> num -> num;
  fmul : num -> num -> num;
  fdiv : num -> num -> num;
  fneg : num -> num;
  feqb : num -> num -> bool;
  fltb : num -> num -> bool;
  fleb : num -> num -> bool;
  ftrunc : num -> Z              (* [int(x)] *)
}.

(** [math.radians], [math.cos], [math.sin] on the numbers of an
    arithmetic. *)
Class Trig (A : Arith) : Type := {
  trig_radians : num -> num;
  trig_cos : num -> num;
  trig_sin : num -> num
}.

Definition exact : Arith :=
  {| num := Q;
     of_int := inject_Z;
     literal := fun q => q;
     fadd := Qplus;
     fsub := Qminus;
     fmul := Qmult;
     fdiv := Qdiv;
     fneg := Qopp;
     feqb := Qeq_bool;
     fltb := fun a b => negb (Qle_bool b a);
     fleb := Qle_bool;
     ftrunc := Py.int |}.

Definition exact_trig (M : MathLib) : Trig exact :=
  @Build_Trig exact (@math_radians M) (@math_cos M) (@math_sin M).

Module Float64.

(** [float(z)]: the double nearest to [z]. *)
Definition of_Z (z : Z) : PrimFloat.float :=
  FloatOps.SF2Prim
    (SpecFloat.binary_normalize FloatOps.prec FloatOps.emax z 0 false).

(** [int(f)] on a finite double: its integer part. *)
Definition to_Z (f : PrimFloat.float) : Z :=
  match FloatOps.Prim2SF f with
  | SpecFloat.S754_finite s m e =>
      let magnitude :=
        match e with
        | Z0 => Zpos m
        | Zpos _ => Z.shiftl (Zpos m) e
        | Zneg k => Z.shiftr (Zpos m) (Zpos k)
        end in
      if s then - magnitude else magnitude
  | _ => 0
  end.

(** A decimal literal [n / d]: the double nearest to the quotient. *)
Definition of_Q (q : Q) : PrimFloat.float :=
  PrimFloat.div (of_Z (Qnum q)) (of_Z (Zpos (Qden q))).

End Float64.

Definition binary64 : Arith :=
  {| num := PrimFloat.float;
     of_int := Float64.of_Z;
     literal := Float64.of_Q;
     fadd := PrimFloat.add;
     fsub := PrimFloat.sub;
     fmul := PrimFloat.mul;
     fdiv := PrimFloat.div;
     fneg := PrimFloat.opp;
     feqb := PrimFloat.eqb;
     fltb := PrimFloat.ltb;
     fleb := PrimFloat.leb;
     ftrunc := Float64.to_Z |}.

(** [<] is a strict order: what [max(..., key=...)] needs to return a
    greatest element.  It holds of the rationals and of IEEE comparison. *)
Definition strict_order (A : Arith) : Prop :=
  (forall x : num, fltb x x = false) /\
  (forall x y z : num, fltb x y = true -> fltb y z = true -> fltb x z = true).

(* ================================================================== *)
(** * The fitting code and the slot assignment in any arithmetic

    The same source functions as above, with every floating-point
    operation taken from an [Arith]: [int / int] is a float division,
    [int * float] converts the integer first, [int(...)] truncates. *)

Module Generic.

(** [a / b] on two [int]s: [ZeroDivisionError] when [b] is 0. *)
Definition truediv {A : Arith} (a b : Z) : result num :=
  if b =? 0 then Raise ZeroDivisionError else Ok (fdiv (of_int a) (of_int b)).

(** [min(a, b)]: keeps [a] unless [b < a]. *)
Definition min2 {A : Arith} (a b : num) : num :=
  if fltb b a then b else a.

(** ** image_draw.py: [scale_paths_to_area] *)

(** The scale factors and offsets computed ahead of the point loop:
    (offset_x, offset_y, scale_x, scale_y). *)
Definition fit_parameters {A : Arith} (image_paths : ImagePaths.t)
  (area : DrawingArea) (margin : Z) (maintain_aspect use_full_area : bool)
  : result (num * num * num * num) :=
  let '(available_width, available_height) :=
    if use_full_area
    then (right area - left area - 2 * margin,
          bottom area - top area - 2 * margin)
    else (cutout_left area - left area - 2 * margin,
          bottom area - top area - 2 * margin) in
  let src_width := ImagePaths.width image_paths in
  let src_height := ImagePaths.height image_paths in
  scales <-
    (if maintain_aspect
     then
       rw <- truediv available_width src_width ;;
       rh <- truediv available_height src_height ;;
       let scale := min2 rw rh in
       Ok (scale, scale)
     else
       sx <- truediv available_width src_width ;;
       sy <- truediv available_height src_height ;;
       Ok (sx, sy)) ;;
  let '(scale_x, scale_y) := scales in
  let scaled_width := fmul (of_int src_width) scale_x in
  let scaled_height := fmul (of_int src_height) scale_y in
  let offset_x :=
    fadd (of_int (left area + margin))
         (fdiv (fsub (of_int available_width) scaled_width) (of_int 2)) in
  let offset_y :=
    fadd (of_int (top area + margin))
         (fdiv (fsub (of_int available_height) scaled_height) (of_int 2)) in
  Ok (offset_x, offset_y, scale_x, scale_y).

(** [int(x), int(y)] on a pair of coordinates. *)
Definition int2 {A : Arith} (v : num * num) : Point :=
  (ftrunc (fst v), ftrunc (snd v)).

(** [offset_x + x * scale_x] and [offset_y + y * scale_y]: what the point
    loop passes to [int]. *)
Definition scale_point_value {A : Arith} (fit : num * num * num * num)
  (p : Point) : num * num :=
  let '(offset_x, offset_y, scale_x, scale_y) := fit in
  (fadd offset_x (fmul (of_int (fst p)) scale_x),
   fadd offset_y (fmul (of_int (snd p)) scale_y)).

(** [(int(offset_x + x * scale_x), int(offset_y + y * scale_y))] *)
Definition scale_point {A : Arith} (fit : num * num * num * num) (p : Point)
  : Point :=
  int2 (scale_point_value fit p).

Definition scale_paths_to_area {A : Arith} (image_paths : ImagePaths.t)
  (area : DrawingArea) (margin : Z) (maintain_aspect use_full_area : bool)
  : result (list Path) :=
  match ImagePaths.paths image_paths with
  | [] => Ok []
  | _ =>
      fit <- fit_parameters image_paths area margin maintain_aspect use_full_area ;;
      Ok (collect_loop area (scale_point fit) [] (ImagePaths.paths image_paths))
  end.

(** The point map of the one-shot fit (the identity where the fit has no
    parameters because a source dimension is 0). *)
Definition one_shot_transform {A : Arith} (image_paths : ImagePaths.t)
  (area : DrawingArea) (margin : Z) (maintain_aspect use_full_area : bool)
  : Point -> Point :=
  match fit_parameters image_paths area margin maintain_aspect use_full_area with
  | Ok fit => scale_point fit
  | Raise _ => fun p => p
  end.

(** ** revodraw.py: the per-layer transform of [draw] *)

Module Layer.
Record t {A : Arith} : Type := mk {
  paths : list Path;
  offset_x : num;
  offset_y : num;
  scale_x : num;
  scale_y : num;
  rotation : num;
  flip_h : bool;
  flip_v : bool
}.

(** Rotation 0, no flips, scale 1.0, offset (0, 0). *)
Definition identity {A : Arith} (ps : list Path) : t :=
  {| paths := ps; offset_x := of_int 0; offset_y := of_int 0;
     scale_x := literal 1; scale_y := literal 1;
     rotation := of_int 0; flip_h := false; flip_v := false |}.
End Layer.

Definition center_x {A : Arith} (a : DrawingArea) : num :=
  fadd (of_int (avail_left a)) (fdiv (of_int (avail_w a)) (of_int 2)).
Definition center_y {A : Arith} (a : DrawingArea) : num :=
  fadd (of_int (avail_top a)) (fdiv (of_int (avail_h a)) (of_int 2)).

(** The nested function [transform_point] up to its [return]: the [x] and
    [y] it passes to [int]. *)
Definition transform_point_value {A : Arith} {T : Trig A} (cx cy : num)
  (pcx pcy bs sx sy r : num) (fh fv : bool) (ox oy : num) (p : Point)
  : num * num :=
  let x := fsub (of_int (fst p)) pcx in
  let y := fsub (of_int (snd p)) pcy in
  let x := if fh then fneg x else x in
  let y := if fv then fneg y else y in
  let '(x, y) :=
    if negb (feqb r (of_int 0))
    then
      let rad := trig_radians r in
      let cos_r := trig_cos rad in
      let sin_r := trig_sin rad in
      (fsub (fmul x cos_r) (fmul y sin_r), fadd (fmul x sin_r) (fmul y cos_r))
    else (x, y) in
  let x := fmul x (fmul bs sx) in
  let y := fmul y (fmul bs sy) in
  let x := fadd x (fadd cx ox) in
  let y := fadd y (fadd cy oy) in
  (x, y).

(** [return int(x), int(y)] *)
Definition transform_point {A : Arith} {T : Trig A} (cx cy : num)
  (pcx pcy bs sx sy r : num) (fh fv : bool) (ox oy : num) (p : Point) : Point :=
  int2 (transform_point_value cx cy pcx pcy bs sx sy r fh fv ox oy p).

Record LayerFit {A : Arith} : Type := mkLayerFit {
  path_w : Z;
  path_h : Z;
  path_center_x : num;
  path_center_y : num;
  base_scale : num
}.

Definition layer_fit {A : Arith} (a : DrawingArea) (paths : list Path)
  : result LayerFit :=
  min_x <- Py.min_seq (all_x paths) ;;
  min_y <- Py.min_seq (all_y paths) ;;
  max_x <- Py.max_seq (all_x paths) ;;
  max_y <- Py.max_seq (all_y paths) ;;
  let path_w := Py.or_ (max_x - min_x) 1 in
  let path_h := Py.or_ (max_y - min_y) 1 in
  let path_center_x := fadd (of_int min_x) (fdiv (of_int path_w) (of_int 2)) in
  let path_center_y := fadd (of_int min_y) (fdiv (of_int path_h) (of_int 2)) in
  rw <- truediv (avail_w a) path_w ;;
  rh <- truediv (avail_h a) path_h ;;
  let base_scale := min2 rw rh in
  Ok {| path_w := path_w; path_h := path_h;
        path_center_x := path_center_x; path_center_y := path_center_y;
        base_scale := base_scale |}.

Definition layer_transform {A : Arith} {T : Trig A} (a : DrawingArea)
  (layer : Layer.t) (f : LayerFit) : Point -> Point :=
  transform_point (center_x a) (center_y a)
    (path_center_x f) (path_center_y f) (base_scale f)
    (Layer.scale_x layer) (Layer.scale_y layer) (Layer.rotation layer)
    (Layer.flip_h layer) (Layer.flip_v layer)
    (Layer.offset_x layer) (Layer.offset_y layer).


(** The path computation of [draw.generate]. *)
Definition generate {A : Arith} {T : Trig A} (drawing_area : DrawingArea)
  (input_layers : list Layer.t) : result (list Path) :=
  fold_left
    (fun acc layer =>
       all_scaled_paths <- acc ;;
       match Layer.paths layer with
       | [] => Ok all_scaled_paths
       | paths =>
           f <- layer_fit drawing_area paths ;;
           Ok (collect_loop drawing_area (layer_transform drawing_area layer f)
                            all_scaled_paths paths)
       end)
    input_layers (Ok []).

(** What one layer contributes to the output, in the specification's
    words: its paths, transformed and filtered. *)
Definition layer_output {A : Arith} {T : Trig A} (a : DrawingArea)
  (layer : Layer.t) : list Path :=
  match layer_fit a (Layer.paths layer) with
  | Ok f => containment_filter a (layer_transform a layer f) (Layer.paths layer)
  | Raise _ => []
  end.

(** ** detect_drawing_area.py: slot assignment of [detect_boundary] *)

Definition Line {A : Arith} : Type := (Z * num)%type.

Fixpoint insert_by_position {A : Arith} (x : Line) (l : list Line) : list Line :=
  match l with
  | [] => [x]
  | y :: t => if fst x <=? fst y then x :: y :: t else y :: insert_by_position x t
  end.

Definition sorted_by_position {A : Arith} (l : list Line) : list Line :=
  fold_right insert_by_position [] l.

(** [region_start * card_dim <= p <= region_end * card_dim] *)
(** One iteration of the grouping loop of [cluster_lines]. *)
Definition cluster_step {A : Arith} (min_gap : Z) (clusters : list (list Line))
  (line : Line) : list (list Line) :=
  let current := last clusters [] in
  let prev := last current (0, of_int 0) in
  if fst line - fst prev <? min_gap
  then removelast clusters ++ [current ++ [line]]
  else clusters ++ [[line]].

(** [np.mean([l[0] for l in cluster])]: the sum of the positions, as a
    float, over their number; [sum(l[1] for l in cluster)]: the strengths
    added one after the other to the [int] 0. *)
Definition mean_position {A : Arith} (cluster : list Line) : num :=
  fdiv (of_int (fold_left Z.add (map fst cluster) 0))
       (of_int (Z.of_nat (length cluster))).

Definition total_strength {A : Arith} (cluster : list Line) : num :=
  fold_left fadd (map snd cluster) (of_int 0).

Definition reduce_cluster {A : Arith} (cluster : list Line) : Line :=
  (ftrunc (mean_position cluster), total_strength cluster).

(** [cluster_lines] *)
Definition cluster_lines {A : Arith} (lines : list Line) (min_gap : Z)
  : list Line :=
  match lines with
  | [] => []
  | _ =>
      let sorted_lines := sorted_by_position lines in
      let clusters :=
        fold_left (cluster_step min_gap) (tl sorted_lines)
                  [[hd (0, of_int 0) sorted_lines]] in
      map reduce_cluster clusters
  end.

(** Vocabulary of the clustering claim. *)
Definition pairwise_farther_than {A : Arith} (gap : Z) (lines : list Line)
  : Prop :=
  ForallOrdPairs (fun a b => gap < Z.abs (fst a - fst b)) lines.

Fixpoint ascending {A : Arith} (l : list Line) : Prop :=
  match l with
  | a :: (b :: _) as t => fst a <= fst b /\ ascending t
  | _ => True
  end.

(** Every member but the first lies within the gap of its predecessor. *)
Fixpoint chained {A : Arith} (gap : Z) (c : list Line) : Prop :=
  match c with
  | a :: (b :: _) as t => fst b - fst a < gap /\ chained gap t
  | _ => True
  end.

(** The first member of a cluster is not within the gap of the last member
    of the cluster before it. *)
Fixpoint separated {A : Arith} (gap : Z) (cs : list (list Line)) : Prop :=
  match cs with
  | c1 :: (c2 :: _) as t =>
      gap <= fst (hd (0, of_int 0) c2) - fst (last c1 (0, of_int 0))
      /\ separated gap t
  | _ => True
  end.

(** The grouping: walk the sorted lines; a line within the gap of the
    current cluster's last member [prev] joins the current cluster [cur],
    any other line closes it and starts a new one. *)
Fixpoint group_from {A : Arith} (gap : Z) (cur : list Line) (prev : Line)
  (rest : list Line) : list (list Line) :=
  match rest with
  | [] => [cur]
  | line :: t =>
      if fst line - fst prev <? gap
      then group_from gap (cur ++ [line]) line t
      else cur :: group_from gap [line] line t
  end.

Definition grouped {A : Arith} (gap : Z) (sorted_lines : list Line)
  : list (list Line) :=
  match sorted_lines with
  | [] => []
  | first :: rest => group_from gap [first] first rest
  end.

(** A line that a cluster of its own gives back: its position survives the
    way through [np.mean] and [int], and adding its strength to 0 returns
    the strength.  True of every line in exact arithmetic; in double
    precision, of the positions a double holds exactly and of every
    strength but the negative zero. *)
Definition unchanged_alone {A : Arith} (l : Line) : Prop :=
  ftrunc (fdiv (of_int (fst l)) (of_int 1)) = fst l /\
  fadd (of_int 0) (snd l) = snd l.

Definition in_band {A : Arith} (region_start region_end : num) (card_dim : Z)
  (p : Z) : bool :=
  fleb (fmul region_start (of_int card_dim)) (of_int p)
  && fleb (of_int p) (fmul region_end (of_int card_dim)).

(** [max(candidates, key=lambda x: x[1])]: the running best is replaced
    by an element whose key is greater. *)
Fixpoint max_by_strength_from {A : Arith} (best : Line) (rest : list Line) : Line :=
  match rest with
  | [] => best
  | x :: t => max_by_strength_from (if fltb (snd best) (snd x) then x else best) t
  end.

Definition max_by_strength {A : Arith} (candidates : list Line) : result Line :=
  match candidates with
  | [] => Raise ValueError
  | x :: t => Ok (max_by_strength_from x t)
  end.

Definition band_candidates {A : Arith} (clusters : list Line)
  (region_start region_end : num) (card_dim : Z) : list Line :=
  filter (fun c => in_band region_start region_end card_dim (fst c)) clusters.

Definition find_boundary_line {A : Arith} (clusters : list Line)
  (region_start region_end : num) (card_dim : Z) : result (option Z) :=
  let candidates := band_candidates clusters region_start region_end card_dim in
  match candidates with
  | [] => Ok None
  | _ => best <- max_by_strength candidates ;; Ok (Some (fst best))
  end.

(** [v if v is not None else int(card_dim * fraction)] *)
Definition or_estimate {A : Arith} (found : option Z) (card_dim : Z)
  (fraction : num) : Z :=
  match found with
  | Some v => v
  | None => ftrunc (fmul (of_int card_dim) fraction)
  end.

Definition assign_slots {A : Arith} (h_clusters v_clusters : list Line)
  (card_x card_y card_w card_h : Z) : result DrawingArea :=
  let h_sorted := sorted_by_position h_clusters in
  let v_sorted := sorted_by_position v_clusters in
  top0 <- find_boundary_line h_sorted (literal 0) (literal (15 # 100)) card_h ;;
  bottom0 <- find_boundary_line h_sorted (literal (80 # 100)) (literal 1) card_h ;;
  left0 <- find_boundary_line v_sorted (literal 0) (literal (15 # 100)) card_w ;;
  right0 <- find_boundary_line v_sorted (literal (85 # 100)) (literal 1) card_w ;;
  top_excl_bottom0 <-
    find_boundary_line h_sorted (literal (10 # 100)) (literal (25 # 100)) card_h ;;
  top_excl_right0 <-
    find_boundary_line v_sorted (literal (12 # 100)) (literal (30 # 100)) card_w ;;
  visa_top0 <-
    find_boundary_line h_sorted (literal (45 # 100)) (literal (70 # 100)) card_h ;;
  visa_left0 <-
    find_boundary_line v_sorted (literal (50 # 100)) (literal (75 # 100)) card_w ;;
  let top1 := or_estimate top0 card_h (literal (5 # 100)) in
  let bottom1 := or_estimate bottom0 card_h (literal (92 # 100)) in
  let left1 := or_estimate left0 card_w (literal (7 # 100)) in
  let right1 := or_estimate right0 card_w (literal (94 # 100)) in
  let top_excl_bottom1 := or_estimate top_excl_bottom0 card_h (literal (18 # 100)) in
  let top_excl_right1 := or_estimate top_excl_right0 card_w (literal (18 # 100)) in
  let visa_top1 := or_estimate visa_top0 card_h (literal (58 # 100)) in
  let visa_left1 := or_estimate visa_left0 card_w (literal (60 # 100)) in
  Ok {| top := card_y + top1;
        left := card_x + left1;
        right := card_x + right1;
        bottom := card_y + bottom1;
        cutout_left := card_x + visa_left1;
        cutout_top := card_y + visa_top1;
        top_excl_right := card_x + top_excl_right1;
        top_excl_bottom := card_y + top_excl_bottom1 |}.

(** Vocabulary of the slot-assignment claim: a cluster lies in the band
    of a slot, as the program tests it; the cluster list a slot reads. *)
Definition in_slot_band {A : Arith} (s : Slot) (card_dim : Z) (c : Line) : Prop :=
  in_band (literal (fst (slot_band s))) (literal (snd (slot_band s)))
          card_dim (fst c) = true.

Definition slot_clusters {A : Arith} (s : Slot) (h_clusters v_clusters : list Line)
  : list Line :=
  if slot_horizontal s then h_clusters else v_clusters.

End Generic.

(** A request layer of rational numbers, as a layer of the exact
    arithmetic. *)
Definition exact_layer (layer : Layer.t) : @Generic.Layer.t exact :=
  @Generic.Layer.mk exact
    (Layer.paths layer)
    (Layer.offset_x layer) (Layer.offset_y layer)
    (Layer.scale_x layer) (Layer.scale_y layer)
    (Layer.rotation layer)
    (Layer.flip_h layer) (Layer.flip_v layer).

(** A 20 x 100 image with one stroke along its right edge. *)
Definition tall_image : ImagePaths.t :=
  {| ImagePaths.paths := [[(20, 0); (20, 100)]];
     ImagePaths.width := 20; ImagePaths.height := 100 |}.

(** The strengths of the clusters are comparable: on them [<] is a strict
    weak order, as it is on numbers that are not NaN.  [max(..., key=...)]
    returns a greatest element only then. *)
Definition ordered_strengths {A : Arith} (clusters : list Generic.Line) : Prop :=
  forall a b c, In a clusters -> In b clusters -> In c clusters ->
    fltb (snd a) (snd a) = false /\
    (fltb (snd a) (snd b) = true -> fltb (snd b) (snd c) = true ->
     fltb (snd a) (snd c) = true) /\
    (fltb (snd a) (snd b) = false -> fltb (snd b) (snd c) = false ->
     fltb (snd a) (snd c) = false).

(** The horizontal sample clusters in double precision. *)
Definition sample_h_clusters_binary64 : list (@Generic.Line binary64) :=
  [(10, Float64.of_Z 5); (50, Float64.of_Z 100); (900, Float64.of_Z 3)].

(** Two detections of one dotted line, 20 apart, and a third line; three
    detected lines, 100 apart and out of order: in double precision. *)
Definition dotted_lines_binary64 : list (@Generic.Line binary64) :=
  [(200, Float64.of_Q (7 # 10)); (100, Float64.of_Q (1 # 10));
   (120, Float64.of_Q (2 # 10)); (130, Float64.of_Q (3 # 10))].

Definition far_apart_lines_binary64 : list (@Generic.Line binary64) :=
  [(300, Float64.of_Z 12); (100, Float64.of_Q (5 # 2)); (200, Float64.of_Z 7)].

(** Horizontal clusters on a card 1400 high, one exactly on 70 % of the
    height, in exact and in double-precision numbers. *)
Definition edge_cluster_exact : list (@Generic.Line exact) := [(980, 300%Q)].
Definition edge_cluster_binary64 : list (@Generic.Line binary64) :=
  [(980, Float64.of_Z 300)].

(* ================================================================== *)
(** * Exact coordinates and their truncation

    The value a fitted coordinate has before [int(...)] is the value of
    [Generic.scale_point_value] or [Generic.layer_value] in the arithmetic
    [exact].  A floating-point evaluation returns this value up to a
    rounding error; [truncation_of v n] says that [n] is [int] of some
    evaluation of [v] that is off by at most half a pixel. *)

Definition truncation_of (v : Q) (n : Z) : Prop :=
  exists e : Q, (- (1 # 2) <= e)%Q /\ (e <= 1 # 2)%Q /\ n = Py.int (v + e).



(** A point of the source within the image bounds. *)
Definition in_image (ip : ImagePaths.t) (p : Point) : Prop :=
  0 <= fst p <= ImagePaths.width ip /\ 0 <= snd p <= ImagePaths.height ip.




(* ================================================================== *)
(** * Properties of the drawable-area model *)

Section AreaFacts.

Variable a : DrawingArea.

Lemma is_inside_true_iff (x y : Z) :
  is_inside a x y = true <->
  (left a <= x <= right a /\ top a <= y <= bottom a) /\
  ~ in_top_left_excl a x y /\ ~ in_bottom_right_excl a x y.
Proof.
  unfold is_inside, in_top_left_excl, in_bottom_right_excl.
  destruct (left a <=? x) eqn:E1, (x <=? right a) eqn:E2,
           (top a <=? y) eqn:E3, (y <=? bottom a) eqn:E4,
           (x <=? top_excl_right a) eqn:E5, (y <=? top_excl_bottom a) eqn:E6,
           (cutout_left a <=? x) eqn:E7, (cutout_top a <=? y) eqn:E8;
    cbn; split; try discriminate; try lia; intros _; lia.
Qed.

Lemma is_inside_false_iff (x y : Z) :
  is_inside a x y = false <->
  outside_outer a x y \/ in_top_left_excl a x y \/ in_bottom_right_excl a x y.
Proof.
  rewrite <- not_true_iff_false, is_inside_true_iff.
  unfold outside_outer, in_top_left_excl, in_bottom_right_excl. lia.
Qed.

End AreaFacts.

(** C2, as stated, fails: an area that satisfies the data-model invariant
    whose own center is reported outside (the center (400, 1075) lies in
    the bottom-right exclusion). *)
Lemma center_not_inside_counterexample :
  area_invariant overlapping_columns_area /\
  center overlapping_columns_area = (400, 1075) /\
  is_inside overlapping_columns_area
            (fst (center overlapping_columns_area))
            (snd (center overlapping_columns_area)) = false.
Proof.
  split; [unfold area_invariant; cbn; lia | split; reflexivity].
Qed.

(** C2 (amended): for every DrawingArea and every point, [is_inside] is
    false whenever the point lies strictly inside either exclusion
    rectangle, satisfies either exclusion-membership test, or lies outside
    the outer rectangle; and [is_inside] is true for the area's own center
    when the area satisfies the data-model invariant and the main lobe is
    at least two pixels wide ([top_excl_right + 2 <= cutout_left]). *)
Theorem is_inside_sound (a : DrawingArea) :
  (forall x y,
      outside_outer a x y \/
      strictly_in_top_left_rect a x y \/ strictly_in_bottom_right_rect a x y \/
      in_top_left_excl a x y \/ in_bottom_right_excl a x y ->
      is_inside a x y = false) /\
  (area_invariant a -> top_excl_right a + 2 <= cutout_left a ->
   is_inside a (fst (center a)) (snd (center a)) = true).
Proof.
  split.
  - intros x y H. apply is_inside_false_iff.
    unfold outside_outer, strictly_in_top_left_rect,
      strictly_in_bottom_right_rect, in_top_left_excl, in_bottom_right_excl in *.
    lia.
  - intros Hinv Hlobe. apply is_inside_true_iff.
    unfold area_invariant, in_top_left_excl, in_bottom_right_excl, center in *.
    cbn [fst snd].
    pose proof (Z.div_mod (cutout_left a - Z.max (left a) (top_excl_right a)) 2).
    pose proof (Z.mod_pos_bound (cutout_left a - Z.max (left a) (top_excl_right a)) 2).
    pose proof (Z.div_mod (bottom a - Z.max (top a) (top_excl_bottom a)) 2).
    pose proof (Z.mod_pos_bound (bottom a - Z.max (top a) (top_excl_bottom a)) 2).
    lia.
Qed.

Lemma is_inside_sound_witness :
  is_inside scenario_area 100 100 = false /\
  is_inside scenario_area (fst (center scenario_area))
            (snd (center scenario_area)) = true.
Proof.
  destruct (is_inside_sound scenario_area) as [Hout Hcenter].
  split.
  - apply Hout. right; left.
    unfold strictly_in_top_left_rect; cbn; lia.
  - apply Hcenter; unfold area_invariant; cbn; lia.
Defined.

(** C10: [is_inside] treats the outer rectangle as closed: a point on the
    outer rectangle's edge that satisfies neither exclusion-membership test
    is reported inside. *)
Theorem is_inside_closed_outer (a : DrawingArea) (x y : Z) :
  on_outer_edge a x y ->
  ~ in_top_left_excl a x y ->
  ~ in_bottom_right_excl a x y ->
  is_inside a x y = true.
Proof.
  intros (Hx & Hy & _) Htl Hbr.
  apply is_inside_true_iff. auto.
Qed.

Lemma is_inside_closed_outer_witness :
  is_inside scenario_area 1000 100 = true.
Proof.
  apply is_inside_closed_outer;
    unfold on_outer_edge, in_top_left_excl, in_bottom_right_excl; cbn; lia.
Defined.

(** With a positive margin the rectangle of [get_usable_rect] does avoid
    both exclusions, as long as its right edge stays inside the outer
    rectangle. *)
Lemma get_usable_rect_avoids (a : DrawingArea) (margin : Z) :
  1 <= margin -> cutout_left a - margin <= right a ->
  rect_avoids_exclusions a (get_usable_rect a margin).
Proof.
  intros Hm Hr. unfold rect_avoids_exclusions, get_usable_rect.
  intros x y Hx Hy. apply is_inside_true_iff.
  unfold in_top_left_excl, in_bottom_right_excl. lia.
Qed.

(** A point inside the safe bounds is inside the area itself. *)
Lemma safe_bounds_inside (a : DrawingArea) (margin x y : Z) :
  0 <= margin ->
  is_inside (get_safe_bounds a margin) x y = true -> is_inside a x y = true.
Proof.
  intros Hm. rewrite !is_inside_true_iff.
  unfold in_top_left_excl, in_bottom_right_excl, get_safe_bounds. cbn. lia.
Qed.

(** C7: on the specification's 1000 x 2000 card with margin 20,
    [get_usable_rect] returns (220, 170, 680, 1980), while the rectangle
    (20, 170, 680, 1980) also avoids both exclusions, keeps the same margin
    to every edge it faces, contains the returned rectangle and is strictly
    larger: the returned rectangle is not the largest one. *)
Theorem get_usable_rect_not_largest :
  get_usable_rect scenario_area 20 = (220, 170, 680, 1980) /\
  rect_avoids_exclusions scenario_area (get_usable_rect scenario_area 20) /\
  rect_avoids_exclusions scenario_area (20, 170, 680, 1980) /\
  rect_area (get_usable_rect scenario_area 20) < rect_area (20, 170, 680, 1980).
Proof.
  split; [reflexivity|].
  split; [|split].
  - cbn. intros x y Hx Hy. apply is_inside_true_iff.
    unfold in_top_left_excl, in_bottom_right_excl; cbn; lia.
  - cbn. intros x y Hx Hy. apply is_inside_true_iff.
    unfold in_top_left_excl, in_bottom_right_excl; cbn; lia.
  - cbn. lia.
Qed.

(* ================================================================== *)
(** * Properties of Python numbers *)

Lemma Ok_inj {A : Type} (x y : A) : Ok x = Ok y -> x = y.
Proof. now intros [= ->]. Qed.

Lemma int_proper (x y : Q) : (x == y)%Q -> Py.int x = Py.int y.
Proof.
  intros E. unfold Py.int.
  rewrite (Qleb_comp 0%Q 0%Q (Qeq_refl 0%Q) x y E),
    (Qfloor_comp x y E), (Qceiling_comp x y E).
  reflexivity.
Qed.

Lemma int_inject (z : Z) : Py.int (inject_Z z) = z.
Proof.
  unfold Py.int. rewrite Qfloor_Z, Qceiling_Z. now destruct (Qle_bool 0 (inject_Z z)).
Qed.

Lemma int_between (lo hi : Z) (q : Q) :
  (inject_Z lo <= q)%Q -> (q <= inject_Z hi)%Q -> lo <= Py.int q <= hi.
Proof.
  intros Hlo Hhi. unfold Py.int.
  pose proof (Qfloor_resp_le _ _ Hlo) as F1.
  pose proof (Qfloor_resp_le _ _ Hhi) as F2.
  pose proof (Qceiling_resp_le _ _ Hlo) as C1.
  pose proof (Qceiling_resp_le _ _ Hhi) as C2.
  rewrite Qfloor_Z in F1, F2. rewrite Qceiling_Z in C1, C2.
  destruct (Qle_bool 0 q); lia.
Qed.

Lemma inject_Z_minus (a b : Z) : (inject_Z (a - b) == inject_Z a - inject_Z b)%Q.
Proof.
  unfold Z.sub. rewrite inject_Z_plus, inject_Z_opp. reflexivity.
Qed.





Lemma truncation_exact (v : Q) : truncation_of v (Py.int v).
Proof.
  exists 0%Q. split; [lra|]. split; [lra|].
  apply int_proper. lra.
Qed.


(** A truncation of a value between two integers is at most 1 outside
    them. *)
Lemma truncation_between (lo hi : Z) (v : Q) (n : Z) :
  (inject_Z lo <= v)%Q -> (v <= inject_Z hi)%Q -> truncation_of v n ->
  lo - 1 <= n <= hi + 1.
Proof.
  intros Hlo Hhi (e & L & U & ->).
  apply int_between.
  - rewrite inject_Z_minus. change (inject_Z 1) with 1%Q. lra.
  - rewrite inject_Z_plus. change (inject_Z 1) with 1%Q. lra.
Qed.

Lemma min2_is_Qmin (x y : Q) : Py.min2 x y = Qmin x y.
Proof.
  unfold Py.min2, Qmin, GenericMinMax.gmin.
  destruct (Qle_bool x y) eqn:E.
  - apply Qle_bool_iff in E. destruct (x ?= y)%Q eqn:C; try reflexivity.
    apply Qgt_alt in C. exfalso. apply (Qlt_not_le _ _ C E).
  - destruct (x ?= y)%Q eqn:C; try reflexivity; exfalso.
    + apply Qeq_alt in C. assert (H : (x <= y)%Q) by (rewrite C; apply Qle_refl).
      apply Qle_bool_iff in H. congruence.
    + apply Qlt_alt in C. apply Qlt_le_weak in C.
      apply Qle_bool_iff in C. congruence.
Qed.

Lemma truediv_ok (a b : Z) :
  b <> 0 -> Py.truediv (inject_Z a) (inject_Z b) = Ok (inject_Z a / inject_Z b)%Q.
Proof.
  intros Hb. unfold Py.truediv.
  destruct (Qeq_bool (inject_Z b) 0) eqn:E; [|reflexivity].
  apply Qeq_bool_iff in E. unfold Qeq in E. cbn in E. lia.
Qed.

(* ================================================================== *)
(** * Properties of the containment loops *)

Section Containment.

Variable area : DrawingArea.
Variable transform : Point -> Point.

Lemma keep_inside_loop_acc (path acc : Path) :
  fold_left
    (fun scaled_path p =>
       let '(new_x, new_y) := transform p in
       if is_inside area new_x new_y
       then scaled_path ++ [(new_x, new_y)]
       else scaled_path)
    path acc
  = acc ++ filter (inside_point area) (map transform path).
Proof.
  revert acc. induction path as [|p path IH]; intros acc; cbn.
  - now rewrite app_nil_r.
  - rewrite IH. unfold inside_point at 2.
    destruct (transform p) as [nx ny]; cbn.
    destruct (is_inside area nx ny); [|reflexivity].
    now rewrite <- app_assoc.
Qed.

Lemma keep_inside_loop_spec (path : Path) :
  keep_inside_loop area transform path
  = filter (inside_point area) (map transform path).
Proof. apply keep_inside_loop_acc. Qed.

Lemma collect_loop_spec (paths acc : list Path) :
  collect_loop area transform acc paths
  = acc ++ containment_filter area transform paths.
Proof.
  unfold collect_loop, containment_filter.
  revert acc. induction paths as [|path paths IH]; intros acc;
    cbn [fold_left map filter].
  - now rewrite app_nil_r.
  - rewrite IH, keep_inside_loop_spec.
    destruct (2 <=? length (filter (inside_point area) (map transform path)))%nat;
      [|reflexivity].
    now rewrite <- app_assoc.
Qed.

Lemma containment_filter_contained (paths : list Path) :
  contained area (containment_filter area transform paths).
Proof.
  unfold contained, containment_filter.
  apply Forall_forall. intros path Hin.
  apply filter_In in Hin. destruct Hin as [Hin Hlen].
  apply in_map_iff in Hin. destruct Hin as (src & <- & _).
  split.
  - apply Forall_forall. intros p Hp. apply filter_In in Hp. apply Hp.
  - now apply Nat.leb_le.
Qed.

End Containment.

Lemma containment_filter_ext (area : DrawingArea) (f g : Point -> Point)
  (paths : list Path) :
  (forall p, f p = g p) ->
  containment_filter area f paths = containment_filter area g paths.
Proof.
  intros E. unfold containment_filter. f_equal.
  apply map_ext. intros path. f_equal. now apply map_ext.
Qed.

Lemma contained_app (a : DrawingArea) (xs ys : list Path) :
  contained a xs -> contained a ys -> contained a (xs ++ ys).
Proof. unfold contained. intros. apply Forall_app. auto. Qed.

(* ================================================================== *)
(** * Properties of the one-shot fit *)

Lemma scale_paths_to_area_inv (ip : ImagePaths.t) (a : DrawingArea) (margin : Z)
  (maintain_aspect use_full_area : bool) (out : list Path) :
  scale_paths_to_area ip a margin maintain_aspect use_full_area = Ok out ->
  exists T, out = containment_filter a T (ImagePaths.paths ip).
Proof.
  unfold scale_paths_to_area.
  destruct (ImagePaths.paths ip) as [|p0 ps] eqn:Eps.
  - intros [= <-]. now exists (fun p => p).
  - destruct use_full_area, maintain_aspect; cbn [bind];
      destruct (Py.truediv _ _) as [rw|e]; cbn [bind]; try discriminate;
      destruct (Py.truediv _ _) as [rh|e]; cbn [bind]; try discriminate;
      intros H; apply Ok_inj in H; subst out; rewrite collect_loop_spec;
      cbn [app]; eexists; reflexivity.
Qed.

Lemma scale_paths_to_area_total (ip : ImagePaths.t) (a : DrawingArea) (margin : Z)
  (maintain_aspect use_full_area : bool) :
  ImagePaths.width ip <> 0 -> ImagePaths.height ip <> 0 ->
  exists out,
    scale_paths_to_area ip a margin maintain_aspect use_full_area = Ok out.
Proof.
  intros Hw Hh. unfold scale_paths_to_area.
  destruct (ImagePaths.paths ip) as [|p0 ps]; [now eexists|].
  destruct use_full_area, maintain_aspect; cbn [bind];
    rewrite !truediv_ok by assumption; cbn [bind]; eexists; reflexivity.
Qed.

(* ================================================================== *)
(** * Properties of the per-layer transform *)

Lemma fold_min_le (t : list Z) (x : Z) : fold_left Z.min t x <= x.
Proof.
  revert x. induction t as [|y t IH]; intros x; cbn; [lia|].
  specialize (IH (Z.min x y)). lia.
Qed.

Lemma fold_max_ge (t : list Z) (x : Z) : x <= fold_left Z.max t x.
Proof.
  revert x. induction t as [|y t IH]; intros x; cbn; [lia|].
  specialize (IH (Z.max x y)). lia.
Qed.

Lemma or_1_positive (d : Z) : 0 <= d -> 1 <= Py.or_ d 1.
Proof.
  intros Hd. unfold Py.or_. destruct (d =? 0) eqn:E; [lia|].
  apply Z.eqb_neq in E. lia.
Qed.

Lemma or_1_nonzero (d : Z) : Py.or_ d 1 <> 0.
Proof.
  unfold Py.or_. destruct (d =? 0) eqn:E; [lia|]. now apply Z.eqb_neq in E.
Qed.

(** [layer_fit] raises only [ValueError], and only when the layer has no
    point at all. *)
Lemma layer_fit_cases (a : DrawingArea) (paths : list Path) :
  (concat paths = [] /\ layer_fit a paths = Raise ValueError) \/
  (concat paths <> [] /\ exists f, layer_fit a paths = Ok f).
Proof.
  unfold layer_fit, all_x, all_y.
  destruct (concat paths) as [|[x y] pts]; [left; split; reflexivity|].
  right. split; [discriminate|].
  cbn [map fst snd Py.min_seq Py.max_seq bind].
  rewrite !truediv_ok by apply or_1_nonzero.
  cbn [bind]. eexists; reflexivity.
Qed.

Lemma layer_fit_clamped (a : DrawingArea) (paths : list Path) (f : LayerFit) :
  layer_fit a paths = Ok f -> 1 <= path_w f /\ 1 <= path_h f.
Proof.
  unfold layer_fit, all_x, all_y.
  destruct (concat paths) as [|[x y] pts]; [discriminate|].
  cbn [map fst snd Py.min_seq Py.max_seq bind].
  rewrite !truediv_ok by apply or_1_nonzero.
  cbn [bind]. intros H. apply Ok_inj in H. subst f. cbn [path_w path_h].
  pose proof (fold_min_le (map fst pts) x).
  pose proof (fold_max_ge (map fst pts) x).
  pose proof (fold_min_le (map snd pts) y).
  pose proof (fold_max_ge (map snd pts) y).
  split; apply or_1_positive; lia.
Qed.

Section Generate.

Context {M : MathLib}.
Variable a : DrawingArea.

(** The body of the [for layer in input_layers] loop. *)
Let layer_step (acc : result (list Path)) (layer : Layer.t) : result (list Path) :=
  all_scaled_paths <- acc ;;
  match Layer.paths layer with
  | [] => Ok all_scaled_paths
  | paths =>
      f <- layer_fit a paths ;;
      Ok (collect_loop a (layer_transform a layer f) all_scaled_paths paths)
  end.

Lemma generate_raise (layers : list Layer.t) (e : PyExc) :
  fold_left layer_step layers (Raise e) = Raise e.
Proof. induction layers as [|l ls IH]; [reflexivity|exact IH]. Qed.

Lemma layer_step_ok (acc : list Path) (layer : Layer.t) :
  (Layer.paths layer <> [] -> concat (Layer.paths layer) <> []) ->
  layer_step (Ok acc) layer = Ok (acc ++ layer_output a layer).
Proof.
  intros Hpts. unfold layer_step, layer_output. cbn [bind].
  destruct (Layer.paths layer) as [|p ps] eqn:Eps.
  - cbn. now rewrite app_nil_r.
  - destruct (layer_fit_cases a (p :: ps)) as [[Hnil _]|[_ [f Hf]]].
    + exfalso. apply Hpts; [discriminate|exact Hnil].
    + rewrite Hf. cbn [bind]. now rewrite collect_loop_spec.
Qed.

Lemma layer_step_raise (acc : list Path) (layer : Layer.t) :
  Layer.paths layer <> [] -> concat (Layer.paths layer) = [] ->
  layer_step (Ok acc) layer = Raise ValueError.
Proof.
  intros Hne Hnil. unfold layer_step. cbn [bind].
  destruct (Layer.paths layer) as [|p ps] eqn:Eps; [contradiction|].
  destruct (layer_fit_cases a (p :: ps)) as [[_ Hr]|[Hc _]]; [|contradiction].
  now rewrite Hr.
Qed.

Lemma generate_acc_inv (layers : list Layer.t) (acc out : list Path) :
  fold_left layer_step layers (Ok acc) = Ok out ->
  out = acc ++ flat_map (layer_output a) layers.
Proof.
  revert acc. induction layers as [|l ls IH]; intros acc; cbn [fold_left flat_map].
  - intros [= <-]. now rewrite app_nil_r.
  - destruct (Layer.paths l) as [|p ps] eqn:Eps.
    + rewrite layer_step_ok by (rewrite Eps; intros C; now contradiction C).
      intros H. apply IH in H. now rewrite <- app_assoc in H.
    + destruct (concat (Layer.paths l)) as [|pt pts] eqn:Ec.
      * rewrite layer_step_raise; [|rewrite Eps; discriminate|exact Ec].
        rewrite generate_raise. discriminate.
      * rewrite layer_step_ok by (rewrite Ec; discriminate).
        intros H. apply IH in H. now rewrite <- app_assoc in H.
Qed.


Lemma generate_acc_no_zero_division (layers : list Layer.t)
  (acc : result (list Path)) :
  acc <> Raise ZeroDivisionError ->
  fold_left layer_step layers acc <> Raise ZeroDivisionError.
Proof.
  revert acc. induction layers as [|l ls IH]; intros acc Hacc;
    cbn [fold_left]; [exact Hacc|].
  apply IH. destruct acc as [all|e]; [|exact Hacc].
  unfold layer_step. cbn [bind].
  destruct (Layer.paths l) as [|p ps]; [discriminate|].
  destruct (layer_fit_cases a (p :: ps)) as [[_ Hr]|[_ [f Hf]]].
  - rewrite Hr. discriminate.
  - rewrite Hf. discriminate.
Qed.

Lemma layer_output_contained (layer : Layer.t) :
  contained a (layer_output a layer).
Proof.
  unfold layer_output. destruct (layer_fit a (Layer.paths layer)).
  - apply containment_filter_contained.
  - constructor.
Qed.

Lemma flat_map_layer_output_contained (layers : list Layer.t) :
  contained a (flat_map (layer_output a) layers).
Proof.
  induction layers as [|l ls IH]; cbn [flat_map]; [constructor|].
  apply contained_app; [apply layer_output_contained|exact IH].
Qed.

End Generate.

(* ================================================================== *)
(** * Claims on the path-fit engine *)

(** ** The fitting code in any arithmetic *)

Lemma generic_truediv_ok {A : Arith} (a b : Z) :
  b <> 0 -> Generic.truediv a b = Ok (fdiv (of_int a) (of_int b)).
Proof.
  intros Hb. unfold Generic.truediv.
  destruct (b =? 0) eqn:E; [|reflexivity]. apply Z.eqb_eq in E. contradiction.
Qed.

Lemma generic_fit_parameters_total {A : Arith} (ip : ImagePaths.t)
  (a : DrawingArea) (margin : Z) (maintain_aspect use_full_area : bool) :
  ImagePaths.width ip <> 0 -> ImagePaths.height ip <> 0 ->
  exists fit,
    Generic.fit_parameters ip a margin maintain_aspect use_full_area = Ok fit.
Proof.
  intros Hw Hh. unfold Generic.fit_parameters.
  destruct use_full_area, maintain_aspect; cbn [bind];
    rewrite !generic_truediv_ok by assumption; cbn [bind];
    eexists; reflexivity.
Qed.

(** The one-shot fit is the containment filter of its point map. *)
Lemma generic_scale_paths_to_area_inv {A : Arith} (ip : ImagePaths.t)
  (a : DrawingArea) (margin : Z) (maintain_aspect use_full_area : bool)
  (out : list Path) :
  Generic.scale_paths_to_area ip a margin maintain_aspect use_full_area = Ok out ->
  out = containment_filter a
          (Generic.one_shot_transform ip a margin maintain_aspect use_full_area)
          (ImagePaths.paths ip).
Proof.
  unfold Generic.scale_paths_to_area, Generic.one_shot_transform.
  destruct (ImagePaths.paths ip) as [|p0 ps] eqn:Eps.
  - intros H. apply Ok_inj in H. now subst out.
  - destruct (Generic.fit_parameters ip a margin maintain_aspect use_full_area)
      as [fit|e]; cbn [bind]; [|discriminate].
    intros H. apply Ok_inj in H. subst out.
    now rewrite collect_loop_spec.
Qed.

Lemma generic_scale_paths_to_area_total {A : Arith} (ip : ImagePaths.t)
  (a : DrawingArea) (margin : Z) (maintain_aspect use_full_area : bool) :
  ImagePaths.width ip <> 0 -> ImagePaths.height ip <> 0 ->
  exists out,
    Generic.scale_paths_to_area ip a margin maintain_aspect use_full_area = Ok out.
Proof.
  intros Hw Hh. unfold Generic.scale_paths_to_area.
  destruct (ImagePaths.paths ip); [eexists; reflexivity|].
  destruct (generic_fit_parameters_total ip a margin maintain_aspect
              use_full_area Hw Hh) as [fit ->].
  cbn [bind]. eexists. reflexivity.
Qed.

Section GenericGenerate.

Context {A : Arith} {T : Trig A}.
Variable a : DrawingArea.

(** The body of the [for layer in input_layers] loop. *)
Let generic_step (acc : result (list Path)) (layer : Generic.Layer.t)
  : result (list Path) :=
  all_scaled_paths <- acc ;;
  match Generic.Layer.paths layer with
  | [] => Ok all_scaled_paths
  | paths =>
      f <- Generic.layer_fit a paths ;;
      Ok (collect_loop a (Generic.layer_transform a layer f) all_scaled_paths paths)
  end.

Lemma generic_layer_fit_cases (paths : list Path) :
  (concat paths = [] /\ Generic.layer_fit a paths = Raise ValueError) \/
  (concat paths <> [] /\ exists f, Generic.layer_fit a paths = Ok f).
Proof.
  unfold Generic.layer_fit, all_x, all_y.
  destruct (concat paths) as [|[x y] pts]; [left; split; reflexivity|].
  right. split; [discriminate|].
  cbn [map fst snd Py.min_seq Py.max_seq bind].
  rewrite !generic_truediv_ok by apply or_1_nonzero.
  cbn [bind]. eexists. reflexivity.
Qed.

Lemma generic_step_raise (layers : list Generic.Layer.t) (e : PyExc) :
  fold_left generic_step layers (Raise e) = Raise e.
Proof. induction layers as [|l ls IH]; [reflexivity|exact IH]. Qed.

Lemma generic_step_ok (acc : list Path) (layer : Generic.Layer.t) :
  (Generic.Layer.paths layer <> [] -> concat (Generic.Layer.paths layer) <> []) ->
  generic_step (Ok acc) layer = Ok (acc ++ Generic.layer_output a layer).
Proof.
  intros Hpts. unfold generic_step, Generic.layer_output. cbn [bind].
  destruct (Generic.Layer.paths layer) as [|p ps] eqn:Eps.
  - destruct (Generic.layer_fit a []); cbn; now rewrite app_nil_r.
  - destruct (generic_layer_fit_cases (p :: ps)) as [[Hnil _]|[_ [f Hf]]].
    + exfalso. apply Hpts; [discriminate|exact Hnil].
    + rewrite Hf. cbn [bind]. now rewrite collect_loop_spec.
Qed.

Lemma generic_step_pointless (acc : list Path) (layer : Generic.Layer.t) :
  Generic.Layer.paths layer <> [] -> concat (Generic.Layer.paths layer) = [] ->
  generic_step (Ok acc) layer = Raise ValueError.
Proof.
  intros Hne Hnil. unfold generic_step. cbn [bind].
  destruct (Generic.Layer.paths layer) as [|p ps] eqn:Eps; [contradiction|].
  destruct (generic_layer_fit_cases (p :: ps)) as [[_ Hr]|[Hc _]]; [|contradiction].
  now rewrite Hr.
Qed.

Lemma generic_generate_acc_inv (layers : list Generic.Layer.t)
  (acc out : list Path) :
  fold_left generic_step layers (Ok acc) = Ok out ->
  out = acc ++ flat_map (Generic.layer_output a) layers.
Proof.
  revert acc. induction layers as [|l ls IH]; intros acc; cbn [fold_left flat_map].
  - intros H. apply Ok_inj in H. subst out. now rewrite app_nil_r.
  - destruct (Generic.Layer.paths l) as [|p ps] eqn:Eps.
    + rewrite generic_step_ok by (rewrite Eps; intros C; now contradiction C).
      intros H. apply IH in H. now rewrite <- app_assoc in H.
    + destruct (concat (Generic.Layer.paths l)) as [|pt pts] eqn:Ec.
      * rewrite generic_step_pointless; [|rewrite Eps; discriminate|exact Ec].
        rewrite generic_step_raise. discriminate.
      * rewrite generic_step_ok by (rewrite Ec; discriminate).
        intros H. apply IH in H. now rewrite <- app_assoc in H.
Qed.

Lemma generic_generate_acc_total (layers : list Generic.Layer.t) (acc : list Path) :
  (forall layer, In layer layers ->
     Generic.Layer.paths layer <> [] -> concat (Generic.Layer.paths layer) <> []) ->
  fold_left generic_step layers (Ok acc)
  = Ok (acc ++ flat_map (Generic.layer_output a) layers).
Proof.
  revert acc. induction layers as [|l ls IH]; intros acc Hall;
    cbn [fold_left flat_map].
  - now rewrite app_nil_r.
  - rewrite generic_step_ok by (apply Hall; now left).
    rewrite IH by (intros; apply Hall; [now right|assumption]).
    now rewrite <- app_assoc.
Qed.

Lemma generic_layer_output_contained (layers : list Generic.Layer.t) :
  contained a (flat_map (Generic.layer_output a) layers).
Proof.
  induction layers as [|l ls IH]; cbn [flat_map]; [constructor|].
  apply contained_app; [|exact IH].
  unfold Generic.layer_output.
  destruct (Generic.layer_fit a (Generic.Layer.paths l)).
  - apply containment_filter_contained.
  - constructor.
Qed.

End GenericGenerate.

(** C1: in whatever arithmetic the fit is computed, every point of every
    path output by the fitting operation (the one-shot fit
    [scale_paths_to_area] and the per-layer transform of [generate])
    satisfies [is_inside] of the area, and every output path has at least
    two points; the output is the input, path by path and point by point
    in the original order, mapped through the point map of the fit, with
    the points that are not inside dropped and the paths left with fewer
    than two points discarded.  Both operations return a result: the
    one-shot fit whenever the image dimensions are not zero, the per-layer
    transform whenever every non-empty layer has a point. *)
Theorem fit_containment {A : Arith} {T : Trig A} (a : DrawingArea) :
  (forall ip margin maintain_aspect use_full_area,
      (ImagePaths.width ip <> 0 -> ImagePaths.height ip <> 0 ->
       exists out,
         Generic.scale_paths_to_area ip a margin maintain_aspect use_full_area
         = Ok out) /\
      (forall out,
          Generic.scale_paths_to_area ip a margin maintain_aspect use_full_area
          = Ok out ->
          contained a out /\
          out = containment_filter a
                  (Generic.one_shot_transform ip a margin maintain_aspect
                                              use_full_area)
                  (ImagePaths.paths ip))) /\
  (forall layers,
      ((forall layer, In layer layers ->
          Generic.Layer.paths layer <> [] ->
          concat (Generic.Layer.paths layer) <> []) ->
       exists out, Generic.generate a layers = Ok out) /\
      (forall out,
          Generic.generate a layers = Ok out ->
          contained a out /\ out = flat_map (Generic.layer_output a) layers)).
Proof.
  split.
  - intros ip margin ma fa. split.
    + apply generic_scale_paths_to_area_total.
    + intros out H. apply generic_scale_paths_to_area_inv in H.
      split; [|exact H]. rewrite H. apply containment_filter_contained.
  - intros layers. split.
    + intros Hall. eexists. unfold Generic.generate.
      apply (generic_generate_acc_total a layers [] Hall).
    + intros out H. apply (generic_generate_acc_inv a layers [] out) in H.
      cbn [app] in H. subst out.
      split; [apply generic_layer_output_contained|reflexivity].
Qed.

Lemma fit_containment_witness :
  (@Generic.scale_paths_to_area binary64 tall_image scenario_area 20 true false
   = Ok [[(546, 19); (546, 1980)]] /\
   contained scenario_area [[(546, 19); (546, 1980)]]) /\
  (exists out,
      @Generic.generate exact (exact_trig unused_math) scenario_area
        [Generic.Layer.identity [square100]] = Ok out /\
      contained scenario_area out).
Proof.
  split.
  - assert (E : @Generic.scale_paths_to_area binary64 tall_image scenario_area
                  20 true false = Ok [[(546, 19); (546, 1980)]])
      by (vm_compute; reflexivity).
    split; [exact E|].
    exact (proj1 (proj2 (proj1 (@fit_containment binary64
                                  (@Build_Trig binary64 (fun x => x) (fun x => x)
                                               (fun x => x))
                                  scenario_area)
                           tall_image 20 true false) _ E)).
  - destruct (@fit_containment exact (exact_trig unused_math) scenario_area)
      as [_ Hlayer].
    destruct (Hlayer [Generic.Layer.identity [square100]]) as [Htotal Hinv].
    destruct Htotal as [out E].
    + intros layer [<-|[]] _. cbn. discriminate.
    + exists out. split; [exact E|apply (Hinv out E)].
Defined.

(** The aspect-locked one-shot fit, in closed form. *)
Lemma scale_paths_to_area_aspect_locked (ip : ImagePaths.t) (a : DrawingArea)
  (margin : Z) (use_full_area : bool) :
  ImagePaths.width ip <> 0 -> ImagePaths.height ip <> 0 ->
  let availW :=
    inject_Z ((if use_full_area then right a else cutout_left a)
              - left a - 2 * margin) in
  let availH := inject_Z (bottom a - top a - 2 * margin) in
  let srcW := inject_Z (ImagePaths.width ip) in
  let srcH := inject_Z (ImagePaths.height ip) in
  let scale := Qmin (availW / srcW) (availH / srcH) in
  let offset_x :=
    (inject_Z (left a) + inject_Z margin + (availW - srcW * scale) / 2)%Q in
  let offset_y :=
    (inject_Z (top a) + inject_Z margin + (availH - srcH * scale) / 2)%Q in
  scale_paths_to_area ip a margin true use_full_area
  = Ok (containment_filter a
          (fun p => (Py.int (offset_x + inject_Z (fst p) * scale),
                     Py.int (offset_y + inject_Z (snd p) * scale)))
          (ImagePaths.paths ip)).
Proof.
  intros Hw Hh. cbv zeta. unfold scale_paths_to_area.
  destruct (ImagePaths.paths ip) as [|p0 ps] eqn:Eps; [reflexivity|].
  destruct use_full_area; cbn [bind];
    rewrite !truediv_ok by assumption; cbn [bind];
    rewrite collect_loop_spec; cbn [app]; f_equal;
    apply containment_filter_ext; intros p; unfold scale_point;
    rewrite min2_is_Qmin; f_equal; apply int_proper;
    rewrite inject_Z_plus; ring.
Qed.

(** C4: for every input with non-zero source dimensions and every margin,
    in whatever arithmetic it is computed, the one-shot fit with aspect
    lock uses one scale factor on both axes, [min] of availW / srcW and
    availH / srcH (one of the two quotients, and neither quotient is
    smaller, where [<] is a strict order), and translates by
    areaOrigin + margin + (available - scaled) / 2 per axis; the available
    width is measured from the area's left edge to the bottom-right
    exclusion's left edge when the full L-shape is disallowed (to the right
    edge when it is allowed).  The output is the containment filter of
    p -> int(offset + p * scale). *)
Theorem one_shot_fit_aspect_locked {A : Arith} (ip : ImagePaths.t)
  (a : DrawingArea) (margin : Z) (use_full_area : bool) :
  ImagePaths.width ip <> 0 -> ImagePaths.height ip <> 0 ->
  let availW :=
    (if use_full_area then right a else cutout_left a) - left a - 2 * margin in
  let availH := bottom a - top a - 2 * margin in
  let srcW := ImagePaths.width ip in
  let srcH := ImagePaths.height ip in
  let ratioW := fdiv (of_int availW) (of_int srcW) in
  let ratioH := fdiv (of_int availH) (of_int srcH) in
  exists scale,
    let offset_x :=
      fadd (of_int (left a + margin))
           (fdiv (fsub (of_int availW) (fmul (of_int srcW) scale)) (of_int 2)) in
    let offset_y :=
      fadd (of_int (top a + margin))
           (fdiv (fsub (of_int availH) (fmul (of_int srcH) scale)) (of_int 2)) in
    (scale = ratioW \/ scale = ratioH) /\
    (strict_order A -> fltb ratioW scale = false /\ fltb ratioH scale = false) /\
    Generic.fit_parameters ip a margin true use_full_area
    = Ok (offset_x, offset_y, scale, scale) /\
    Generic.scale_paths_to_area ip a margin true use_full_area
    = Ok (containment_filter a
            (fun p => (ftrunc (fadd offset_x (fmul (of_int (fst p)) scale)),
                       ftrunc (fadd offset_y (fmul (of_int (snd p)) scale))))
            (ImagePaths.paths ip)).
Proof.
  intros Hw Hh. cbv zeta.
  set (availW := (if use_full_area then right a else cutout_left a)
                 - left a - 2 * margin).
  set (availH := bottom a - top a - 2 * margin).
  set (ratioW := fdiv (of_int availW) (of_int (ImagePaths.width ip))).
  set (ratioH := fdiv (of_int availH) (of_int (ImagePaths.height ip))).
  exists (Generic.min2 ratioW ratioH).
  assert (Hfit :
    Generic.fit_parameters ip a margin true use_full_area
    = Ok (fadd (of_int (left a + margin))
               (fdiv (fsub (of_int availW)
                           (fmul (of_int (ImagePaths.width ip))
                                 (Generic.min2 ratioW ratioH)))
                     (of_int 2)),
          fadd (of_int (top a + margin))
               (fdiv (fsub (of_int availH)
                           (fmul (of_int (ImagePaths.height ip))
                                 (Generic.min2 ratioW ratioH)))
                     (of_int 2)),
          Generic.min2 ratioW ratioH, Generic.min2 ratioW ratioH)).
  { unfold Generic.fit_parameters. subst ratioW ratioH availW availH.
    destruct use_full_area; cbn [bind];
      rewrite !generic_truediv_ok by assumption; reflexivity. }
  split; [|split; [|split; [exact Hfit|]]].
  - unfold Generic.min2. destruct (fltb ratioH ratioW); [right|left]; reflexivity.
  - intros [Hirr Htrans]. unfold Generic.min2.
    destruct (fltb ratioH ratioW) eqn:E.
    + split; [|apply Hirr].
      destruct (fltb ratioW ratioH) eqn:E2; [|reflexivity].
      rewrite <- (Hirr ratioH). symmetry. exact (Htrans _ _ _ E E2).
    + split; [apply Hirr|exact E].
  - unfold Generic.scale_paths_to_area.
    destruct (ImagePaths.paths ip) as [|p0 ps] eqn:Eps; [reflexivity|].
    rewrite Hfit. cbn [bind]. rewrite collect_loop_spec. reflexivity.
Qed.

Lemma one_shot_fit_aspect_locked_witness :
  @Generic.scale_paths_to_area exact square_image lobe_area 20 true false
  = Ok [[(20, 800); (420, 800); (420, 1200); (20, 1200); (20, 800)]] /\
  @Generic.scale_paths_to_area binary64 tall_image scenario_area 20 true false
  = Ok [[(546, 19); (546, 1980)]].
Proof.
  split.
  - destruct (@one_shot_fit_aspect_locked exact square_image lobe_area 20 false)
      as (scale & _ & _ & Hfit & E); [cbn; lia|cbn; lia|].
    remember (@Generic.fit_parameters exact square_image lobe_area 20 true false)
      as fit eqn:Hl in Hfit.
    vm_compute in Hl. subst fit. injection Hfit as _ _ Hs _.
    rewrite E. subst scale. vm_compute. reflexivity.
  - destruct (@one_shot_fit_aspect_locked binary64 tall_image scenario_area 20 false)
      as (scale & _ & _ & Hfit & E); [cbn; lia|cbn; lia|].
    remember (@Generic.fit_parameters binary64 tall_image scenario_area 20 true false)
      as fit eqn:Hl in Hfit.
    vm_compute in Hl. subst fit. injection Hfit as _ _ Hs _.
    rewrite E. subst scale. vm_compute. reflexivity.
Defined.

(** The same image in exact arithmetic: rounding moves the top point by
    one pixel. *)
Example one_shot_fit_exact_tall_image :
  @Generic.scale_paths_to_area exact tall_image scenario_area 20 true false
  = Ok [[(546, 20); (546, 1980)]].
Proof. vm_compute. reflexivity. Qed.

(** The specification's concrete scenario: the square of side 100, fitted
    with aspect lock and margin 20 into the safe lobe of the 1000 x 2000
    card, is scaled by 6.6, spans x in [20, 680] and is centered
    vertically around y = 1000; all four corners survive the filter. *)
Example scenario_square_fit :
  scale_paths_to_area square_image scenario_area 20 true false
  = Ok [[(20, 670); (680, 670); (680, 1330); (20, 1330); (20, 670)]].
Proof. reflexivity. Qed.

Lemma layer_fit_fields (a : DrawingArea) (paths : list Path) (f : LayerFit) :
  layer_fit a paths = Ok f ->
  exists min_x min_y,
    Py.min_seq (all_x paths) = Ok min_x /\
    Py.min_seq (all_y paths) = Ok min_y /\
    path_center_x f = (inject_Z min_x + inject_Z (path_w f) / 2)%Q /\
    path_center_y f = (inject_Z min_y + inject_Z (path_h f) / 2)%Q /\
    base_scale f
    = Py.min2 (inject_Z (avail_w a) / inject_Z (path_w f))
              (inject_Z (avail_h a) / inject_Z (path_h f)).
Proof.
  unfold layer_fit.
  destruct (Py.min_seq (all_x paths)) as [min_x|]; [|discriminate].
  destruct (Py.min_seq (all_y paths)) as [min_y|]; [|discriminate].
  destruct (Py.max_seq (all_x paths)) as [max_x|]; [|discriminate].
  destruct (Py.max_seq (all_y paths)) as [max_y|]; [|discriminate].
  cbn [bind]. rewrite !truediv_ok by apply or_1_nonzero. cbn [bind].
  intros H. apply Ok_inj in H. subst f. cbn.
  exists min_x, min_y. repeat split; reflexivity.
Qed.


Lemma usable_area_fixed (a : DrawingArea) :
  top_excl_right a <= left a -> top_excl_bottom a <= top a -> usable_area a = a.
Proof.
  intros Hx Hy. destruct a. unfold usable_area. cbn in *.
  rewrite (Z.max_l _ _ Hx), (Z.max_l _ _ Hy). reflexivity.
Qed.









(** The one-shot fit has no clamp: with a zero image width it raises. *)
Lemma scale_paths_to_area_zero_width_raises :
  scale_paths_to_area zero_width_image scenario_area 20 true false
  = Raise ZeroDivisionError.
Proof. reflexivity. Qed.

(** C9, as stated, fails: a zero-extent available rectangle is not clamped
    to 1.  On a card whose usable rectangle has width 0 the quotient
    availW / pathW is 0 / 100 = 0 (it would be 1 / 100 with the clamp), so
    the whole square collapses onto the single point (220, 1075). *)
Lemma available_rectangle_not_clamped_counterexample :
  avail_w zero_width_area = 0 /\
  (exists f, layer_fit zero_width_area [square100] = Ok f /\
             path_w f = 100 /\
             (base_scale f == 0)%Q /\ ~ (base_scale f == 1 # 100)%Q) /\
  @generate unused_math zero_width_area [Layer.identity [square100]]
  = Ok [[(220, 1075); (220, 1075); (220, 1075); (220, 1075); (220, 1075)]].
Proof.
  split; [reflexivity|]. split; [|reflexivity].
  eexists. split; [reflexivity|]. cbn. repeat split; discriminate.
Qed.

(** C9 (amended): the per-layer transform never divides by zero: the
    extents of the source bounding box are clamped to a minimum of 1 before
    the division (a single-point path gives 1 x 1); the available rectangle
    is only ever a numerator and is not clamped: a zero available width
    (with a non-negative available height) gives base scale 0.  The
    one-shot fit divides by the image width and height and returns a result
    whenever both are non-zero. *)
Theorem fit_no_zero_division {M : MathLib} (a : DrawingArea) :
  (forall layers, generate a layers <> Raise ZeroDivisionError) /\
  (forall paths f, layer_fit a paths = Ok f -> 1 <= path_w f /\ 1 <= path_h f) /\
  (forall p, exists f, layer_fit a [[p]] = Ok f /\ path_w f = 1 /\ path_h f = 1) /\
  (forall paths f,
      layer_fit a paths = Ok f -> avail_w a = 0 -> 0 <= avail_h a ->
      (base_scale f == 0)%Q) /\
  (forall ip margin maintain_aspect use_full_area,
      ImagePaths.width ip <> 0 -> ImagePaths.height ip <> 0 ->
      exists out,
        scale_paths_to_area ip a margin maintain_aspect use_full_area = Ok out).
Proof.
  repeat split.
  - intros layers. unfold generate.
    apply (generate_acc_no_zero_division a layers (Ok [])). discriminate.
  - now destruct (layer_fit_clamped _ _ _ H).
  - now destruct (layer_fit_clamped _ _ _ H).
  - intros [x y]. unfold layer_fit, all_x, all_y.
    cbn [concat app map fst snd Py.min_seq Py.max_seq fold_left bind].
    rewrite !Z.sub_diag. change (Py.or_ 0 1) with 1.
    rewrite !truediv_ok by discriminate. cbn [bind].
    eexists. repeat split.
  - intros paths f Hf Hw Hh.
    destruct (layer_fit_fields _ _ _ Hf) as (_ & _ & _ & _ & _ & _ & ->).
    destruct (layer_fit_clamped _ _ _ Hf) as [Hpw Hph].
    rewrite Hw. unfold Py.min2.
    assert (Hz : (inject_Z 0 / inject_Z (path_w f) == 0)%Q)
      by (unfold Qdiv; change (inject_Z 0) with 0%Q; ring).
    assert (Hle : (inject_Z 0 / inject_Z (path_w f)
                   <= inject_Z (avail_h a) / inject_Z (path_h f))%Q).
    { rewrite Hz. apply Qle_shift_div_l.
      - rewrite <- (Zlt_Qlt 0). lia.
      - rewrite Qmult_0_l. rewrite <- (Zle_Qle 0). exact Hh. }
    apply Qle_bool_iff in Hle. rewrite Hle. exact Hz.
  - intros. now apply scale_paths_to_area_total.
Qed.

Lemma fit_no_zero_division_witness :
  (exists f, layer_fit zero_width_area [square100] = Ok f /\
             1 <= path_w f /\ (base_scale f == 0)%Q) /\
  (exists out,
      scale_paths_to_area square_image zero_width_area 20 true false = Ok out).
Proof.
  destruct (@fit_no_zero_division unused_math zero_width_area)
    as (_ & Hclamp & _ & Hzero & Hshot).
  split.
  - exists (mkLayerFit 100 100 (0 + 100 / 2) (0 + 100 / 2)
              (Py.min2 (inject_Z 0 / inject_Z 100)
                       (inject_Z 1810 / inject_Z 100))).
    split; [reflexivity|]. split.
    + apply (Hclamp [square100]). reflexivity.
    + apply (Hzero [square100]); [reflexivity|reflexivity|cbn; lia].
  - apply Hshot; cbn; lia.
Defined.

(* ================================================================== *)
(** * Properties of the stable sort on positions *)

Lemma insert_by_position_perm (x : Line) (l : list Line) :
  Permutation (x :: l) (insert_by_position x l).
Proof.
  induction l as [|y t IH]; cbn; [reflexivity|].
  destruct (fst x <=? fst y); [reflexivity|].
  rewrite perm_swap. now constructor.
Qed.

Lemma sorted_by_position_perm (l : list Line) :
  Permutation l (sorted_by_position l).
Proof.
  induction l as [|x t IH]; cbn; [constructor|].
  rewrite <- insert_by_position_perm. now constructor.
Qed.

Lemma insert_by_position_ascending (x : Line) (l : list Line) :
  ascending l -> ascending (insert_by_position x l).
Proof.
  induction l as [|y t IH]; intros Hl; [exact I|].
  cbn [insert_by_position].
  destruct (fst x <=? fst y) eqn:E.
  - apply Z.leb_le in E. split; assumption.
  - apply Z.leb_gt in E.
    destruct t as [|z t'].
    + cbn. split; [lia|exact I].
    + destruct Hl as [Hyz Ht]. specialize (IH Ht).
      cbn [insert_by_position] in *.
      destruct (fst x <=? fst z); cbn [ascending] in *; (split; [lia|exact IH]).
Qed.

Lemma sorted_by_position_ascending (l : list Line) :
  ascending (sorted_by_position l).
Proof.
  induction l as [|x t IH]; [exact I|].
  now apply insert_by_position_ascending.
Qed.

Lemma Forall_insert_by_position (P : Line -> Prop) (x : Line) (l : list Line) :
  P x -> Forall P l -> Forall P (insert_by_position x l).
Proof.
  intros Hx Hl. induction Hl as [|y t Hy Ht IH]; cbn.
  - now constructor.
  - destruct (fst x <=? fst y); repeat constructor; assumption.
Qed.

Lemma Forall_sorted_by_position (P : Line -> Prop) (l : list Line) :
  Forall P l -> Forall P (sorted_by_position l).
Proof.
  induction 1 as [|x t Hx Ht IH]; cbn; [constructor|].
  now apply Forall_insert_by_position.
Qed.

Section Separation.

Variable gap : Z.

Let far (a b : Line) : Prop := gap < Z.abs (fst a - fst b).

Lemma far_sym (a b : Line) : far a b -> far b a.
Proof. unfold far. lia. Qed.

Lemma insert_by_position_far (x : Line) (l : list Line) :
  Forall (far x) l -> ForallOrdPairs far l ->
  ForallOrdPairs far (insert_by_position x l).
Proof.
  intros Hx Hl. induction Hl as [|y t Hy Ht IH]; cbn.
  - repeat constructor.
  - destruct (fst x <=? fst y).
    + constructor; [exact Hx|now constructor].
    + inversion Hx as [|? ? Hxy Hxt]; subst.
      constructor.
      * apply Forall_insert_by_position; [now apply far_sym|exact Hy].
      * now apply IH.
Qed.

Lemma sorted_by_position_far (l : list Line) :
  pairwise_farther_than gap l ->
  pairwise_farther_than gap (sorted_by_position l).
Proof.
  unfold pairwise_farther_than. fold far.
  induction 1 as [|x t Hx Ht IH]; cbn; [constructor|].
  apply insert_by_position_far; [|exact IH].
  now apply Forall_sorted_by_position.
Qed.

(** Sorted lines that are pairwise farther apart than the gap are grouped
    one by one. *)
Lemma group_from_singletons (a : Line) (t : list Line) :
  ascending (a :: t) -> pairwise_farther_than gap (a :: t) ->
  group_from gap [a] a t = map (fun x => [x]) (a :: t).
Proof.
  revert a. induction t as [|b t IH]; intros a Hasc Hfar; [reflexivity|].
  cbn [group_from].
  destruct Hasc as [Hab Hasc].
  unfold pairwise_farther_than in Hfar.
  inversion Hfar as [|? ? Ha Ht]; subst.
  inversion Ha as [|? ? Hab' _]; subst.
  replace (fst b - fst a <? gap) with false by (symmetry; apply Z.ltb_ge; lia).
  cbn [map]. f_equal. now apply IH.
Qed.

End Separation.

(* ================================================================== *)
(** * Properties of the grouping loop *)

Section Grouping.

Variable gap : Z.

Lemma cluster_step_snoc (pre : list (list Line)) (c : list Line) (p line : Line) :
  cluster_step gap (pre ++ [c ++ [p]]) line
  = if fst line - fst p <? gap
    then pre ++ [(c ++ [p]) ++ [line]]
    else (pre ++ [c ++ [p]]) ++ [[line]].
Proof.
  unfold cluster_step. now rewrite !last_last, removelast_last.
Qed.

(** The loop of the code computes the grouping of the specification. *)
Lemma fold_cluster_step (rest : list Line) :
  forall (pre : list (list Line)) (c : list Line) (p : Line),
    fold_left (cluster_step gap) rest (pre ++ [c ++ [p]])
    = pre ++ group_from gap (c ++ [p]) p rest.
Proof.
  induction rest as [|line t IH]; intros pre c p; [reflexivity|].
  cbn [fold_left group_from]. rewrite cluster_step_snoc.
  destruct (fst line - fst p <? gap).
  - apply (IH pre (c ++ [p]) line).
  - change [[line]] with [[] ++ [line]].
    rewrite (IH (pre ++ [c ++ [p]]) [] line).
    now rewrite <- app_assoc.
Qed.

Lemma group_from_concat (rest : list Line) :
  forall (cur : list Line) (prev : Line),
    concat (group_from gap cur prev rest) = cur ++ rest.
Proof.
  induction rest as [|line t IH]; intros cur prev; cbn [group_from].
  - cbn. now rewrite app_nil_r.
  - destruct (fst line - fst prev <? gap).
    + rewrite IH. now rewrite <- app_assoc.
    + cbn [concat]. now rewrite IH.
Qed.

Lemma group_from_nonempty (rest : list Line) :
  forall (cur : list Line) (prev : Line),
    cur <> [] -> Forall (fun c => c <> []) (group_from gap cur prev rest).
Proof.
  induction rest as [|line t IH]; intros cur prev Hcur; cbn [group_from].
  - now repeat constructor.
  - destruct (fst line - fst prev <? gap).
    + apply IH. now destruct cur.
    + constructor; [exact Hcur|]. apply IH. discriminate.
Qed.

Lemma chained_snoc (c : list Line) (p line : Line) :
  chained gap (c ++ [p]) -> fst line - fst p < gap ->
  chained gap ((c ++ [p]) ++ [line]).
Proof.
  intros Hc Hlt. induction c as [|a c IH]; [cbn; auto|].
  destruct c as [|b c'].
  - cbn in *. tauto.
  - cbn in Hc |- *. destruct Hc as [Hab Hc]. split; [exact Hab|].
    apply IH. exact Hc.
Qed.

Lemma group_from_chained (rest : list Line) :
  forall (c : list Line) (p : Line),
    chained gap (c ++ [p]) ->
    Forall (chained gap) (group_from gap (c ++ [p]) p rest).
Proof.
  induction rest as [|line t IH]; intros c p Hc; cbn [group_from].
  - now repeat constructor.
  - destruct (fst line - fst p <? gap) eqn:E.
    + apply (IH (c ++ [p]) line). apply chained_snoc; [exact Hc|].
      now apply Z.ltb_lt.
    + constructor; [exact Hc|]. apply (IH [] line). exact I.
Qed.

Lemma group_from_head (rest : list Line) :
  forall (cur : list Line) (prev : Line),
    exists more others, group_from gap cur prev rest = (cur ++ more) :: others.
Proof.
  induction rest as [|line t IH]; intros cur prev; cbn [group_from].
  - exists [], []. now rewrite app_nil_r.
  - destruct (fst line - fst prev <? gap).
    + destruct (IH (cur ++ [line]) line) as (more & others & ->).
      exists (line :: more), others. now rewrite <- app_assoc.
    + exists [], (group_from gap [line] line t). now rewrite app_nil_r.
Qed.

Lemma group_from_separated (rest : list Line) :
  forall (c : list Line) (p : Line),
    separated gap (group_from gap (c ++ [p]) p rest).
Proof.
  induction rest as [|line t IH]; intros c p; cbn [group_from]; [exact I|].
  destruct (fst line - fst p <? gap) eqn:E.
  - apply (IH (c ++ [p]) line).
  - pose proof (IH [] line) as Hsep.
    destruct (group_from_head t [line] line) as (more & others & Eg).
    cbn [app] in Hsep, Eg. rewrite Eg in Hsep |- *.
    cbn [separated]. split; [|exact Hsep].
    rewrite last_last. cbn [hd]. apply Z.ltb_ge in E. exact E.
Qed.

End Grouping.

Lemma Qplus_0_l_eq (q : Q) : (0 + q)%Q = q.
Proof.
  destruct q as [n d]. unfold Qplus. cbn. now rewrite Z.mul_1_r.
Qed.

Lemma reduce_cluster_singleton (x : Line) : reduce_cluster [x] = x.
Proof.
  destruct x as [p s]. unfold reduce_cluster, mean_position, total_strength.
  cbn [map fst snd fold_left length].
  rewrite Qplus_0_l_eq. f_equal.
  rewrite <- (int_inject p) at 2. apply int_proper.
  change (Z.of_nat 1) with 1. change (0 + p) with p.
  unfold Qdiv. change (/ inject_Z 1)%Q with 1%Q. apply Qmult_1_r.
Qed.

Lemma cluster_lines_grouped (lines : list Line) (min_gap : Z) :
  cluster_lines lines min_gap
  = map reduce_cluster (grouped min_gap (sorted_by_position lines)).
Proof.
  unfold cluster_lines, grouped.
  destruct lines as [|x t]; [reflexivity|].
  pose proof (sorted_by_position_perm (x :: t)) as Hperm.
  destruct (sorted_by_position (x :: t)) as [|first rest].
  { apply Permutation_sym, Permutation_nil in Hperm. discriminate. }
  cbn [hd tl]. f_equal.
  apply (fold_cluster_step min_gap rest [] [] first).
Qed.

(** ** The clustering in any arithmetic *)

Section GenericClustering.

Context {A : Arith}.

Variable gap : Z.

Lemma generic_insert_by_position_perm (x : Generic.Line) (l : list Generic.Line) :
  Permutation (x :: l) (Generic.insert_by_position x l).
Proof.
  induction l as [|y t IH]; cbn [Generic.insert_by_position]; [reflexivity|].
  destruct (fst x <=? fst y); [reflexivity|].
  etransitivity; [apply perm_swap|]. now constructor.
Qed.

Lemma generic_sorted_by_position_perm (l : list Generic.Line) :
  Permutation l (Generic.sorted_by_position l).
Proof.
  induction l as [|x t IH]; cbn; [constructor|].
  rewrite <- generic_insert_by_position_perm. now constructor.
Qed.

Lemma generic_insert_by_position_ascending (x : Generic.Line)
  (l : list Generic.Line) :
  Generic.ascending l -> Generic.ascending (Generic.insert_by_position x l).
Proof.
  induction l as [|y t IH]; intros Hl; [exact I|].
  cbn [Generic.insert_by_position].
  destruct (fst x <=? fst y) eqn:E.
  - apply Z.leb_le in E. split; assumption.
  - apply Z.leb_gt in E.
    destruct t as [|z t'].
    + cbn. split; [lia|exact I].
    + destruct Hl as [Hyz Ht]. specialize (IH Ht).
      cbn [Generic.insert_by_position] in *.
      destruct (fst x <=? fst z); cbn [Generic.ascending] in *;
        (split; [lia|exact IH]).
Qed.

Lemma generic_sorted_by_position_ascending (l : list Generic.Line) :
  Generic.ascending (Generic.sorted_by_position l).
Proof.
  induction l as [|x t IH]; [exact I|].
  now apply generic_insert_by_position_ascending.
Qed.

Lemma generic_Forall_insert_by_position (P : Generic.Line -> Prop)
  (x : Generic.Line) (l : list Generic.Line) :
  P x -> Forall P l -> Forall P (Generic.insert_by_position x l).
Proof.
  intros Hx Hl. induction Hl as [|y t Hy Ht IH]; cbn.
  - now constructor.
  - destruct (fst x <=? fst y); repeat constructor; assumption.
Qed.

Lemma generic_Forall_sorted_by_position (P : Generic.Line -> Prop)
  (l : list Generic.Line) :
  Forall P l -> Forall P (Generic.sorted_by_position l).
Proof.
  induction 1 as [|x t Hx Ht IH]; cbn; [constructor|].
  now apply generic_Forall_insert_by_position.
Qed.

Let far (a b : Generic.Line) : Prop := gap < Z.abs (fst a - fst b).

Lemma generic_insert_by_position_far (x : Generic.Line) (l : list Generic.Line) :
  Forall (far x) l -> ForallOrdPairs far l ->
  ForallOrdPairs far (Generic.insert_by_position x l).
Proof.
  intros Hx Hl. induction Hl as [|y t Hy Ht IH]; cbn.
  - repeat constructor.
  - destruct (fst x <=? fst y).
    + constructor; [exact Hx|now constructor].
    + inversion Hx as [|? ? Hxy Hxt]; subst.
      constructor.
      * apply generic_Forall_insert_by_position;
          [unfold far in *; lia|exact Hy].
      * now apply IH.
Qed.

Lemma generic_sorted_by_position_far (l : list Generic.Line) :
  Generic.pairwise_farther_than gap l ->
  Generic.pairwise_farther_than gap (Generic.sorted_by_position l).
Proof.
  unfold Generic.pairwise_farther_than. fold far.
  induction 1 as [|x t Hx Ht IH]; cbn; [constructor|].
  apply generic_insert_by_position_far; [|exact IH].
  now apply generic_Forall_sorted_by_position.
Qed.

Lemma generic_group_from_singletons (a : Generic.Line) (t : list Generic.Line) :
  Generic.ascending (a :: t) -> Generic.pairwise_farther_than gap (a :: t) ->
  Generic.group_from gap [a] a t = map (fun x => [x]) (a :: t).
Proof.
  revert a. induction t as [|b t IH]; intros a Hasc Hfar; [reflexivity|].
  cbn [Generic.group_from].
  destruct Hasc as [Hab Hasc].
  unfold Generic.pairwise_farther_than in Hfar.
  inversion Hfar as [|? ? Ha Ht]; subst.
  inversion Ha as [|? ? Hab' _]; subst.
  replace (fst b - fst a <? gap) with false by (symmetry; apply Z.ltb_ge; lia).
  cbn [map]. f_equal. now apply IH.
Qed.

Lemma generic_cluster_step_snoc (pre : list (list Generic.Line))
  (c : list Generic.Line) (p line : Generic.Line) :
  Generic.cluster_step gap (pre ++ [c ++ [p]]) line
  = if fst line - fst p <? gap
    then pre ++ [(c ++ [p]) ++ [line]]
    else (pre ++ [c ++ [p]]) ++ [[line]].
Proof.
  unfold Generic.cluster_step. now rewrite !last_last, removelast_last.
Qed.

(** The loop of the code computes the grouping. *)
Lemma generic_fold_cluster_step (rest : list Generic.Line) :
  forall (pre : list (list Generic.Line)) (c : list Generic.Line)
         (p : Generic.Line),
    fold_left (Generic.cluster_step gap) rest (pre ++ [c ++ [p]])
    = pre ++ Generic.group_from gap (c ++ [p]) p rest.
Proof.
  induction rest as [|line t IH]; intros pre c p; [reflexivity|].
  cbn [fold_left Generic.group_from]. rewrite generic_cluster_step_snoc.
  destruct (fst line - fst p <? gap).
  - apply (IH pre (c ++ [p]) line).
  - change [[line]] with [[] ++ [line]].
    rewrite (IH (pre ++ [c ++ [p]]) [] line).
    now rewrite <- app_assoc.
Qed.

Lemma generic_group_from_concat (rest : list Generic.Line) :
  forall (cur : list Generic.Line) (prev : Generic.Line),
    concat (Generic.group_from gap cur prev rest) = cur ++ rest.
Proof.
  induction rest as [|line t IH]; intros cur prev; cbn [Generic.group_from].
  - cbn. now rewrite app_nil_r.
  - destruct (fst line - fst prev <? gap).
    + rewrite IH. now rewrite <- app_assoc.
    + cbn [concat]. now rewrite IH.
Qed.

Lemma generic_group_from_nonempty (rest : list Generic.Line) :
  forall (cur : list Generic.Line) (prev : Generic.Line),
    cur <> [] ->
    Forall (fun c => c <> []) (Generic.group_from gap cur prev rest).
Proof.
  induction rest as [|line t IH]; intros cur prev Hcur;
    cbn [Generic.group_from].
  - now repeat constructor.
  - destruct (fst line - fst prev <? gap).
    + apply IH. now destruct cur.
    + constructor; [exact Hcur|]. apply IH. discriminate.
Qed.

Lemma generic_chained_snoc (c : list Generic.Line) (p line : Generic.Line) :
  Generic.chained gap (c ++ [p]) -> fst line - fst p < gap ->
  Generic.chained gap ((c ++ [p]) ++ [line]).
Proof.
  intros Hc Hlt. induction c as [|a c IH]; [cbn; auto|].
  destruct c as [|b c'].
  - cbn in *. tauto.
  - cbn in Hc |- *. destruct Hc as [Hab Hc]. split; [exact Hab|].
    apply IH. exact Hc.
Qed.

Lemma generic_group_from_chained (rest : list Generic.Line) :
  forall (c : list Generic.Line) (p : Generic.Line),
    Generic.chained gap (c ++ [p]) ->
    Forall (Generic.chained gap) (Generic.group_from gap (c ++ [p]) p rest).
Proof.
  induction rest as [|line t IH]; intros c p Hc; cbn [Generic.group_from].
  - now repeat constructor.
  - destruct (fst line - fst p <? gap) eqn:E.
    + apply (IH (c ++ [p]) line). apply generic_chained_snoc; [exact Hc|].
      now apply Z.ltb_lt.
    + constructor; [exact Hc|]. apply (IH [] line). exact I.
Qed.

Lemma generic_group_from_head (rest : list Generic.Line) :
  forall (cur : list Generic.Line) (prev : Generic.Line),
    exists more others,
      Generic.group_from gap cur prev rest = (cur ++ more) :: others.
Proof.
  induction rest as [|line t IH]; intros cur prev; cbn [Generic.group_from].
  - exists [], []. now rewrite app_nil_r.
  - destruct (fst line - fst prev <? gap).
    + destruct (IH (cur ++ [line]) line) as (more & others & ->).
      exists (line :: more), others. now rewrite <- app_assoc.
    + exists [], (Generic.group_from gap [line] line t). now rewrite app_nil_r.
Qed.

Lemma generic_group_from_separated (rest : list Generic.Line) :
  forall (c : list Generic.Line) (p : Generic.Line),
    Generic.separated gap (Generic.group_from gap (c ++ [p]) p rest).
Proof.
  induction rest as [|line t IH]; intros c p; cbn [Generic.group_from];
    [exact I|].
  destruct (fst line - fst p <? gap) eqn:E.
  - apply (IH (c ++ [p]) line).
  - pose proof (IH [] line) as Hsep.
    destruct (generic_group_from_head t [line] line) as (more & others & Eg).
    cbn [app] in Hsep, Eg. rewrite Eg in Hsep |- *.
    cbn [Generic.separated]. split; [|exact Hsep].
    rewrite last_last. cbn [hd]. apply Z.ltb_ge in E. exact E.
Qed.

Lemma generic_cluster_lines_grouped (lines : list Generic.Line) :
  Generic.cluster_lines lines gap
  = map Generic.reduce_cluster
        (Generic.grouped gap (Generic.sorted_by_position lines)).
Proof.
  unfold Generic.cluster_lines, Generic.grouped.
  destruct lines as [|x t]; [reflexivity|].
  pose proof (generic_sorted_by_position_perm (x :: t)) as Hperm.
  destruct (Generic.sorted_by_position (x :: t)) as [|first rest].
  { apply Permutation_sym, Permutation_nil in Hperm. discriminate. }
  cbn [hd tl]. f_equal.
  apply (generic_fold_cluster_step rest [] [] first).
Qed.

(** The sum of the positions does not depend on the side it is taken
    from. *)
Lemma fold_left_add_positions (l : list Z) (acc : Z) :
  fold_left Z.add l acc = acc + fold_right Z.add 0 l.
Proof.
  revert acc. induction l as [|x t IH]; intros acc; cbn; [lia|].
  rewrite IH. lia.
Qed.

Lemma generic_reduce_cluster_eq (c : list Generic.Line) :
  Generic.reduce_cluster c
  = (ftrunc (fdiv (of_int (fold_right Z.add 0 (map fst c)))
                  (of_int (Z.of_nat (length c)))),
     fold_left fadd (map snd c) (of_int 0)).
Proof.
  unfold Generic.reduce_cluster, Generic.mean_position, Generic.total_strength.
  now rewrite fold_left_add_positions.
Qed.

Lemma generic_reduce_cluster_singleton (x : Generic.Line) :
  Generic.unchanged_alone x -> Generic.reduce_cluster [x] = x.
Proof.
  destruct x as [p s]. intros [Hp Hs]. cbn [fst snd] in Hp, Hs.
  unfold Generic.reduce_cluster, Generic.mean_position, Generic.total_strength.
  cbn [map fst snd fold_left length].
  change (Z.of_nat 1) with 1. change (0 + p) with p.
  now rewrite Hp, Hs.
Qed.

End GenericClustering.

(** In exact arithmetic the reduced position is the quotient of the sum of
    the positions by their number, rounded toward zero, and every line is
    given back by a cluster of its own. *)
Lemma exact_truncated_mean (sum n : Z) :
  0 < n ->
  @ftrunc exact (fdiv (of_int sum) (of_int n)) = Z.quot sum n.
Proof.
  intros Hn. cbn [ftrunc fdiv of_int exact].
  unfold Py.int, Qdiv, Qmult, Qinv, inject_Z.
  destruct n as [|n|n]; try lia. cbn [Qnum Qden].
  rewrite Z.mul_1_r. change (1 * n)%positive with n.
  destruct (Qle_bool 0 (sum # n)) eqn:E.
  - apply Qle_bool_iff in E. unfold Qle in E. cbn in E.
    unfold Qfloor. symmetry. apply Z.quot_div_nonneg; lia.
  - assert (Hneg : sum < 0).
    { destruct (Z_lt_le_dec sum 0) as [L|L]; [exact L|].
      assert (H : Qle_bool 0 (sum # n) = true)
        by (apply Qle_bool_iff; unfold Qle; cbn; lia).
      congruence. }
    unfold Qceiling, Qfloor, Qopp. cbn [Qnum Qden].
    rewrite <- (Z.opp_involutive sum) at 2.
    rewrite Z.quot_opp_l by lia. f_equal.
    symmetry. apply Z.quot_div_nonneg; lia.
Qed.

Lemma exact_unchanged_alone (l : @Generic.Line exact) : Generic.unchanged_alone l.
Proof.
  destruct l as [p s]. split; cbn [fst snd].
  - rewrite exact_truncated_mean by lia. apply Z.quot_1_r.
  - apply Qplus_0_l_eq.
Qed.

(** The clustering in exact arithmetic is the clustering over the
    rationals. *)
Lemma generic_sorted_by_position_exact (lines : list Line) :
  @Generic.sorted_by_position exact lines = sorted_by_position lines.
Proof.
  induction lines as [|x t IH]; [reflexivity|].
  cbn [Generic.sorted_by_position sorted_by_position fold_right].
  fold (@Generic.sorted_by_position exact t). fold (sorted_by_position t).
  rewrite IH. generalize (sorted_by_position t) as l.
  induction l as [|y l IHl]; [reflexivity|].
  cbn [Generic.insert_by_position insert_by_position].
  now rewrite IHl.
Qed.

Lemma generic_cluster_lines_exact (lines : list Line) (min_gap : Z) :
  @Generic.cluster_lines exact lines min_gap = cluster_lines lines min_gap.
Proof.
  unfold Generic.cluster_lines, cluster_lines.
  destruct lines as [|x t]; [reflexivity|].
  now rewrite generic_sorted_by_position_exact.
Qed.

(** C8: in whatever arithmetic the strengths are added, for every list
    of (position, strength) lines whose positions are pairwise farther
    apart than the gap threshold, [cluster_lines] returns one cluster per
    input line with unchanged position and preserved strength (the input
    lines themselves, in ascending order of position), provided a position
    survives the conversion to float and back and a strength survives the
    addition to 0.  In general it sorts the lines by ascending position,
    puts a line into the current cluster iff its position is less than the
    gap threshold away from the cluster's last member (a line exactly the
    threshold away starts a new cluster), and reduces each cluster to the
    sum of its positions divided by their number, cut to an integer, and
    the strengths added up from 0 in the order of the cluster. *)
Theorem cluster_lines_spec {A : Arith} (lines : list Generic.Line) (min_gap : Z) :
  (Generic.pairwise_farther_than min_gap lines ->
   Forall Generic.unchanged_alone lines ->
   Generic.cluster_lines lines min_gap = Generic.sorted_by_position lines /\
   Permutation lines (Generic.cluster_lines lines min_gap)) /\
  (exists clusters : list (list Generic.Line),
      concat clusters = Generic.sorted_by_position lines /\
      Permutation lines (concat clusters) /\
      Generic.ascending (concat clusters) /\
      Forall (fun c => c <> []) clusters /\
      Forall (Generic.chained min_gap) clusters /\
      Generic.separated min_gap clusters /\
      Generic.cluster_lines lines min_gap
      = map (fun c =>
               (ftrunc (fdiv (of_int (fold_right Z.add 0 (map fst c)))
                             (of_int (Z.of_nat (length c)))),
                fold_left fadd (map snd c) (of_int 0)))
            clusters).
Proof.
  split.
  - intros Hfar Hkept.
    assert (E : Generic.cluster_lines lines min_gap
                = Generic.sorted_by_position lines).
    { rewrite generic_cluster_lines_grouped. unfold Generic.grouped.
      pose proof (generic_sorted_by_position_ascending lines) as Hasc.
      pose proof (generic_sorted_by_position_far min_gap lines Hfar) as Hsf.
      pose proof (generic_Forall_sorted_by_position _ lines Hkept) as Hk.
      destruct (Generic.sorted_by_position lines) as [|a t]; [reflexivity|].
      rewrite (generic_group_from_singletons min_gap a t Hasc Hsf).
      rewrite map_map. rewrite <- (map_id (a :: t)) at 2.
      apply map_ext_in. intros x Hx.
      apply generic_reduce_cluster_singleton.
      rewrite Forall_forall in Hk. now apply Hk. }
    split; [exact E|]. rewrite E. apply generic_sorted_by_position_perm.
  - exists (Generic.grouped min_gap (Generic.sorted_by_position lines)).
    assert (Hcat : concat (Generic.grouped min_gap
                             (Generic.sorted_by_position lines))
                   = Generic.sorted_by_position lines).
    { unfold Generic.grouped.
      destruct (Generic.sorted_by_position lines) as [|a t];
        [reflexivity|]. exact (generic_group_from_concat min_gap t [a] a). }
    split; [exact Hcat|]. rewrite Hcat.
    split; [apply generic_sorted_by_position_perm|].
    split; [apply generic_sorted_by_position_ascending|].
    rewrite generic_cluster_lines_grouped.
    rewrite (map_ext _ _ generic_reduce_cluster_eq).
    unfold Generic.grouped.
    destruct (Generic.sorted_by_position lines) as [|a t] eqn:Es.
    + repeat split; constructor.
    + split; [apply generic_group_from_nonempty; discriminate|].
      split; [apply (generic_group_from_chained min_gap t [] a); exact I|].
      split; [apply (generic_group_from_separated min_gap t [] a)|].
      reflexivity.
Qed.

Lemma cluster_lines_spec_witness :
  @Generic.pairwise_farther_than binary64 30 far_apart_lines_binary64 /\
  @Generic.cluster_lines binary64 far_apart_lines_binary64 30
  = [(100, Float64.of_Q (5 # 2)); (200, Float64.of_Z 7); (300, Float64.of_Z 12)].
Proof.
  assert (Hfar : @Generic.pairwise_farther_than binary64 30
                   far_apart_lines_binary64).
  { unfold Generic.pairwise_farther_than, far_apart_lines_binary64.
    repeat constructor; cbn; lia. }
  assert (Hkept : Forall (@Generic.unchanged_alone binary64)
                    far_apart_lines_binary64).
  { repeat constructor; vm_compute; reflexivity. }
  split; [exact Hfar|].
  destruct (@cluster_lines_spec binary64 far_apart_lines_binary64 30)
    as [Hone _].
  destruct (Hone Hfar Hkept) as [E _]. rewrite E.
  vm_compute. reflexivity.
Defined.

(** Four detections in double precision: those at 100, 120 and 130 merge
    at the truncated mean 116 with strength 0.1 + 0.2 + 0.3, which is the
    double above 0.6. *)
Example cluster_lines_merges_binary64 :
  @Generic.cluster_lines binary64 dotted_lines_binary64 30
  = [(116, PrimFloat.add (PrimFloat.add (Float64.of_Q (1 # 10))
                                        (Float64.of_Q (2 # 10)))
                         (Float64.of_Q (3 # 10)));
     (200, Float64.of_Q (7 # 10))] /\
  PrimFloat.ltb (Float64.of_Q (6 # 10))
                (PrimFloat.add (PrimFloat.add (Float64.of_Q (1 # 10))
                                              (Float64.of_Q (2 # 10)))
                               (Float64.of_Q (3 # 10))) = true.
Proof. split; vm_compute; reflexivity. Qed.

(** Two detections within the gap merge into one cluster at the truncated
    mean position with the summed strength. *)
Example cluster_lines_merges :
  cluster_lines dotted_lines 40 = [(110, (8 # 1)%Q); (200, (7 # 1)%Q)].
Proof. reflexivity. Qed.

(* ================================================================== *)
(** * Properties of the slot assignment *)

Lemma max_by_strength_from_spec (rest : list Line) :
  forall best,
    In (max_by_strength_from best rest) (best :: rest) /\
    forall c, In c (best :: rest) ->
              (snd c <= snd (max_by_strength_from best rest))%Q.
Proof.
  induction rest as [|x t IH]; intros best; cbn [max_by_strength_from].
  - split; [now left|]. intros c [<-|[]]. apply Qle_refl.
  - destruct (IH (if Qle_bool (snd x) (snd best) then best else x)) as [Hin Hmax].
    destruct (Qle_bool (snd x) (snd best)) eqn:E.
    + apply Qle_bool_iff in E. split.
      * destruct Hin as [<-|Hin]; [now left|right; now right].
      * intros c [<-|[<-|Hc]].
        -- apply Hmax. now left.
        -- eapply Qle_trans; [exact E|]. apply Hmax. now left.
        -- apply Hmax. now right.
    + assert (Hlt : (snd best <= snd x)%Q).
      { destruct (Qlt_le_dec (snd best) (snd x)) as [L|L].
        - now apply Qlt_le_weak.
        - apply Qle_bool_iff in L. congruence. }
      split.
      * destruct Hin as [<-|Hin]; [right; now left|right; now right].
      * intros c [<-|[<-|Hc]].
        -- eapply Qle_trans; [exact Hlt|]. apply Hmax. now left.
        -- apply Hmax. now left.
        -- apply Hmax. now right.
Qed.

(** [find_boundary_line] never raises: [max] is only called on a non-empty
    candidate list. *)
Lemma find_boundary_line_ok (clusters : list Line) (region_start region_end : Q)
  (card_dim : Z) :
  exists found,
    find_boundary_line clusters region_start region_end card_dim = Ok found /\
    strongest_in_band clusters region_start region_end card_dim found.
Proof.
  unfold find_boundary_line.
  destruct (band_candidates clusters region_start region_end card_dim)
    as [|x t] eqn:Ec.
  - exists None. split; [reflexivity|]. intros c Hc.
    destruct (in_band region_start region_end card_dim (fst c)) eqn:Eb;
      [|reflexivity].
    assert (Hin : In c (band_candidates clusters region_start region_end card_dim))
      by (apply filter_In; split; assumption).
    rewrite Ec in Hin. destruct Hin.
  - cbn [max_by_strength bind].
    exists (Some (fst (max_by_strength_from x t))). split; [reflexivity|].
    destruct (max_by_strength_from_spec t x) as [Hin Hmax].
    rewrite <- Ec in Hin, Hmax.
    exists (max_by_strength_from x t).
    apply filter_In in Hin. destruct Hin as [Hin Hband].
    repeat split; try assumption.
    intros c Hc Hb. apply Hmax. apply filter_In. split; assumption.
Qed.

Lemma in_band_iff (s : Slot) (card_dim : Z) (c : Line) :
  in_band (fst (slot_band s)) (snd (slot_band s)) card_dim (fst c) = true
  <-> in_slot_band s card_dim c.
Proof.
  unfold in_band, in_slot_band. rewrite andb_true_iff, !Qle_bool_iff. tauto.
Qed.

(** ** The slot assignment in any arithmetic *)

Section GenericSlots.

Context {A : Arith}.

(** The loop of [max]: the result is one of the candidates, and no
    candidate is greater. *)
Lemma generic_max_by_strength_from_spec (rest : list Generic.Line) :
  forall best,
    ordered_strengths (best :: rest) ->
    In (Generic.max_by_strength_from best rest) (best :: rest) /\
    forall c, In c (best :: rest) ->
              fltb (snd (Generic.max_by_strength_from best rest)) (snd c) = false.
Proof.
  induction rest as [|x t IH]; intros best Hord;
    cbn [Generic.max_by_strength_from].
  - split; [now left|]. intros c [<-|[]].
    assert (Hb : In best [best]) by now left.
    exact (proj1 (Hord best best best Hb Hb Hb)).
  - set (b' := if fltb (snd best) (snd x) then x else best).
    assert (Hb' : In b' (best :: x :: t))
      by (subst b'; destruct (fltb _ _); [right; now left|now left]).
    assert (Hsub : forall c, In c (b' :: t) -> In c (best :: x :: t)).
    { intros c [<-|Hc]; [exact Hb'|right; now right]. }
    assert (Hord' : ordered_strengths (b' :: t)).
    { intros u v w Hu Hv Hw. apply Hord; now apply Hsub. }
    destruct (IH b' Hord') as [Hin Hmax].
    set (r := Generic.max_by_strength_from b' t) in *.
    assert (Hr : In r (best :: x :: t)) by (now apply Hsub).
    assert (Hbest : In best (best :: x :: t)) by now left.
    assert (Hx : In x (best :: x :: t)) by (right; now left).
    split; [exact Hr|].
    assert (Hrb' : fltb (snd r) (snd b') = false) by (apply Hmax; now left).
    intros c [<-|[<-|Hc]]; [| |apply Hmax; now right].
    + subst b'. destruct (fltb (snd best) (snd x)) eqn:E; [|exact Hrb'].
      destruct (fltb (snd r) (snd best)) eqn:E2; [|reflexivity].
      destruct (Hord r best x Hr Hbest Hx) as (_ & Htr & _).
      rewrite (Htr E2 E) in Hrb'. discriminate.
    + subst b'. destruct (fltb (snd best) (snd x)) eqn:E; [exact Hrb'|].
      destruct (Hord r best x Hr Hbest Hx) as (_ & _ & Hneg).
      exact (Hneg Hrb' E).
Qed.

(** What [find_boundary_line] found: the position of an in-band cluster
    that no in-band cluster beats, or nothing when no cluster is in band.
    It never raises: [max] is only called on a non-empty list. *)
Lemma generic_find_boundary_line_ok (clusters : list Generic.Line)
  (region_start region_end : num) (card_dim : Z) :
  exists found,
    Generic.find_boundary_line clusters region_start region_end card_dim
    = Ok found /\
    (ordered_strengths clusters ->
     match found with
     | Some v =>
         exists best,
           In best clusters /\
           Generic.in_band region_start region_end card_dim (fst best) = true /\
           v = fst best /\
           forall c, In c clusters ->
                     Generic.in_band region_start region_end card_dim (fst c) = true ->
                     fltb (snd best) (snd c) = false
     | None =>
         forall c, In c clusters ->
                   Generic.in_band region_start region_end card_dim (fst c) = false
     end).
Proof.
  unfold Generic.find_boundary_line.
  destruct (Generic.band_candidates clusters region_start region_end card_dim)
    as [|x t] eqn:Ec.
  - exists None. split; [reflexivity|]. intros _ c Hc.
    destruct (Generic.in_band region_start region_end card_dim (fst c)) eqn:Eb;
      [|reflexivity].
    assert (Hin : In c (Generic.band_candidates clusters region_start region_end
                                                card_dim))
      by (apply filter_In; split; assumption).
    rewrite Ec in Hin. destruct Hin.
  - cbn [Generic.max_by_strength bind].
    exists (Some (fst (Generic.max_by_strength_from x t))).
    split; [reflexivity|]. intros Hord.
    assert (Hsub : forall c, In c (x :: t) ->
                             In c clusters /\
                             Generic.in_band region_start region_end card_dim (fst c)
                             = true).
    { intros c Hc. rewrite <- Ec in Hc. now apply filter_In in Hc. }
    assert (Hord' : ordered_strengths (x :: t)).
    { intros u v w Hu Hv Hw. apply Hord; now apply Hsub. }
    destruct (generic_max_by_strength_from_spec t x Hord') as [Hin Hmax].
    exists (Generic.max_by_strength_from x t).
    destruct (Hsub _ Hin) as [Hin' Hband].
    split; [exact Hin'|]. split; [exact Hband|]. split; [reflexivity|].
    intros c Hc Hb. apply Hmax. rewrite <- Ec. apply filter_In. now split.
Qed.

Lemma ordered_strengths_perm (l l' : list Generic.Line) :
  Permutation l l' -> ordered_strengths l -> ordered_strengths l'.
Proof.
  intros Hp Hord u v w Hu Hv Hw.
  apply Hord; eapply Permutation_in; try (apply Permutation_sym; exact Hp);
    assumption.
Qed.

(** One slot, read through the tables: an in-band cluster of the unsorted
    list that no in-band cluster beats, or the estimate. *)
Lemma generic_slot_of_found (s : Slot) (clusters : list Generic.Line)
  (card_dim : Z) (found : option Z) :
  Generic.find_boundary_line (Generic.sorted_by_position clusters)
    (literal (fst (slot_band s))) (literal (snd (slot_band s))) card_dim
  = Ok found ->
  ordered_strengths clusters ->
  (exists best,
      In best clusters /\ Generic.in_slot_band s card_dim best /\
      Generic.or_estimate found card_dim (literal (slot_estimate s)) = fst best /\
      forall c, In c clusters -> Generic.in_slot_band s card_dim c ->
                fltb (snd best) (snd c) = false) \/
  ((forall c, In c clusters -> ~ Generic.in_slot_band s card_dim c) /\
   Generic.or_estimate found card_dim (literal (slot_estimate s))
   = ftrunc (fmul (of_int card_dim) (literal (slot_estimate s)))).
Proof.
  intros Hfound Hord.
  pose proof (generic_sorted_by_position_perm clusters) as Hperm.
  destruct (generic_find_boundary_line_ok (Generic.sorted_by_position clusters)
              (literal (fst (slot_band s))) (literal (snd (slot_band s))) card_dim)
    as (found' & E & Hspec).
  rewrite E in Hfound. apply Ok_inj in Hfound. subst found'.
  specialize (Hspec (ordered_strengths_perm _ _ Hperm Hord)).
  unfold Generic.in_slot_band.
  destruct found as [v|]; cbn [Generic.or_estimate].
  - destruct Hspec as (best & Hin & Hband & -> & Hmax). left. exists best.
    split; [eapply Permutation_in; [apply Permutation_sym; exact Hperm|exact Hin]|].
    split; [exact Hband|]. split; [reflexivity|].
    intros c Hc Hb. apply Hmax; [|exact Hb].
    eapply Permutation_in; [exact Hperm|exact Hc].
  - right. split; [|reflexivity].
    intros c Hc Hb. rewrite (Hspec c) in Hb; [discriminate|].
    eapply Permutation_in; [exact Hperm|exact Hc].
Qed.

Lemma generic_assign_slots_total (h_clusters v_clusters : list Generic.Line)
  (card_x card_y card_w card_h : Z) :
  exists area,
    Generic.assign_slots h_clusters v_clusters card_x card_y card_w card_h
    = Ok area.
Proof.
  unfold Generic.assign_slots.
  repeat match goal with
         | |- context [Generic.find_boundary_line ?cs ?rs ?re ?d] =>
             let o := fresh "o" in
             destruct (generic_find_boundary_line_ok cs rs re d) as (o & -> & _);
             cbn [bind]
         end.
  eexists. reflexivity.
Qed.

End GenericSlots.

(** C6: in whatever arithmetic the bands are computed, the slot
    assignment never raises and always returns all eight coordinates.
    When the strengths are comparable, each coordinate is, relative to the
    card's origin, the position of a cluster in the slot's fractional band
    (as the program tests it) that no cluster in the band exceeds in
    summed strength, or, when no cluster lies in the band, [int] of the
    card dimension times the slot's fixed fraction. *)
Theorem assign_slots_spec {A : Arith} (h_clusters v_clusters : list Generic.Line)
  (card_x card_y card_w card_h : Z) :
  exists area,
    Generic.assign_slots h_clusters v_clusters card_x card_y card_w card_h
    = Ok area /\
    (ordered_strengths h_clusters -> ordered_strengths v_clusters ->
     forall s : Slot,
       let clusters := Generic.slot_clusters s h_clusters v_clusters in
       let card_dim := slot_dim s card_w card_h in
       (exists best,
           In best clusters /\ Generic.in_slot_band s card_dim best /\
           slot_value area card_x card_y s = fst best /\
           forall c, In c clusters -> Generic.in_slot_band s card_dim c ->
                     fltb (snd best) (snd c) = false) \/
       ((forall c, In c clusters -> ~ Generic.in_slot_band s card_dim c) /\
        slot_value area card_x card_y s
        = ftrunc (fmul (of_int card_dim) (literal (slot_estimate s))))).
Proof.
  unfold Generic.assign_slots.
  destruct (generic_find_boundary_line_ok (Generic.sorted_by_position h_clusters)
              (literal 0) (literal (15 # 100)) card_h) as (o1 & E1 & _).
  destruct (generic_find_boundary_line_ok (Generic.sorted_by_position h_clusters)
              (literal (80 # 100)) (literal 1) card_h) as (o2 & E2 & _).
  destruct (generic_find_boundary_line_ok (Generic.sorted_by_position v_clusters)
              (literal 0) (literal (15 # 100)) card_w) as (o3 & E3 & _).
  destruct (generic_find_boundary_line_ok (Generic.sorted_by_position v_clusters)
              (literal (85 # 100)) (literal 1) card_w) as (o4 & E4 & _).
  destruct (generic_find_boundary_line_ok (Generic.sorted_by_position h_clusters)
              (literal (10 # 100)) (literal (25 # 100)) card_h) as (o5 & E5 & _).
  destruct (generic_find_boundary_line_ok (Generic.sorted_by_position v_clusters)
              (literal (12 # 100)) (literal (30 # 100)) card_w) as (o6 & E6 & _).
  destruct (generic_find_boundary_line_ok (Generic.sorted_by_position h_clusters)
              (literal (45 # 100)) (literal (70 # 100)) card_h) as (o7 & E7 & _).
  destruct (generic_find_boundary_line_ok (Generic.sorted_by_position v_clusters)
              (literal (50 # 100)) (literal (75 # 100)) card_w) as (o8 & E8 & _).
  rewrite E1, E2, E3, E4, E5, E6, E7, E8.
  cbn [bind]. eexists. split; [reflexivity|].
  intros Hh Hv s.
  destruct s; cbv zeta;
    cbn [slot_value Generic.slot_clusters slot_dim slot_horizontal
         top left right bottom cutout_left cutout_top
         top_excl_right top_excl_bottom];
    rewrite Z.add_simpl_l.
  - exact (generic_slot_of_found SlotTop h_clusters card_h o1 E1 Hh).
  - exact (generic_slot_of_found SlotBottom h_clusters card_h o2 E2 Hh).
  - exact (generic_slot_of_found SlotLeft v_clusters card_w o3 E3 Hv).
  - exact (generic_slot_of_found SlotRight v_clusters card_w o4 E4 Hv).
  - exact (generic_slot_of_found SlotTopExclBottom h_clusters card_h o5 E5 Hh).
  - exact (generic_slot_of_found SlotTopExclRight v_clusters card_w o6 E6 Hv).
  - exact (generic_slot_of_found SlotVisaTop h_clusters card_h o7 E7 Hh).
  - exact (generic_slot_of_found SlotVisaLeft v_clusters card_w o8 E8 Hv).
Qed.

(** From the detected lines on, [detect_boundary] returns an area. *)
Lemma detect_boundary_total (h_lines v_lines : list Line)
  (card_x card_y card_w card_h : Z) :
  exists area,
    detect_boundary h_lines v_lines card_x card_y card_w card_h = Ok area.
Proof.
  unfold detect_boundary, assign_slots.
  repeat match goal with
         | |- context [find_boundary_line ?cs ?rs ?re ?d] =>
             let o := fresh "o" in
             destruct (find_boundary_line_ok cs rs re d) as (o & -> & _);
             cbn [bind]
         end.
  eexists. reflexivity.
Qed.

Lemma ordered_sample_binary64 : ordered_strengths sample_h_clusters_binary64.
Proof.
  intros a b c Ha Hb Hc.
  unfold sample_h_clusters_binary64 in Ha, Hb, Hc. cbn [In] in Ha, Hb, Hc.
  destruct Ha as [<-|[<-|[<-|[]]]];
    destruct Hb as [<-|[<-|[<-|[]]]];
    destruct Hc as [<-|[<-|[<-|[]]]];
    vm_compute; (split; [|split]); intros; congruence.
Qed.

Lemma assign_slots_spec_witness :
  @Generic.assign_slots binary64 sample_h_clusters_binary64 [] 0 0 600 1000
  = Ok {| top := 50; left := 42; right := 564; bottom := 900;
          cutout_left := 360; cutout_top := 580;
          top_excl_right := 108; top_excl_bottom := 180 |} /\
  exists best,
    In best sample_h_clusters_binary64 /\
    Generic.in_slot_band SlotTop 1000 best /\ fst best = 50.
Proof.
  destruct (@assign_slots_spec binary64 sample_h_clusters_binary64 [] 0 0 600 1000)
    as (area & Harea & Hslots).
  assert (E : area = {| top := 50; left := 42; right := 564; bottom := 900;
                        cutout_left := 360; cutout_top := 580;
                        top_excl_right := 108; top_excl_bottom := 180 |}).
  { vm_compute in Harea. apply Ok_inj in Harea. now symmetry. }
  split; [rewrite Harea, E; reflexivity|].
  assert (Hv : @ordered_strengths binary64 []) by (intros a b c []).
  destruct (Hslots ordered_sample_binary64 Hv SlotTop)
    as [(best & Hin & Hband & Hval & _)|[Hnone _]].
  - exists best. split; [exact Hin|]. split; [exact Hband|].
    rewrite <- Hval, E. reflexivity.
  - exfalso. apply (Hnone (50, Float64.of_Z 100)).
    + right. now left.
    + vm_compute. reflexivity.
Defined.

(** The strongest line wins over the line nearest the edge, and empty
    bands fall back on the estimates; a line exactly on a band's edge can
    be lost to rounding: 0.70 * 1400 is below 980 in double precision, so
    the cutout's top falls back on the estimate 812. *)
Example assign_slots_band_edge :
  @Generic.assign_slots exact edge_cluster_exact [] 0 0 800 1400
  = Ok {| top := 70; left := 56; right := 752; bottom := 1288;
          cutout_left := 480; cutout_top := 980;
          top_excl_right := 144; top_excl_bottom := 252 |} /\
  @Generic.assign_slots binary64 edge_cluster_binary64 [] 0 0 800 1400
  = Ok {| top := 70; left := 56; right := 752; bottom := 1288;
          cutout_left := 480; cutout_top := 812;
          top_excl_right := 144; top_excl_bottom := 252 |}.
Proof. split; vm_compute; reflexivity. Qed.

(* ================================================================== *)
(** * Properties of erase and undo *)

Module EditorFacts.
Import Editor EditorSpec.

Lemma point_eqb_eq (p q : Point) : point_eqb p q = true <-> p = q.
Proof.
  destruct p as [a b], q as [c d]. unfold point_eqb. cbn [fst snd].
  rewrite andb_true_iff, !Z.eqb_eq. split.
  - now intros [-> ->].
  - now intros [= -> ->].
Qed.

Lemma path_eqb_eq (p q : Path) : path_eqb p q = true <-> p = q.
Proof.
  revert q. induction p as [|a p IH]; intros [|b q]; cbn;
    try (split; [discriminate|discriminate]); [tauto|].
  rewrite andb_true_iff, point_eqb_eq, IH. split.
  - now intros [-> ->].
  - now intros [= -> ->].
Qed.

Lemma paths_eqb_eq (ps qs : list Path) : paths_eqb ps qs = true <-> ps = qs.
Proof.
  revert qs. induction ps as [|a ps IH]; intros [|b qs]; cbn;
    try (split; [discriminate|discriminate]); [tauto|].
  rewrite andb_true_iff, path_eqb_eq, IH. split.
  - now intros [-> ->].
  - now intros [= -> ->].
Qed.

Lemma paths_eqb_false (ps qs : list Path) : paths_eqb ps qs = false <-> ps <> qs.
Proof.
  rewrite <- paths_eqb_eq. now destruct (paths_eqb ps qs).
Qed.

(** ** Assignment to the active layer *)

Lemma nth_error_assign_paths (ls : list layer) (i : nat) (ps : list Path) :
  nth_error (assign_paths ls i ps) i
  = option_map (fun l => set_paths l ps) (nth_error ls i).
Proof.
  revert i. induction ls as [|l t IH]; intros [|i]; cbn; auto.
Qed.

Lemma layer_at_assign_paths (ls : list layer) (i : Z) (ps : list Path) :
  layer_at (assign_paths ls (Z.to_nat i) ps) i
  = option_map (fun l => set_paths l ps) (layer_at ls i).
Proof.
  unfold layer_at. destruct (i <? 0); [reflexivity|].
  apply nth_error_assign_paths.
Qed.

(** ** One undo *)

Lemma undoErase_empty (s : session) :
  pathsHistory s = [] -> undoErase s = s.
Proof. intros H. unfold undoErase. now rewrite H. Qed.

Lemma undo_times_empty (n : nat) (s : session) :
  pathsHistory s = [] -> undo_times n s = s.
Proof.
  intros H. unfold undo_times. induction n as [|n IH]; [reflexivity|].
  change (undoErase (Nat.iter n undoErase s) = s).
  rewrite IH. now apply undoErase_empty.
Qed.

Lemma undoErase_pop (s : session) (pre : list (list Path)) (top : list Path)
  (l : layer) :
  pathsHistory s = pre ++ [top] ->
  layer_at (layers s) (activeLayerIndex s) = Some l ->
  pathsHistory (undoErase s) = pre /\
  activeLayerIndex (undoErase s) = activeLayerIndex s /\
  layer_at (layers (undoErase s)) (activeLayerIndex s) = Some (set_paths l top).
Proof.
  intros Hh Hl. unfold undoErase. rewrite Hh.
  destruct (pre ++ [top]) as [|x t] eqn:E; [now destruct pre|].
  rewrite <- E. cbn [pathsHistory activeLayerIndex layers].
  rewrite removelast_last, last_last.
  split; [reflexivity|]. split; [reflexivity|].
  assert (Hidx : (0 <=? activeLayerIndex s) = true).
  { unfold layer_at in Hl. destruct (activeLayerIndex s <? 0) eqn:En;
      [discriminate|]. apply Z.ltb_ge in En. now apply Z.leb_le. }
  rewrite Hidx, layer_at_assign_paths, Hl. reflexivity.
Qed.

(** Undoing exactly as often as the top part of the history is long
    restores the bottom snapshot of that part. *)
Lemma undo_times_exact (stk : list (list Path)) :
  forall (pre : list (list Path)) (s : session) (l : layer),
    pathsHistory s = pre ++ stk ->
    layer_at (layers s) (activeLayerIndex s) = Some l ->
    pathsHistory (undo_times (length stk) s) = pre /\
    (stk <> [] -> active_paths (undo_times (length stk) s) = Some (hd [] stk)).
Proof.
  induction stk as [|top stk IH] using rev_ind; intros pre s l Hh Hl.
  - cbn. rewrite app_nil_r in Hh. split; [exact Hh|congruence].
  - rewrite length_app. cbn [length]. rewrite Nat.add_1_r.
    unfold undo_times. rewrite Nat.iter_succ_r.
    rewrite app_assoc in Hh.
    destruct (undoErase_pop s (pre ++ stk) top l Hh Hl) as (Hh' & Hi' & Hl').
    rewrite <- Hi' in Hl'.
    destruct (IH pre (undoErase s) (set_paths l top) Hh' Hl') as [Hpre Hact].
    unfold undo_times in Hpre, Hact.
    split; [exact Hpre|]. intros _.
    destruct stk as [|b stk'].
    + cbn. unfold active_paths. rewrite Hl'. reflexivity.
    + rewrite Hact by discriminate. reflexivity.
Qed.

(** ** One erase *)

Lemma push_bounded_cases (history : list (list Path)) (x : list Path) :
  push_bounded history x
  = (if (length history <? 20)%nat then history else tl history) ++ [x].
Proof.
  unfold push_bounded. rewrite length_app. cbn [length].
  destruct (length history <? 20)%nat eqn:E.
  - apply Nat.ltb_lt in E.
    replace (20 <? length history + 1)%nat with false; [reflexivity|].
    symmetry. apply Nat.ltb_ge. lia.
  - apply Nat.ltb_ge in E.
    replace (20 <? length history + 1)%nat with true
      by (symmetry; apply Nat.ltb_lt; lia).
    destruct history as [|h t]; [cbn in E; lia|reflexivity].
Qed.

Lemma save_for_undo_cases (history : list (list Path)) (cur : list Path) :
  (history <> [] /\ last history [] = cur /\ save_for_undo history cur = history) \/
  ((history = [] \/ last history [] <> cur) /\
   save_for_undo history cur = push_bounded history cur).
Proof.
  unfold save_for_undo. destruct history as [|h t].
  - right. split; [now left|reflexivity].
  - cbn [length Nat.eqb orb].
    destruct (paths_eqb (last (h :: t) []) cur) eqn:E; cbn [negb].
    + left. apply paths_eqb_eq in E. repeat split; [discriminate|exact E].
    + right. apply paths_eqb_false in E. split; [now right|reflexivity].
Qed.

(** An erase either leaves the session alone or works on the active
    layer [l]: it saves for undo and replaces the layer's paths. *)
Lemma eraseAt_cases (far : list Path -> Point -> bool) (s : session) :
  eraseAt far s = s \/
  exists l l',
    layer_at (layers s) (activeLayerIndex s) = Some l /\
    pathsHistory (eraseAt far s) = save_for_undo (pathsHistory s) (paths l) /\
    activeLayerIndex (eraseAt far s) = activeLayerIndex s /\
    layer_at (layers (eraseAt far s)) (activeLayerIndex s) = Some l'.
Proof.
  unfold eraseAt.
  destruct (layer_at (layers s) (activeLayerIndex s)) as [l|] eqn:El;
    [|now left].
  destruct (drawingArea s) as [area|]; [|now left].
  destruct (paths l) as [|p ps] eqn:Ep; [now left|].
  right. exists l. eexists.
  cbn [pathsHistory activeLayerIndex layers].
  rewrite layer_at_assign_paths, El, Ep. cbn [option_map].
  repeat split; reflexivity.
Qed.

Lemma active_paths_layer (s : session) (l : layer) :
  layer_at (layers s) (activeLayerIndex s) = Some l ->
  active_paths s = Some (paths l).
Proof. intros H. unfold active_paths. now rewrite H. Qed.

(** ** Erasing from an empty history *)

Lemma from_empty_history_step (P0 : option (list Path)) (n : nat)
  (far : list Path -> Point -> bool) (s : session) :
  (n < 20)%nat ->
  from_empty_history P0 n s -> from_empty_history P0 (S n) (eraseAt far s).
Proof.
  intros Hn [Hlen Hinv].
  destruct (eraseAt_cases far s) as [->|(l & l' & Hl & Hh & Hi & Hl')].
  { split; [lia|exact Hinv]. }
  unfold from_empty_history. rewrite Hh, Hi.
  destruct (pathsHistory s) as [|bottom t] eqn:EH.
  - cbn. split; [lia|]. split; [|now exists l'].
    rewrite <- Hinv. now apply active_paths_layer.
  - destruct Hinv as [HP0 _].
    destruct (save_for_undo_cases (bottom :: t) (paths l))
      as [(_ & _ & ->)|(_ & ->)].
    + split; [cbn in *; lia|]. split; [exact HP0|now exists l'].
    + rewrite push_bounded_cases.
      replace (length (bottom :: t) <? 20)%nat with true
        by (symmetry; apply Nat.ltb_lt; lia).
      cbn [app]. split; [cbn in *; rewrite length_app; cbn; lia|].
      split; [exact HP0|now exists l'].
Qed.

Lemma from_empty_history_run (P0 : option (list Path))
  (fars : list (list Path -> Point -> bool)) :
  forall (n : nat) (s : session),
    (n + length fars <= 20)%nat ->
    from_empty_history P0 n s ->
    from_empty_history P0 (n + length fars) (erase_all fars s).
Proof.
  induction fars as [|far t IH]; intros n s Hn Hinv; cbn [length] in *.
  - now rewrite Nat.add_0_r.
  - unfold erase_all. cbn [fold_left]. fold (erase_all t (eraseAt far s)).
    rewrite <- Nat.add_succ_comm. apply IH; [lia|].
    apply from_empty_history_step; [lia|exact Hinv].
Qed.

Lemma undo_after_empty_start (P0 : option (list Path)) (n : nat) (s : session) :
  from_empty_history P0 n s -> active_paths (undo_times n s) = P0.
Proof.
  intros [Hlen Hinv].
  destruct (pathsHistory s) as [|bottom t] eqn:EH.
  - now rewrite undo_times_empty.
  - destruct Hinv as [-> [l Hl]].
    replace n with ((n - length (bottom :: t)) + length (bottom :: t))%nat by lia.
    unfold undo_times. rewrite Nat.iter_add.
    fold (undo_times (length (bottom :: t)) s).
    destruct (undo_times_exact (bottom :: t) [] s l EH Hl) as [Hpre Hact].
    fold (undo_times (n - length (bottom :: t))
                     (undo_times (length (bottom :: t)) s)).
    rewrite undo_times_empty by exact Hpre.
    now apply Hact.
Qed.

(** ** Erases that each change the path set *)

Lemma all_changed_first (far : list Path -> Point -> bool) (s : session) :
  active_paths (eraseAt far s) <> active_paths s ->
  all_changed (active_paths s) 1 (eraseAt far s).
Proof.
  intros Hch.
  destruct (eraseAt_cases far s) as [E|(l & l' & Hl & Hh & Hi & Hl')].
  { rewrite E in Hch. now contradiction Hch. }
  rewrite (active_paths_layer s l Hl) in Hch |- *.
  unfold active_paths in Hch. rewrite Hi, Hl' in Hch. cbn [option_map] in Hch.
  assert (Hne : paths l' <> paths l) by congruence.
  unfold all_changed. rewrite Hh, Hi.
  destruct (save_for_undo_cases (pathsHistory s) (paths l))
    as [(Hnil & Hlast & ->)|(_ & ->)].
  - exists (removelast (pathsHistory s)), [paths l], l'.
    split; [rewrite <- Hlast; now apply app_removelast_last|].
    repeat split; try assumption. discriminate.
  - rewrite push_bounded_cases.
    eexists _, [paths l], l'.
    split; [reflexivity|]. repeat split; try assumption. discriminate.
Qed.

Lemma all_changed_step (P0 : option (list Path)) (n : nat)
  (far : list Path -> Point -> bool) (s : session) :
  (n < 20)%nat ->
  all_changed P0 n s ->
  active_paths (eraseAt far s) <> active_paths s ->
  all_changed P0 (S n) (eraseAt far s).
Proof.
  intros Hn (pre & stk & l0 & Hpre & Hlen & Hstk & HP0 & Hl0 & Hdiff) Hch.
  destruct (eraseAt_cases far s) as [E|(l & l' & Hl & Hh & Hi & Hl')].
  { rewrite E in Hch. now contradiction Hch. }
  rewrite Hl0 in Hl. injection Hl as <-.
  rewrite (active_paths_layer s l0 Hl0) in Hch.
  unfold active_paths in Hch. rewrite Hi, Hl' in Hch. cbn [option_map] in Hch.
  assert (Hne : paths l' <> paths l0) by congruence.
  assert (Hlast : last (pre ++ stk) [] = last stk []).
  { destruct stk as [|x stk'] using rev_ind; [contradiction|].
    now rewrite app_assoc, !last_last. }
  unfold all_changed. rewrite Hh, Hi, Hpre.
  destruct (save_for_undo_cases (pre ++ stk) (paths l0))
    as [(_ & Heq & _)|(_ & ->)].
  { rewrite Hlast in Heq. now contradiction Hdiff. }
  rewrite push_bounded_cases.
  assert (Hshape :
            exists pre',
              (if (length (pre ++ stk) <? 20)%nat
               then pre ++ stk else tl (pre ++ stk))
              = pre' ++ stk).
  { destruct (length (pre ++ stk) <? 20)%nat eqn:E; [now exists pre|].
    apply Nat.ltb_ge in E. rewrite length_app in E.
    destruct pre as [|h pre']; [cbn in E; lia|]. now exists pre'. }
  destruct Hshape as [pre' ->].
  exists pre', (stk ++ [paths l0]), l'.
  rewrite <- app_assoc. split; [reflexivity|].
  split; [rewrite length_app; cbn; lia|].
  split; [now destruct stk|].
  split; [now destruct stk|].
  split; [exact Hl'|]. now rewrite last_last.
Qed.

Lemma all_changed_run (P0 : option (list Path))
  (fars : list (list Path -> Point -> bool)) :
  forall (n : nat) (s : session),
    (n + length fars <= 20)%nat ->
    all_changed P0 n s ->
    every_erase_changes fars s ->
    all_changed P0 (n + length fars) (erase_all fars s).
Proof.
  induction fars as [|far t IH]; intros n s Hn Hinv Hch; cbn [length] in *.
  - now rewrite Nat.add_0_r.
  - destruct Hch as [Hch Hrest].
    unfold erase_all. cbn [fold_left]. fold (erase_all t (eraseAt far s)).
    rewrite <- Nat.add_succ_comm. apply IH; [lia| |exact Hrest].
    apply all_changed_step; [lia|exact Hinv|exact Hch].
Qed.

Lemma undo_after_changes (P0 : option (list Path)) (n : nat) (s : session) :
  all_changed P0 n s -> active_paths (undo_times n s) = P0.
Proof.
  intros (pre & stk & l & Hpre & <- & Hstk & -> & Hl & _).
  now apply (undo_times_exact stk pre s l Hpre Hl).
Qed.

End EditorFacts.

(* ================================================================== *)
(** * Claim on erase and undo *)

(** C5, as stated, fails: in the session reached by one erase from a fresh
    session, two erase strokes over empty canvas (the first pushes a
    snapshot, the second sees it on top and pushes nothing) followed by two
    undos leave the active layer with the path set of the fresh session,
    not with the path set it had before the two erases. *)
Lemma erase_undo_counterexample :
  Editor.pathsHistory EditorSpec.after_first_erase = [[square100]] /\
  Editor.active_paths EditorSpec.after_first_erase
  = Some [[(0, 0); (100, 0); (0, 100); (0, 0)]] /\
  Editor.active_paths
    (Editor.undo_times 2
       (Editor.erase_all
          [EditorSpec.over_empty_canvas; EditorSpec.over_empty_canvas]
          EditorSpec.after_first_erase))
  = Some [square100].
Proof. repeat split. Qed.

(** C5 (amended): for every k <= 20, after k erase operations on the active
    layer followed by k undo operations, the active layer's path set equals
    its pre-erase state exactly, provided the undo history is empty before
    the first erase or each of the k erases changes the path set; an erase
    leaves at most 20 snapshots on the undo stack, and it pushes the
    current path set (discarding the oldest snapshot of a full stack) only
    if the stack is empty or its top differs from the current path set. *)
Theorem erase_undo_consistency :
  (forall (fars : list (list Path -> Point -> bool)) (s : Editor.session),
      (length fars <= 20)%nat ->
      Editor.pathsHistory s = [] \/ EditorSpec.every_erase_changes fars s ->
      Editor.active_paths
        (Editor.undo_times (length fars) (Editor.erase_all fars s))
      = Editor.active_paths s) /\
  (forall (far : list Path -> Point -> bool) (s : Editor.session),
      (length (Editor.pathsHistory s) <= 20)%nat ->
      (length (Editor.pathsHistory (Editor.eraseAt far s)) <= 20)%nat) /\
  (forall (far : list Path -> Point -> bool) (s : Editor.session),
      Editor.pathsHistory (Editor.eraseAt far s) = Editor.pathsHistory s \/
      exists cur,
        Editor.active_paths s = Some cur /\
        (Editor.pathsHistory s = [] \/ last (Editor.pathsHistory s) [] <> cur) /\
        Editor.pathsHistory (Editor.eraseAt far s)
        = (if (length (Editor.pathsHistory s) <? 20)%nat
           then Editor.pathsHistory s
           else tl (Editor.pathsHistory s)) ++ [cur]).
Proof.
  assert (Hpush :
            forall far s,
              Editor.pathsHistory (Editor.eraseAt far s) = Editor.pathsHistory s \/
              exists cur,
                Editor.active_paths s = Some cur /\
                (Editor.pathsHistory s = []
                 \/ last (Editor.pathsHistory s) [] <> cur) /\
                Editor.pathsHistory (Editor.eraseAt far s)
                = (if (length (Editor.pathsHistory s) <? 20)%nat
                   then Editor.pathsHistory s
                   else tl (Editor.pathsHistory s)) ++ [cur]).
  { intros far s.
    destruct (EditorFacts.eraseAt_cases far s)
      as [->|(l & l' & Hl & Hh & _ & _)]; [now left|].
    rewrite Hh.
    destruct (EditorFacts.save_for_undo_cases (Editor.pathsHistory s)
                (Editor.paths l)) as [(_ & _ & ->)|(Hdiff & ->)]; [now left|].
    right. exists (Editor.paths l).
    split; [now apply EditorFacts.active_paths_layer|].
    split; [exact Hdiff|]. apply EditorFacts.push_bounded_cases. }
  split; [|split; [|exact Hpush]].
  - intros fars s Hk [Hempty|Hch].
    + apply EditorFacts.undo_after_empty_start.
      apply (EditorFacts.from_empty_history_run _ fars 0 s Hk).
      unfold EditorSpec.from_empty_history. rewrite Hempty. cbn. auto.
    + destruct fars as [|far t]; [reflexivity|].
      destruct Hch as [Hch Hrest].
      apply EditorFacts.undo_after_changes.
      unfold Editor.erase_all. cbn [fold_left length].
      fold (Editor.erase_all t (Editor.eraseAt far s)).
      apply (EditorFacts.all_changed_run _ t 1 (Editor.eraseAt far s));
        [cbn [length] in Hk; lia| |exact Hrest].
      now apply EditorFacts.all_changed_first.
  - intros far s Hlen.
    destruct (Hpush far s) as [->|(cur & _ & _ & ->)]; [exact Hlen|].
    rewrite length_app. cbn [length].
    destruct (length (Editor.pathsHistory s) <? 20)%nat eqn:E.
    + apply Nat.ltb_lt in E. lia.
    + destruct (Editor.pathsHistory s) as [|h t]; cbn in *; lia.
Qed.

Lemma erase_undo_consistency_witness :
  Editor.active_paths
    (Editor.undo_times 2
       (Editor.erase_all
          [EditorSpec.over_empty_canvas; EditorSpec.over_far_corner]
          EditorSpec.fresh_session))
  = Some [square100].
Proof.
  apply (proj1 erase_undo_consistency
               [EditorSpec.over_empty_canvas; EditorSpec.over_far_corner]
               EditorSpec.fresh_session).
  - cbn. lia.
  - left. reflexivity.
Defined.

(* ================================================================== *)
(** * Further properties of the drawable-area model *)

(** X1: a point inside the safe bounds of margin [m >= 0] is drawable
    together with everything within [m] pixels of it on both axes: strokes
    fitted into the safe bounds keep [m] pixels clear of the outer edges
    and of both exclusions. *)
Theorem safe_bounds_clearance (a : DrawingArea) (margin x y : Z) :
  0 <= margin ->
  is_inside (get_safe_bounds a margin) x y = true ->
  clear_by a margin (x, y).
Proof.
  intros Hm Hin dx dy Hdx Hdy. cbn [fst snd].
  apply is_inside_true_iff in Hin. apply is_inside_true_iff.
  unfold in_top_left_excl, in_bottom_right_excl, get_safe_bounds in *.
  cbn in Hin. lia.
Qed.

Lemma safe_bounds_clearance_witness :
  is_inside scenario_area (300 + 25) (300 - 25) = true.
Proof.
  apply (safe_bounds_clearance scenario_area 25 300 300);
    [lia|reflexivity|cbn; lia|cbn; lia].
Defined.

(** X2: with a margin of at least 1, every point of the rectangle returned
    by [get_usable_rect] is drawable, as long as the rectangle's right edge
    is not beyond the outer rectangle. *)
Theorem usable_rect_drawable (a : DrawingArea) (margin x y : Z) :
  1 <= margin -> cutout_left a - margin <= right a ->
  let '(x0, y0, x1, y1) := get_usable_rect a margin in
  x0 <= x <= x1 -> y0 <= y <= y1 -> is_inside a x y = true.
Proof.
  intros Hm Hr.
  pose proof (get_usable_rect_avoids a margin Hm Hr) as H.
  unfold rect_avoids_exclusions, get_usable_rect in *. apply H.
Qed.

Lemma usable_rect_drawable_witness :
  is_inside scenario_area 220 170 = true.
Proof.
  apply (usable_rect_drawable scenario_area 20 220 170); cbn; lia.
Defined.

Lemma Qfloor_half (A B : Z) :
  Qfloor (inject_Z A + inject_Z B / 2) = (2 * A + B) / 2.
Proof.
  rewrite (Qfloor_comp _ (inject_Z (2 * A + B) / inject_Z 2)).
  - symmetry. apply Zdiv_Qdiv.
  - rewrite inject_Z_plus, inject_Z_mult. field.
Qed.

(** X3: the point [generate] re-centers every layer on, rounded down, is
    the area's own [center]. *)
Theorem generate_center_is_area_center (a : DrawingArea) :
  Qfloor (center_x a) = fst (center a) /\ Qfloor (center_y a) = snd (center a).
Proof.
  unfold center_x, center_y, center, avail_w, avail_h, avail_left, avail_top,
    avail_right, avail_bottom. cbn [fst snd].
  rewrite !Qfloor_half. split; Z.to_euclidean_division_equations; lia.
Qed.

(* ================================================================== *)
(** * Properties of [detect_lines] *)

Lemma int32_small (z : Z) : - 2 ^ 31 <= z < 2 ^ 31 -> int32 z = z.
Proof.
  intros Hz. unfold int32.
  rewrite Z.mod_small by lia. lia.
Qed.

Lemma segment_exclusive (line : Segment) :
  horizontal_segment line = true -> vertical_segment line = false.
Proof.
  destruct line as [[[x1 y1] x2] y2]. unfold horizontal_segment, vertical_segment.
  intros H. apply andb_true_iff in H as [_ H]. apply Z.ltb_lt in H.
  apply andb_false_iff. left. apply Z.ltb_ge. lia.
Qed.

(** What one segment of pixel coordinates contributes to the two lists. *)
Lemma detect_lines_step_pixel (math_sqrt : Q -> Q) (h v : list Line)
  (line : Segment) :
  pixel_segment line ->
  detect_lines_step math_sqrt (h, v) line
  = (if horizontal_segment line then h ++ [horizontal_line math_sqrt line] else h,
     if vertical_segment line then v ++ [vertical_line math_sqrt line] else v).
Proof.
  intros Hpix.
  pose proof (segment_exclusive line) as Hex.
  destruct line as [[[x1 y1] x2] y2].
  destruct Hpix as (Hx1 & Hy1 & Hx2 & Hy2).
  assert (P : 2 ^ 15 = 32768) by reflexivity.
  assert (Q31 : 2 ^ 31 = 2147483648) by reflexivity.
  unfold detect_lines_step, horizontal_segment, vertical_segment,
    horizontal_line, vertical_line, squared_length in *.
  rewrite (int32_small (x2 - x1)) by lia.
  rewrite (int32_small (y2 - y1)) by lia.
  rewrite (int32_small (Z.abs (x2 - x1))) by lia.
  rewrite (int32_small (Z.abs (y2 - y1))) by lia.
  rewrite (int32_small (y1 + y2)) by lia.
  rewrite (int32_small (x1 + x2)) by lia.
  rewrite !Z.abs_square.
  assert (Sx : 0 <= (x2 - x1) * (x2 - x1) <= 32767 * 32767) by nia.
  assert (Sy : 0 <= (y2 - y1) * (y2 - y1) <= 32767 * 32767) by nia.
  rewrite (int32_small ((x2 - x1) * (x2 - x1))) by lia.
  rewrite (int32_small ((y2 - y1) * (y2 - y1))) by lia.
  rewrite (int32_small ((x2 - x1) * (x2 - x1) + (y2 - y1) * (y2 - y1))) by lia.
  destruct ((Z.abs (y2 - y1) <? 20) && (50 <? Z.abs (x2 - x1))) eqn:Eh.
  - rewrite (Hex eq_refl). reflexivity.
  - destruct ((Z.abs (x2 - x1) <? 20) && (50 <? Z.abs (y2 - y1))); reflexivity.
Qed.

Lemma detect_lines_fold (math_sqrt : Q -> Q) (segments : list Segment) :
  Forall pixel_segment segments ->
  forall h v : list Line,
    fold_left (detect_lines_step math_sqrt) segments (h, v)
    = (h ++ map (horizontal_line math_sqrt) (filter horizontal_segment segments),
       v ++ map (vertical_line math_sqrt) (filter vertical_segment segments)).
Proof.
  induction 1 as [|line rest Hline Hrest IH]; intros h v; cbn [fold_left filter map].
  - now rewrite !app_nil_r.
  - rewrite (detect_lines_step_pixel math_sqrt h v line Hline), IH.
    destruct (horizontal_segment line), (vertical_segment line);
      cbn [map]; rewrite <- ?app_assoc; reflexivity.
Qed.

(** X4: on pixel coordinates below 2^15, where the 32-bit arithmetic on
    the end points does not wrap, [detect_lines] reports exactly the
    segments with vertical extent below 20 and horizontal extent above 50
    as horizontal lines, and exactly those with horizontal extent below 20
    and vertical extent above 50 as vertical lines, each list in the order
    of the segments; no segment is in both lists.  A reported line is
    (floored midpoint, square root of dx^2 + dy^2), and the midpoint lies
    between the segment's end points.  Without segments both lists are
    empty. *)
Theorem detect_lines_spec (math_sqrt : Q -> Q) (segments : list Segment) :
  Forall pixel_segment segments ->
  detect_lines math_sqrt None = ([], []) /\
  detect_lines math_sqrt (Some segments)
  = (map (horizontal_line math_sqrt) (filter horizontal_segment segments),
     map (vertical_line math_sqrt) (filter vertical_segment segments)) /\
  (forall line, horizontal_segment line = true -> vertical_segment line = false) /\
  (forall x1 y1 x2 y2,
      horizontal_line math_sqrt (x1, y1, x2, y2)
      = ((y1 + y2) / 2,
         math_sqrt (inject_Z ((x2 - x1) * (x2 - x1) + (y2 - y1) * (y2 - y1)))) /\
      vertical_line math_sqrt (x1, y1, x2, y2)
      = ((x1 + x2) / 2,
         math_sqrt (inject_Z ((x2 - x1) * (x2 - x1) + (y2 - y1) * (y2 - y1)))) /\
      Z.min y1 y2 <= (y1 + y2) / 2 <= Z.max y1 y2 /\
      Z.min x1 x2 <= (x1 + x2) / 2 <= Z.max x1 x2).
Proof.
  intros Hpix. split; [reflexivity|]. split.
  - unfold detect_lines. now rewrite (detect_lines_fold math_sqrt segments Hpix).
  - split; [apply segment_exclusive|].
    intros x1 y1 x2 y2. split; [reflexivity|]. split; [reflexivity|].
    split; Z.to_euclidean_division_equations; lia.
Qed.

Lemma detect_lines_spec_witness :
  detect_lines (fun q => q)
    (Some [(10, 100, 210, 104); (50, 0, 52, 300); (0, 0, 10, 10)])
  = ([(102, inject_Z 40016)], [(51, inject_Z 90004)]).
Proof.
  refine (proj1 (proj2 (detect_lines_spec (fun q => q)
                          [(10, 100, 210, 104); (50, 0, 52, 300); (0, 0, 10, 10)]
                          _))).
  repeat constructor; cbn; lia.
Defined.

(* ================================================================== *)
(** * Properties of the resize step and of the contour loops *)

Lemma int_nonneg_ratio (n m : Z) :
  0 <= n -> 0 < m -> Py.int (inject_Z n / inject_Z m) = n / m.
Proof.
  intros Hn Hm. unfold Py.int.
  assert (H0 : (0 <= inject_Z n / inject_Z m)%Q).
  { apply Qle_shift_div_l.
    - rewrite <- (Zlt_Qlt 0). exact Hm.
    - rewrite Qmult_0_l. rewrite <- (Zle_Qle 0). exact Hn. }
  apply Qle_bool_iff in H0. rewrite H0. symmetry. apply Zdiv_Qdiv.
Qed.

Lemma int_scaled (w k m : Z) :
  0 <= w -> 0 <= k -> 0 < m ->
  Py.int (inject_Z w * (inject_Z k / inject_Z m)) = (w * k) / m.
Proof.
  intros Hw Hk Hm.
  rewrite <- (int_nonneg_ratio (w * k) m);
    [|apply Z.mul_nonneg_nonneg; assumption|assumption].
  apply int_proper. rewrite inject_Z_mult. field.
  intros H. unfold Qeq in H. cbn in H. lia.
Qed.



Lemma fold_append_Forall {A B : Type} (P : B -> Prop) (f : list B -> A -> list B) :
  (forall acc x, Forall P acc -> Forall P (f acc x)) ->
  forall l acc, Forall P acc -> Forall P (fold_left f l acc).
Proof.
  intros Hf l. induction l as [|x t IH]; intros acc Hacc; cbn; auto.
Qed.

Lemma closed_by_append (path : Path) :
  path <> [] -> closed_path (path ++ [hd (0, 0) path]).
Proof.
  intros Hne. unfold closed_path. rewrite last_last.
  destruct path; [contradiction|reflexivity].
Qed.

(** X6: the three extractors of image_draw.py return only drawable paths:
    [extract_paths_edges] paths of at least 2 points,
    [extract_paths_contours] and [extract_paths_adaptive] closed polylines
    (last point equal to the first) of at least 4 points; the image size is
    passed through. *)
Theorem image_extractors_drawable (contourArea : Path -> Q)
  (approxPolyDP : Path -> Q -> bool -> Path)
  (contours : list Path) (simplify : Q) (w h : Z) :
  let edges := extract_paths_edges approxPolyDP contours simplify w h in
  let filled := extract_paths_contours contourArea approxPolyDP contours simplify w h in
  let adaptive := extract_paths_adaptive contourArea approxPolyDP contours simplify w h in
  Forall (fun path => (2 <= length path)%nat) (ImagePaths.paths edges) /\
  Forall (fun path => closed_path path /\ (4 <= length path)%nat)
         (ImagePaths.paths filled) /\
  Forall (fun path => closed_path path /\ (4 <= length path)%nat)
         (ImagePaths.paths adaptive) /\
  (ImagePaths.width edges, ImagePaths.height edges) = (w, h) /\
  (ImagePaths.width filled, ImagePaths.height filled) = (w, h) /\
  (ImagePaths.width adaptive, ImagePaths.height adaptive) = (w, h).
Proof.
  cbv zeta. unfold extract_paths_edges, extract_paths_contours,
    extract_paths_adaptive. cbn [ImagePaths.paths ImagePaths.width ImagePaths.height].
  repeat split.
  - apply fold_append_Forall; [|constructor]. intros acc c Hacc.
    destruct (length c <? 5)%nat; [exact Hacc|].
    destruct (2 <=? length _)%nat eqn:E; [|exact Hacc].
    apply Forall_app. split; [exact Hacc|]. constructor; [|constructor].
    now apply Nat.leb_le.
  - apply fold_append_Forall; [|constructor]. intros acc c Hacc.
    destruct (negb _); [exact Hacc|].
    destruct (3 <=? length _)%nat eqn:E; [|exact Hacc].
    apply Nat.leb_le in E.
    apply Forall_app. split; [exact Hacc|]. constructor; [|constructor].
    split.
    + apply closed_by_append. intros C. rewrite C in E. cbn in E. lia.
    + rewrite length_app. cbn. lia.
  - apply fold_append_Forall; [|constructor]. intros acc c Hacc.
    destruct (negb _); [exact Hacc|].
    destruct (3 <=? length _)%nat eqn:E; [|exact Hacc].
    apply Nat.leb_le in E.
    apply Forall_app. split; [exact Hacc|]. constructor; [|constructor].
    split.
    + apply closed_by_append. intros C. rewrite C in E. cbn in E. lia.
    + rewrite length_app. cbn. lia.
Qed.




(* ================================================================== *)
(** * Properties of the swipe emitters *)

Lemma path_swipes_segments (path : Path) (d : Z) :
  path_swipes path d = segments path d.
Proof.
  unfold path_swipes.
  induction path as [|a t IH]; [reflexivity|].
  destruct t as [|b t']; [reflexivity|].
  replace (length (a :: b :: t') - 1)%nat with (S (length t')) by (cbn; lia).
  replace (length (b :: t') - 1)%nat with (length t') in IH by (cbn; lia).
  cbn [seq map].
  change (segments (a :: b :: t') d)
    with (mkSwipe (fst a) (snd a) (fst b) (snd b) d :: segments (b :: t') d).
  f_equal.
  - unfold swipe_at. cbn. now destruct a, b.
  - rewrite <- IH. rewrite <- seq_shift, map_map. reflexivity.
Qed.

Lemma segments_starts_ends (path : Path) (d : Z) :
  map swipe_start (segments path d) = removelast path /\
  map swipe_end (segments path d) = tl path /\
  Forall (fun s => swipe_duration s = d) (segments path d).
Proof.
  induction path as [|a t IH]; [repeat split; constructor|].
  destruct t as [|b t']; [repeat split; constructor|].
  destruct IH as (Hs & He & Hd).
  change (segments (a :: b :: t') d)
    with (mkSwipe (fst a) (snd a) (fst b) (snd b) d :: segments (b :: t') d).
  change (removelast (a :: b :: t')) with (a :: removelast (b :: t')).
  cbn [map tl]. rewrite Hs, He.
  split; [|split].
  - f_equal. unfold swipe_start. cbn. now destruct a.
  - f_equal. unfold swipe_end. cbn. now destruct b.
  - constructor; [reflexivity|exact Hd].
Qed.

Lemma draw_paths_adb_flat (paths : list Path) (d : Z) :
  draw_paths_adb paths d = flat_map (fun path => segments path d) paths.
Proof.
  unfold draw_paths_adb. induction paths as [|p t IH]; [reflexivity|].
  cbn [flat_map]. rewrite IH. f_equal.
  destruct (length p <? 2)%nat eqn:E.
  - apply Nat.ltb_lt in E. destruct p as [|a [|b p']]; cbn in *; try reflexivity; lia.
  - apply path_swipes_segments.
Qed.

Lemma segments_endpoints (path : Path) (d : Z) (s : Swipe) :
  In s (segments path d) -> In (swipe_start s) path /\ In (swipe_end s) path.
Proof.
  intros Hin. destruct (segments_starts_ends path d) as (Hs & He & _).
  split.
  - assert (H : In (swipe_start s) (removelast path))
      by (rewrite <- Hs; now apply in_map).
    clear -H. induction path as [|a t IH]; [destruct H|].
    destruct t as [|b t']; [destruct H|].
    destruct H as [H|H]; [now left|right; now apply IH].
  - assert (H : In (swipe_end s) (tl path))
      by (rewrite <- He; now apply in_map).
    destruct path; [destruct H|now right].
Qed.

Lemma draw_paths_adb_endpoints (paths : list Path) (d : Z) (s : Swipe) :
  In s (draw_paths_adb paths d) ->
  exists path, In path paths /\ In (swipe_start s) path /\ In (swipe_end s) path.
Proof.
  rewrite draw_paths_adb_flat. intros Hin.
  apply in_flat_map in Hin. destruct Hin as (path & Hp & Hs).
  exists path. split; [exact Hp|]. now apply (segments_endpoints path d).
Qed.

(** X8: [draw_paths_adb] issues, path by path in order, one swipe per pair
    of consecutive points with the given stroke duration: the start points
    of a path's swipes are the path without its last point, the end points
    the path without its first, so [len(path) - 1] swipes per path and none
    for a path of fewer than two points. *)
Theorem draw_paths_adb_spec (paths : list Path) (stroke_duration : Z) :
  draw_paths_adb paths stroke_duration
  = flat_map (fun path => path_swipes path stroke_duration) paths /\
  length (draw_paths_adb paths stroke_duration)
  = list_sum (map (fun path => (length path - 1)%nat) paths) /\
  forall path,
    map swipe_start (path_swipes path stroke_duration) = removelast path /\
    map swipe_end (path_swipes path stroke_duration) = tl path /\
    Forall (fun s => swipe_duration s = stroke_duration)
           (path_swipes path stroke_duration).
Proof.
  split; [|split].
  - rewrite draw_paths_adb_flat. apply flat_map_ext.
    intros p. symmetry. apply path_swipes_segments.
  - rewrite draw_paths_adb_flat.
    induction paths as [|p t IH]; [reflexivity|].
    cbn [flat_map map list_sum]. rewrite length_app, IH. f_equal.
    rewrite <- path_swipes_segments. unfold path_swipes.
    now rewrite length_map, length_seq.
  - intros path. rewrite path_swipes_segments. apply segments_starts_ends.
Qed.

(** X9: every swipe [process_and_draw] issues starts and ends inside the
    detected area with 25 pixels to spare on every side (outer edges and
    both exclusions); in preview mode it issues none; it returns whenever
    the image dimensions are non-zero. *)
Theorem process_and_draw_clear (image_paths : ImagePaths.t) (area : DrawingArea)
  (preview_only full_area : bool) :
  (forall swipes,
      process_and_draw image_paths area preview_only full_area = Ok swipes ->
      Forall (fun s => clear_by area 25 (swipe_start s) /\
                       clear_by area 25 (swipe_end s)) swipes) /\
  (preview_only = true ->
   forall swipes,
     process_and_draw image_paths area preview_only full_area = Ok swipes ->
     swipes = []) /\
  (ImagePaths.width image_paths <> 0 -> ImagePaths.height image_paths <> 0 ->
   exists swipes,
     process_and_draw image_paths area preview_only full_area = Ok swipes).
Proof.
  unfold process_and_draw. split; [|split].
  - intros swipes.
    destruct (ImagePaths.paths image_paths) as [|p0 ps] eqn:Eps.
    { intros H. apply Ok_inj in H. subst. constructor. }
    destruct (scale_paths_to_area image_paths (get_safe_bounds area 25) 10 true
                full_area) as [scaled|e] eqn:Es; cbn [bind]; [|discriminate].
    destruct (scale_paths_to_area_inv _ _ _ _ _ _ Es) as [T ET].
    pose proof (containment_filter_contained (get_safe_bounds area 25) T
                  (ImagePaths.paths image_paths)) as Hc.
    rewrite <- ET in Hc.
    destruct scaled as [|s0 ss] eqn:Esc.
    { intros H. apply Ok_inj in H. subst. constructor. }
    destruct preview_only.
    { intros H. apply Ok_inj in H. subst. constructor. }
    intros H. apply Ok_inj in H. subst swipes.
    apply Forall_forall. intros s Hs.
    destruct (draw_paths_adb_endpoints _ _ _ Hs) as (path & Hp & H1 & H2).
    unfold contained in Hc. rewrite Forall_forall in Hc.
    destruct (Hc path Hp) as [Hpts _]. rewrite Forall_forall in Hpts.
    assert (Hclear :
              forall p, In p path -> clear_by area 25 p).
    { intros p Hin dx dy Hdx Hdy. specialize (Hpts p Hin).
      apply is_inside_true_iff in Hpts. apply is_inside_true_iff.
      unfold in_top_left_excl, in_bottom_right_excl, get_safe_bounds in *.
      cbn in Hpts. lia. }
    split; apply Hclear; assumption.
  - intros -> swipes.
    destruct (ImagePaths.paths image_paths) as [|p0 ps].
    { intros H. now apply Ok_inj in H. }
    destruct (scale_paths_to_area _ _ _ _ _) as [[|s0 ss]|e]; cbn [bind];
      try discriminate; intros H; now apply Ok_inj in H.
  - intros Hw Hh.
    destruct (ImagePaths.paths image_paths) as [|p0 ps]; [now eexists|].
    destruct (scale_paths_to_area_total image_paths (get_safe_bounds area 25) 10
                true full_area Hw Hh) as [scaled ->].
    cbn [bind]. destruct scaled; [now eexists|].
    destruct preview_only; now eexists.
Qed.

Lemma process_and_draw_clear_witness :
  exists swipes,
    process_and_draw square_image scenario_area false false = Ok swipes /\
    Forall (fun s => clear_by scenario_area 25 (swipe_start s)) swipes.
Proof.
  destruct (process_and_draw_clear square_image scenario_area false false)
    as (Hclear & _ & Htotal).
  destruct Htotal as [swipes E]; [cbn; lia|cbn; lia|].
  exists swipes. split; [exact E|].
  eapply Forall_impl; [|apply (Hclear swipes E)].
  intros s [H _]. exact H.
Defined.

(* ================================================================== *)
(** * Properties of the event stream of [draw] *)

Lemma swipes_of_app (xs ys : list DrawEvent) :
  swipes_of (xs ++ ys) = swipes_of xs ++ swipes_of ys.
Proof. unfold swipes_of. apply flat_map_app. Qed.

Lemma progress_of_app (xs ys : list DrawEvent) :
  progress_of (xs ++ ys) = progress_of xs ++ progress_of ys.
Proof. unfold progress_of. apply flat_map_app. Qed.

Lemma swipes_of_cmds (l : list Swipe) : swipes_of (map SwipeCmd l) = l.
Proof. induction l as [|s t IH]; cbn; [reflexivity|now f_equal]. Qed.

Lemma progress_of_cmds (l : list Swipe) : progress_of (map SwipeCmd l) = [].
Proof. induction l as [|s t IH]; cbn; [reflexivity|exact IH]. Qed.

Lemma In_cmds (l : list Swipe) (e : DrawEvent) :
  In e (map SwipeCmd l) -> exists s, e = SwipeCmd s.
Proof. intros H. apply in_map_iff in H. destruct H as (s & <- & _). now exists s. Qed.

(** The percentage yielded after path [i] of [n]. *)
Lemma progress_value (i n : nat) :
  (0 < n)%nat ->
  Py.truediv (inject_Z (Z.of_nat i + 1)) (inject_Z (Z.of_nat n))
  = Ok (inject_Z (Z.of_nat i + 1) / inject_Z (Z.of_nat n))%Q /\
  Py.int (inject_Z (Z.of_nat i + 1) / inject_Z (Z.of_nat n) * 100)
  = (100 * (Z.of_nat i + 1)) / Z.of_nat n.
Proof.
  intros Hn. split; [apply truediv_ok; lia|].
  rewrite <- int_nonneg_ratio by lia.
  apply int_proper. rewrite inject_Z_mult. field.
  intros H. unfold Qeq in H. cbn in H. lia.
Qed.

Lemma emit_paths_nonempty (drawing : nat -> bool) (d : Z) (n i : nat)
  (paths : list Path) :
  emit_paths drawing d n i paths <> [].
Proof.
  destruct paths as [|p t]; cbn [emit_paths]; [discriminate|].
  destruct (negb (drawing i)); [discriminate|].
  destruct (Py.truediv _ _); intros C;
    apply (f_equal (@length DrawEvent)) in C;
    rewrite !length_app in C; cbn in C; lia.
Qed.

Lemma last_after_cons {A : Type} (xs tail : list A) (y d : A) :
  tail <> [] -> last (xs ++ y :: tail) d = last tail d.
Proof.
  intros Hne. induction xs as [|x xs IH]; cbn [app].
  - destruct tail; [contradiction|reflexivity].
  - rewrite <- IH. destruct (xs ++ y :: tail) eqn:E; [|reflexivity].
    now destruct xs.
Qed.

(** The stream of a run that is never stopped. *)
Lemma emit_paths_complete (drawing : nat -> bool) (d : Z) (n : nat)
  (paths : list Path) :
  (forall i, drawing i = true) ->
  forall i,
    (i + length paths = n)%nat ->
    let events := emit_paths drawing d n i paths in
    swipes_of events = flat_map (fun path => segments path d) paths /\
    progress_of events
    = map (fun j => (100 * (Z.of_nat j + 1)) / Z.of_nat n) (seq i (length paths)) /\
    last events Stopped = Complete /\
    ~ In Stopped events /\ (forall e, ~ In (Error e) events).
Proof.
  intros Hrun. induction paths as [|path rest IH]; intros i Hlen; cbn [emit_paths].
  - cbn. repeat split; try reflexivity; intros; intros [H|[]]; discriminate.
  - rewrite Hrun. cbn [negb].
    cbn [length] in Hlen.
    destruct (progress_value i n) as [-> Hp]; [lia|]. rewrite Hp.
    destruct (IH (S i)) as (Hs & Hpr & Hl & Hns & Hne); [lia|].
    cbv zeta.
    rewrite !swipes_of_app, !progress_of_app, swipes_of_cmds, progress_of_cmds.
    rewrite Hs, Hpr. cbn [swipes_of progress_of flat_map app length seq map].
    rewrite path_swipes_segments.
    split; [reflexivity|]. split; [reflexivity|].
    split.
    { rewrite last_after_cons; [exact Hl|apply emit_paths_nonempty]. }
    split.
    { intros C. apply in_app_or in C. destruct C as [C|C].
      - apply In_cmds in C. destruct C as [s C]. discriminate.
      - destruct C as [C|C]; [discriminate|]. now apply Hns. }
    intros e C. apply in_app_or in C. destruct C as [C|C].
    + apply In_cmds in C. destruct C as [s C]. discriminate.
    + destruct C as [C|C]; [discriminate|]. now apply (Hne e).
Qed.

Lemma progress_list_facts (n : nat) :
  forall i k,
    (i + k <= n)%nat ->
    let l := map (fun j => (100 * (Z.of_nat j + 1)) / Z.of_nat n) (seq i k) in
    nondecreasing l /\ Forall (fun p => 0 <= p <= 100) l.
Proof.
  intros i k. revert i. induction k as [|k IH]; intros i Hle; cbn [seq map].
  - split; [exact I|constructor].
  - destruct (IH (S i)) as [Hnd Hb]; [lia|].
    assert (Hn : 0 < Z.of_nat n) by lia.
    split.
    + destruct k as [|k']; [exact I|]. cbn [seq map] in *.
      split; [|exact Hnd].
      apply Z.div_le_mono; lia.
    + constructor; [|exact Hb]. split.
      * apply Z.div_pos; lia.
      * apply Z.div_le_upper_bound; lia.
Qed.

Lemma last_progress (n : nat) :
  (0 < n)%nat ->
  last (map (fun j => (100 * (Z.of_nat j + 1)) / Z.of_nat n) (seq 0 n)) 0 = 100.
Proof.
  intros Hn. destruct n as [|m]; [lia|].
  rewrite seq_S, map_app. cbn [map]. rewrite last_last. cbn [Nat.add].
  symmetry. apply Z.div_unique_exact; lia.
Qed.

(** X10: when drawing is never stopped, the stream of [draw] carries
    exactly the swipes [draw_paths_adb] would issue for the fitted paths,
    one progress report per path, the reports never decreasing, between 0
    and 100 and ending at 100; the stream ends with the completion event
    and carries no stop and no error. *)
Theorem draw_events_complete {M : MathLib} (drawing : nat -> bool)
  (stroke_duration : Z) (area : DrawingArea) (input_layers : list Layer.t)
  (scaled_paths : list Path) :
  (forall i, drawing i = true) ->
  generate area input_layers = Ok scaled_paths ->
  let events := draw_events drawing stroke_duration area input_layers in
  swipes_of events = draw_paths_adb scaled_paths stroke_duration /\
  length (progress_of events) = length scaled_paths /\
  nondecreasing (progress_of events) /\
  Forall (fun p => 0 <= p <= 100) (progress_of events) /\
  (scaled_paths <> [] -> last (progress_of events) 0 = 100) /\
  last events Stopped = Complete /\
  ~ In Stopped events /\ (forall e, ~ In (Error e) events).
Proof.
  intros Hrun Hgen. unfold draw_events. rewrite Hgen. cbv zeta.
  destruct (emit_paths_complete drawing stroke_duration (length scaled_paths)
              scaled_paths Hrun 0 eq_refl) as (Hs & Hp & Hl & Hns & Hne).
  set (events := emit_paths drawing stroke_duration (length scaled_paths) 0
                            scaled_paths) in *.
  change (swipes_of (Message _ _ :: events)) with (swipes_of events).
  change (progress_of (Message _ _ :: events)) with (progress_of events).
  rewrite Hs, Hp, draw_paths_adb_flat.
  destruct (progress_list_facts (length scaled_paths) 0 (length scaled_paths))
    as [Hnd Hb]; [lia|].
  split; [reflexivity|].
  split; [now rewrite length_map, length_seq|].
  split; [exact Hnd|]. split; [exact Hb|].
  split.
  { intros Hne0. apply last_progress. destruct scaled_paths; [contradiction|].
    cbn. lia. }
  split.
  { destruct events; [discriminate Hl|exact Hl]. }
  split.
  { intros [C|C]; [discriminate|now apply Hns]. }
  intros e [C|C]; [discriminate|now apply (Hne e)].
Qed.

Lemma draw_events_complete_witness :
  swipes_of (@draw_events unused_math (fun _ => true) 60 lobe_area
               [Layer.identity [square100]])
  = draw_paths_adb
      [[(220, 975); (420, 975); (420, 1175); (220, 1175); (220, 975)]] 60.
Proof.
  exact (proj1 (@draw_events_complete unused_math (fun _ => true) 60 lobe_area
                  [Layer.identity [square100]]
                  [[(220, 975); (420, 975); (420, 1175); (220, 1175); (220, 975)]]
                  (fun _ => eq_refl) eq_refl)).
Defined.

(** The stream of a run stopped at the head of iteration [i + k]. *)
Lemma emit_paths_stopped (drawing : nat -> bool) (d : Z) (n : nat) :
  (0 < n)%nat ->
  forall (k i : nat) (paths : list Path),
    (k < length paths)%nat ->
    drawing (i + k)%nat = false ->
    (forall j, (j < k)%nat -> drawing (i + j)%nat = true) ->
    let events := emit_paths drawing d n i paths in
    swipes_of events = flat_map (fun path => segments path d) (firstn k paths) /\
    length (progress_of events) = k /\
    last events Complete = Stopped /\
    ~ In Complete events /\ (forall e, ~ In (Error e) events).
Proof.
  intros Hn. induction k as [|k IH]; intros i paths Hk Hstop Hrun;
    (destruct paths as [|path rest]; [cbn in Hk; lia|]); cbn [emit_paths].
  - rewrite Nat.add_0_r in Hstop. rewrite Hstop. cbn.
    repeat split; try reflexivity; intros; intros [H|[]]; discriminate.
  - assert (Hi : drawing i = true)
      by (rewrite <- (Nat.add_0_r i); apply Hrun; lia).
    rewrite Hi. cbn [negb].
    destruct (progress_value i n Hn) as [-> Hp]. rewrite Hp. cbv zeta.
    destruct (IH (S i) rest) as (Hs & Hpr & Hl & Hnc & Hne).
    { cbn in Hk. lia. }
    { now rewrite Nat.add_succ_comm. }
    { intros j Hj. rewrite Nat.add_succ_comm. apply Hrun. lia. }
    rewrite !swipes_of_app, !progress_of_app, swipes_of_cmds, progress_of_cmds.
    rewrite Hs, !length_app, Hpr.
    cbn [swipes_of progress_of flat_map app length firstn].
    rewrite path_swipes_segments.
    split; [reflexivity|]. split; [reflexivity|].
    split.
    { rewrite last_after_cons; [exact Hl|apply emit_paths_nonempty]. }
    split.
    { intros C. apply in_app_or in C. destruct C as [C|C].
      - apply In_cmds in C. destruct C as [s C]. discriminate.
      - destruct C as [C|C]; [discriminate|]. now apply Hnc. }
    intros e C. apply in_app_or in C. destruct C as [C|C].
    + apply In_cmds in C. destruct C as [s C]. discriminate.
    + destruct C as [C|C]; [discriminate|]. now apply (Hne e).
Qed.

(** X11: when the drawing flag is found cleared at the head of iteration
    [k], the stream of [draw] carries exactly the swipes of the first [k]
    fitted paths (what was drawn stays drawn, nothing of path [k] or later
    is issued), [k] progress reports, and ends with the stop event without
    ever reporting completion. *)
Theorem draw_events_stopped {M : MathLib} (drawing : nat -> bool)
  (stroke_duration : Z) (area : DrawingArea) (input_layers : list Layer.t)
  (scaled_paths : list Path) (k : nat) :
  generate area input_layers = Ok scaled_paths ->
  (k < length scaled_paths)%nat ->
  drawing k = false ->
  (forall j, (j < k)%nat -> drawing j = true) ->
  let events := draw_events drawing stroke_duration area input_layers in
  swipes_of events = draw_paths_adb (firstn k scaled_paths) stroke_duration /\
  length (progress_of events) = k /\
  last events Complete = Stopped /\
  ~ In Complete events /\ (forall e, ~ In (Error e) events).
Proof.
  intros Hgen Hk Hstop Hrun. unfold draw_events. rewrite Hgen. cbv zeta.
  destruct (emit_paths_stopped drawing stroke_duration (length scaled_paths)
              ltac:(lia) k 0 scaled_paths Hk Hstop Hrun)
    as (Hs & Hp & Hl & Hnc & Hne).
  set (events := emit_paths drawing stroke_duration (length scaled_paths) 0
                            scaled_paths) in *.
  change (swipes_of (Message _ _ :: events)) with (swipes_of events).
  change (progress_of (Message _ _ :: events)) with (progress_of events).
  rewrite Hs, Hp, draw_paths_adb_flat.
  split; [reflexivity|]. split; [reflexivity|].
  split.
  { destruct events; [discriminate Hl|exact Hl]. }
  split.
  { intros [C|C]; [discriminate|now apply Hnc]. }
  intros e [C|C]; [discriminate|now apply (Hne e)].
Qed.

Lemma draw_events_stopped_witness :
  swipes_of (@draw_events unused_math (fun _ => false) 60 lobe_area
               [Layer.identity [square100]])
  = [].
Proof.
  exact (proj1 (@draw_events_stopped unused_math (fun _ => false) 60 lobe_area
                  [Layer.identity [square100]]
                  [[(220, 975); (420, 975); (420, 1175); (220, 1175); (220, 975)]]
                  0 eq_refl ltac:(cbn; lia) eq_refl
                  ltac:(intros j Hj; lia))).
Defined.

(* ================================================================== *)
(** * Properties of the area on the wire *)

Lemma dict_get_key_error (d : AreaDict) (key key' : string) :
  dict_get d key = KeyError key' -> key' = key.
Proof.
  induction d as [|[k v] rest IH]; cbn.
  - intros H. now inversion H.
  - destruct (String.eqb k key); [discriminate|exact IH].
Qed.

Lemma area_of_dict_found (d : AreaDict) (a : DrawingArea) :
  area_of_dict d = Found a <->
  dict_get d "top" = Found (top a) /\
  dict_get d "left" = Found (left a) /\
  dict_get d "right" = Found (right a) /\
  dict_get d "bottom" = Found (bottom a) /\
  dict_get d "cutout_left" = Found (cutout_left a) /\
  dict_get d "cutout_top" = Found (cutout_top a) /\
  dict_get d "top_excl_right" = Found (top_excl_right a) /\
  dict_get d "top_excl_bottom" = Found (top_excl_bottom a).
Proof.
  unfold area_of_dict. split.
  - repeat (match goal with
            | |- context [dict_get d ?k] =>
                destruct (dict_get d k); cbn [lookup_bind]; [|discriminate]
            end).
    intros H. inversion H. cbn. repeat split.
  - intros (-> & -> & -> & -> & -> & -> & -> & ->). cbn [lookup_bind].
    now destruct a.
Qed.

(** X12: the area survives the trip from [detect_area] to [draw]:
    rebuilding a DrawingArea from the dictionary [detect_area] sends gives
    the same area; any dictionary, in any key order and with any extra
    keys, is accepted exactly when it has all eight keys; otherwise the
    constructor call raises [KeyError] for one of the eight keys, one the
    dictionary lacks. *)
Theorem area_dict_roundtrip :
  (forall a, area_of_dict (area_to_dict a) = Found a) /\
  (forall d, (exists a, area_of_dict d = Found a)
             <-> Forall (has_key d) area_keys) /\
  (forall d key,
      area_of_dict d = KeyError key ->
      In key area_keys /\ ~ has_key d key).
Proof.
  split; [|split].
  - intros a. apply area_of_dict_found. cbn. repeat split.
  - intros d. split.
    + intros [a H]. apply area_of_dict_found in H.
      destruct H as (H1 & H2 & H3 & H4 & H5 & H6 & H7 & H8).
      unfold area_keys, has_key. repeat constructor; eexists; eassumption.
    + intros H. unfold area_keys in H.
      repeat match goal with
             | H : Forall _ (_ :: _) |- _ =>
                 let Hk := fresh "Hk" in
                 inversion H as [|? ? Hk ?]; subst; clear H; destruct Hk
             end.
      eexists (mkDrawingArea _ _ _ _ _ _ _ _). apply area_of_dict_found.
      cbn. repeat split; eassumption.
  - intros d key. unfold area_of_dict.
    repeat (match goal with
            | |- context [dict_get d ?k] =>
                let E := fresh "E" in
                destruct (dict_get d k) eqn:E; cbn [lookup_bind];
                [|pose proof (dict_get_key_error _ _ _ E);
                  intros Hk; inversion Hk; subst; split;
                  [cbn; repeat ((left; reflexivity) || right)
                  |intros [v Hv]; congruence]]
            end).
    discriminate.
Qed.

(* ================================================================== *)
(** * Where the fitted points land *)

Lemma inject_Z_pos_neq (z : Z) : z <> 0 -> ~ (inject_Z z == 0)%Q.
Proof. intros Hz H. unfold Qeq in H. cbn in H. lia. Qed.








(* ================================================================== *)
(** * Where a layer with the default transform lands *)








(* ================================================================== *)
(** * Properties of the ADB drawer (revolut_draw.py) *)

Lemma draw_path_segments (d : Z) (points : Path) :
  ADBDrawer.draw_path d points = segments points d.
Proof.
  unfold ADBDrawer.draw_path.
  destruct (length points <? 2)%nat eqn:E.
  - apply Nat.ltb_lt in E.
    destruct points as [|a [|b t]]; cbn in E; try lia; reflexivity.
  - rewrite <- path_swipes_segments. unfold path_swipes.
    apply map_ext. intros i. unfold ADBDrawer.swipe, swipe_at.
    destruct (nth i points (0, 0)), (nth (i + 1) points (0, 0)). reflexivity.
Qed.

Lemma segments_length (path : Path) (d : Z) :
  length (segments path d) = (length path - 1)%nat.
Proof.
  induction path as [|a t IH]; [reflexivity|].
  destruct t as [|b t']; [reflexivity|].
  change (segments (a :: b :: t') d)
    with (mkSwipe (fst a) (snd a) (fst b) (snd b) d :: segments (b :: t') d).
  cbn [length] in *. rewrite IH. lia.
Qed.

Lemma segments_continuous (path : Path) (d : Z) :
  continuous (segments path d).
Proof.
  induction path as [|a t IH]; [exact I|].
  destruct t as [|b t']; [exact I|].
  change (segments (a :: b :: t') d)
    with (mkSwipe (fst a) (snd a) (fst b) (snd b) d :: segments (b :: t') d).
  destruct t' as [|c t'']; [exact I|].
  change (segments (b :: c :: t'') d)
    with (mkSwipe (fst b) (snd b) (fst c) (snd c) d :: segments (c :: t'') d)
    in *.
  split; [reflexivity|exact IH].
Qed.








Lemma for_range_ok (body : nat -> result Point) (f : nat -> Point) (n i : nat) :
  (forall k, (i <= k < i + n)%nat -> body k = Ok (f k)) ->
  ADBDrawer.for_range body i n = Ok (map f (seq i n)).
Proof.
  revert i. induction n as [|n IH]; intros i Hbody; [reflexivity|].
  cbn [ADBDrawer.for_range seq map].
  rewrite (Hbody i) by lia. cbn [bind].
  rewrite (IH (S i)) by (intros k Hk; apply Hbody; lia).
  reflexivity.
Qed.

Lemma truediv_by_nonzero (a : Q) (b : Z) :
  b <> 0 -> Py.truediv a (inject_Z b) = Ok (a / inject_Z b)%Q.
Proof.
  intros Hb. unfold Py.truediv.
  destruct (Qeq_bool (inject_Z b) 0) eqn:E; [|reflexivity].
  apply Qeq_bool_iff in E. unfold Qeq in E. cbn in E. lia.
Qed.

Lemma truediv_by_zero (a : Q) : Py.truediv a (inject_Z 0) = Raise ZeroDivisionError.
Proof. reflexivity. Qed.

Lemma stroke_of_points (d : Z) (points : Path) (n : nat) :
  length points = S n ->
  length (ADBDrawer.draw_path d points) = n /\
  continuous (ADBDrawer.draw_path d points) /\
  Forall (fun s => swipe_duration s = d) (ADBDrawer.draw_path d points).
Proof.
  intros Hlen. rewrite draw_path_segments. repeat split.
  - rewrite segments_length, Hlen. lia.
  - apply segments_continuous.
  - apply segments_starts_ends.
Qed.

(** X18: the polygon shapes and their segment count.  [draw_circle] with
    [segments >= 1] and [draw_star] with [num_points >= 1] issue one
    continuous stroke of [segments] (resp. [2 * num_points]) swipes of the
    drawer's stroke duration; with a count of 0 both raise
    [ZeroDivisionError] before drawing anything, and with a negative
    count both return without drawing. *)
Theorem polygon_shapes {M : MathLib} (pi : Q) (stroke_duration : Z)
  (cx cy radius : Z) (inner_r : option Z) (n : Z) :
  let circle := ADBDrawer.draw_circle pi stroke_duration cx cy radius n in
  let star := ADBDrawer.draw_star pi stroke_duration cx cy radius inner_r n in
  let one_stroke (r : result (list Swipe)) (count : Z) :=
    exists swipes,
      r = Ok swipes /\ Z.of_nat (length swipes) = count /\
      continuous swipes /\
      Forall (fun s => swipe_duration s = stroke_duration) swipes in
  match n ?= 0 with
  | Gt => one_stroke circle n /\ one_stroke star (2 * n)
  | Eq => circle = Raise ZeroDivisionError /\ star = Raise ZeroDivisionError
  | Lt => circle = Ok [] /\ star = Ok []
  end.
Proof.
  cbv zeta. destruct (Z.compare_spec n 0) as [->|Hneg|Hpos].
  - split; reflexivity.
  - unfold ADBDrawer.draw_circle, ADBDrawer.draw_star, ADBDrawer.range_len.
    replace (Z.to_nat (n + 1)) with 0%nat by lia.
    replace (Z.to_nat (n * 2 + 1)) with 0%nat by lia.
    split; reflexivity.
  - assert (Hn : n <> 0) by lia.
    split.
    + unfold ADBDrawer.draw_circle, ADBDrawer.range_len.
      rewrite (for_range_ok _
        (fun i =>
           let angle := (2 * pi * inject_Z (Z.of_nat i) / inject_Z n)%Q in
           (Py.int (inject_Z cx + inject_Z radius * math_cos angle),
            Py.int (inject_Z cy + inject_Z radius * math_sin angle)))).
      2:{ intros k _. rewrite (truediv_by_nonzero _ n Hn). reflexivity. }
      cbn [bind].
      match goal with |- exists _, Ok (ADBDrawer.draw_path _ ?pts) = _ /\ _ =>
        destruct (stroke_of_points stroke_duration pts (Z.to_nat n))
          as (L & C & D);
        [rewrite length_map, length_seq; lia|]
      end.
      eexists. split; [reflexivity|].
      split; [rewrite L; lia|]. split; [exact C|exact D].
    + unfold ADBDrawer.draw_star, ADBDrawer.range_len.
      set (inner := match inner_r with
                    | Some r => Py.or_ r (radius / 2)
                    | None => radius / 2
                    end).
      rewrite (for_range_ok _
        (fun i =>
           let angle := (pi * inject_Z (Z.of_nat i) / inject_Z n - pi / 2)%Q in
           let r := if (Z.of_nat i mod 2 =? 0) then radius else inner in
           (Py.int (inject_Z cx + inject_Z r * math_cos angle),
            Py.int (inject_Z cy + inject_Z r * math_sin angle)))).
      2:{ intros k _. rewrite (truediv_by_nonzero _ n Hn). reflexivity. }
      cbn [bind].
      match goal with |- exists _, Ok (ADBDrawer.draw_path _ ?pts) = _ /\ _ =>
        destruct (stroke_of_points stroke_duration pts (Z.to_nat (2 * n)))
          as (L & C & D);
        [rewrite length_map, length_seq; lia|]
      end.
      eexists. split; [reflexivity|].
      split; [rewrite L; lia|]. split; [exact C|exact D].
Qed.


(* ================================================================== *)
(** * Properties of the layer workspace (revodraw.py, page script) *)

Module WorkspaceFacts.
Import Workspace.

Lemma length_assign (ls : list Editor.layer) (i : nat) (v : Editor.layer) :
  length (assign ls i v) = length ls.
Proof.
  revert i. induction ls as [|l t IH]; intros [|i]; cbn; try reflexivity.
  now rewrite IH.
Qed.

Lemma nth_error_assign (ls : list Editor.layer) (i j : nat) (v : Editor.layer) :
  nth_error (assign ls i v) j
  = if (j =? i)%nat
    then match nth_error ls i with Some _ => Some v | None => None end
    else nth_error ls j.
Proof.
  revert i j. induction ls as [|l t IH]; intros [|i] [|j]; cbn; try reflexivity.
  - now destruct (j =? i)%nat.
  - apply IH.
Qed.

Lemma layer_at_assign (ls : list Editor.layer) (i k : Z) (v : Editor.layer) :
  0 <= i ->
  Editor.layer_at (assign ls (Z.to_nat i) v) k
  = if k =? i
    then match Editor.layer_at ls i with Some _ => Some v | None => None end
    else Editor.layer_at ls k.
Proof.
  intros Hi. unfold Editor.layer_at.
  destruct (k <? 0) eqn:Ek.
  - apply Z.ltb_lt in Ek. destruct (k =? i) eqn:E; [|reflexivity].
    apply Z.eqb_eq in E. lia.
  - apply Z.ltb_ge in Ek. rewrite nth_error_assign.
    replace (i <? 0) with false by (symmetry; apply Z.ltb_ge; exact Hi).
    destruct (k =? i) eqn:E.
    + apply Z.eqb_eq in E. subst k. now rewrite Nat.eqb_refl.
    + apply Z.eqb_neq in E.
      replace (Z.to_nat k =? Z.to_nat i)%nat with false; [reflexivity|].
      symmetry. apply Nat.eqb_neq. lia.
Qed.

Lemma layer_at_in_range (ls : list Editor.layer) (i : Z) :
  0 <= i < Z.of_nat (length ls) -> exists l, Editor.layer_at ls i = Some l.
Proof.
  intros Hi. unfold Editor.layer_at.
  replace (i <? 0) with false by (symmetry; apply Z.ltb_ge; lia).
  destruct (nth_error ls (Z.to_nat i)) as [l|] eqn:E; [now exists l|].
  apply nth_error_None in E. lia.
Qed.

Lemma layer_at_some_range (ls : list Editor.layer) (i : Z) (l : Editor.layer) :
  Editor.layer_at ls i = Some l -> 0 <= i < Z.of_nat (length ls).
Proof.
  unfold Editor.layer_at. destruct (i <? 0) eqn:E; [discriminate|].
  apply Z.ltb_ge in E. intros H.
  assert (Hlt : (Z.to_nat i < length ls)%nat)
    by (apply nth_error_Some; rewrite H; discriminate).
  lia.
Qed.

Lemma save_spec (s : state) :
  activeLayerIndex (saveCurrentLayerState s) = activeLayerIndex s /\
  live (saveCurrentLayerState s) = live s /\
  length (layers (saveCurrentLayerState s)) = length (layers s) /\
  forall k,
    Editor.layer_at (layers (saveCurrentLayerState s)) k
    = if k =? activeLayerIndex s
      then match Editor.layer_at (layers s) k with
           | Some l => Some (snapshot s (Editor.visible l))
           | None => None
           end
      else Editor.layer_at (layers s) k.
Proof.
  unfold saveCurrentLayerState.
  destruct (Editor.layer_at (layers s) (activeLayerIndex s)) as [l|] eqn:E.
  - pose proof (layer_at_some_range _ _ _ E) as R.
    cbn [layers activeLayerIndex]. repeat split.
    + apply length_assign.
    + intros k. rewrite layer_at_assign by lia.
      destruct (k =? activeLayerIndex s) eqn:Ek; [|reflexivity].
      apply Z.eqb_eq in Ek. subst k. rewrite E. reflexivity.
  - repeat split. intros k.
    destruct (k =? activeLayerIndex s) eqn:Ek; [|reflexivity].
    apply Z.eqb_eq in Ek. subst k. now rewrite E.
Qed.

Lemma load_spec (index : Z) (s : state) (l : Editor.layer) :
  Editor.layer_at (layers s) index = Some l ->
  layers (loadLayerState index s) = layers s /\
  activeLayerIndex (loadLayerState index s) = activeLayerIndex s /\
  live (loadLayerState index s)
  = (Some (Editor.paths l), Editor.offset l, Editor.scaleX l, Editor.scaleY l,
     Editor.rotation l, Editor.flipH l, Editor.flipV l).
Proof.
  intros E. unfold loadLayerState. rewrite E. repeat split.
Qed.

Lemma select_spec (index : Z) (s : state) (l : Editor.layer) :
  index <> activeLayerIndex s ->
  Editor.layer_at (layers s) index = Some l ->
  activeLayerIndex (selectLayer index s) = index /\
  live (selectLayer index s)
  = (Some (Editor.paths l), Editor.offset l, Editor.scaleX l, Editor.scaleY l,
     Editor.rotation l, Editor.flipH l, Editor.flipV l) /\
  length (layers (selectLayer index s)) = length (layers s) /\
  forall k,
    Editor.layer_at (layers (selectLayer index s)) k
    = if k =? activeLayerIndex s
      then match Editor.layer_at (layers s) k with
           | Some l0 => Some (snapshot s (Editor.visible l0))
           | None => None
           end
      else Editor.layer_at (layers s) k.
Proof.
  intros Hne E. unfold selectLayer.
  destruct (save_spec s) as (_ & _ & Hlen & Hat).
  assert (E' : Editor.layer_at
                 (layers (set_active index (saveCurrentLayerState s))) index
               = Some l).
  { cbn [set_active layers]. rewrite Hat.
    replace (index =? activeLayerIndex s) with false
      by (symmetry; apply Z.eqb_neq; exact Hne).
    exact E. }
  destruct (load_spec index _ l E') as (Hl & Ha & Hlive).
  rewrite Hl, Ha, Hlive. cbn [set_active layers activeLayerIndex].
  repeat split; assumption.
Qed.

End WorkspaceFacts.

Lemma select_same_spec (s : Workspace.state) (l : Editor.layer) :
  Editor.layer_at (Workspace.layers s) (Workspace.activeLayerIndex s) = Some l ->
  let s' := Workspace.selectLayer (Workspace.activeLayerIndex s) s in
  Workspace.activeLayerIndex s' = Workspace.activeLayerIndex s /\
  Workspace.live s'
  = (Some (Workspace.paths_or_empty (Workspace.processedPaths s)),
     Workspace.imageOffset s, Workspace.scaleX s, Workspace.scaleY s,
     Workspace.rotation s, Workspace.flipHorizontal s,
     Workspace.flipVertical s) /\
  forall k, k <> Workspace.activeLayerIndex s ->
    Editor.layer_at (Workspace.layers s') k
    = Editor.layer_at (Workspace.layers s) k.
Proof.
  intros E s'. subst s'. unfold Workspace.selectLayer.
  destruct (WorkspaceFacts.save_spec s) as (_ & _ & _ & Hat).
  assert (E' : Editor.layer_at
                 (Workspace.layers
                    (Workspace.set_active (Workspace.activeLayerIndex s)
                       (Workspace.saveCurrentLayerState s)))
                 (Workspace.activeLayerIndex s)
               = Some (Workspace.snapshot s (Editor.visible l))).
  { cbn [Workspace.set_active Workspace.layers]. rewrite Hat, Z.eqb_refl, E.
    reflexivity. }
  destruct (WorkspaceFacts.load_spec _ _ _ E') as (Hl & Ha & Hlive).
  rewrite Hl, Ha, Hlive.
  cbn [Workspace.set_active Workspace.layers Workspace.activeLayerIndex].
  split; [reflexivity|]. split; [reflexivity|].
  intros k Hk. rewrite Hat.
  replace (k =? Workspace.activeLayerIndex s) with false
    by (symmetry; apply Z.eqb_neq; exact Hk).
  reflexivity.
Qed.

(** X20: switching to another layer and back loses nothing.  With layer
    [i] active, [selectLayer(j)] followed by [selectLayer(i)] leaves [i]
    active with the same working paths and transform as before, and every
    other layer, [j] included, exactly as it was stored. *)
Theorem select_layer_round_trip (s : Workspace.state) (j : Z)
  (li lj : Editor.layer) :
  Editor.layer_at (Workspace.layers s) (Workspace.activeLayerIndex s) = Some li ->
  Editor.layer_at (Workspace.layers s) j = Some lj ->
  let i := Workspace.activeLayerIndex s in
  let s' := Workspace.selectLayer i (Workspace.selectLayer j s) in
  Workspace.activeLayerIndex s' = i /\
  Workspace.live s'
  = (Some (Workspace.paths_or_empty (Workspace.processedPaths s)),
     Workspace.imageOffset s, Workspace.scaleX s, Workspace.scaleY s,
     Workspace.rotation s, Workspace.flipHorizontal s,
     Workspace.flipVertical s) /\
  forall k, k <> i ->
    Editor.layer_at (Workspace.layers s') k
    = Editor.layer_at (Workspace.layers s) k.
Proof.
  intros Ei Ej i s'. subst s'.
  destruct (Z.eq_dec j i) as [->|Hne].
  - subst i.
    destruct (select_same_spec s li Ei) as (A1 & L1 & K1).
    set (s1 := Workspace.selectLayer (Workspace.activeLayerIndex s) s) in *.
    assert (E1 : Editor.layer_at (Workspace.layers s1)
                   (Workspace.activeLayerIndex s1)
                 = Some (Workspace.snapshot s (Editor.visible li))).
    { rewrite A1. subst s1. unfold Workspace.selectLayer.
      destruct (WorkspaceFacts.save_spec s) as (_ & _ & _ & Hat).
      assert (E' : Editor.layer_at
                     (Workspace.layers
                        (Workspace.set_active (Workspace.activeLayerIndex s)
                           (Workspace.saveCurrentLayerState s)))
                     (Workspace.activeLayerIndex s)
                   = Some (Workspace.snapshot s (Editor.visible li))).
      { cbn [Workspace.set_active Workspace.layers].
        rewrite Hat, Z.eqb_refl, Ei. reflexivity. }
      destruct (WorkspaceFacts.load_spec _ _ _ E') as (Hl & _ & _).
      rewrite Hl. exact E'. }
    destruct (select_same_spec s1 _ E1) as (A2 & L2 & K2).
    rewrite A1 in A2, L2, K2.
    split; [exact A2|]. split.
    + rewrite L2. injection L1 as P O X Y R H V.
      rewrite P, O, X, Y, R, H, V. reflexivity.
    + intros k Hk. rewrite K2 by exact Hk. apply K1. exact Hk.
  - subst i.
    destruct (WorkspaceFacts.select_spec j s lj Hne Ej) as (A1 & L1 & _ & K1).
    set (s1 := Workspace.selectLayer j s) in *.
    assert (E1 : Editor.layer_at (Workspace.layers s1)
                   (Workspace.activeLayerIndex s)
                 = Some (Workspace.snapshot s (Editor.visible li))).
    { rewrite K1, Z.eqb_refl, Ei. reflexivity. }
    assert (Hne1 : Workspace.activeLayerIndex s <> Workspace.activeLayerIndex s1)
      by (rewrite A1; congruence).
    destruct (WorkspaceFacts.select_spec _ s1 _ Hne1 E1) as (A2 & L2 & _ & K2).
    split; [exact A2|]. split; [exact L2|].
    intros k Hk. rewrite K2, A1.
    destruct (k =? j) eqn:Ekj.
    + apply Z.eqb_eq in Ekj. subst k. rewrite K1.
      replace (j =? Workspace.activeLayerIndex s) with false
        by (symmetry; apply Z.eqb_neq; exact Hne).
      rewrite Ej. f_equal.
      injection L1 as P O X Y R H V.
      unfold Workspace.snapshot. rewrite P, O, X, Y, R, H, V.
      destruct lj; reflexivity.
    + rewrite K1.
      replace (k =? Workspace.activeLayerIndex s) with false
        by (symmetry; apply Z.eqb_neq; exact Hk).
      reflexivity.
Qed.

Lemma select_layer_round_trip_witness :
  let s' := Workspace.selectLayer 0 (Workspace.selectLayer 1 two_layer_workspace) in
  Workspace.activeLayerIndex s' = 0 /\
  Workspace.live s'
  = (Some [square100], (3, 4)%Q, 2%Q, 1%Q, 90, true, false) /\
  forall k, k <> 0 ->
    Editor.layer_at (Workspace.layers s') k
    = Editor.layer_at (Workspace.layers two_layer_workspace) k.
Proof.
  exact (select_layer_round_trip two_layer_workspace 1
           (Workspace.new_layer [square100]) (Workspace.new_layer [])
           eq_refl eq_refl).
Defined.

Lemma length_remove_at (ls : list Editor.layer) (i : nat) :
  length (Workspace.remove_at ls i)
  = if (i <? length ls)%nat then (length ls - 1)%nat else length ls.
Proof.
  revert i. induction ls as [|l t IH]; intros [|i]; cbn [Workspace.remove_at length];
    try reflexivity.
  - cbn. lia.
  - rewrite IH. change (S i <? S (length t))%nat with (i <? length t)%nat.
    destruct (i <? length t)%nat eqn:E; [|reflexivity].
    apply Nat.ltb_lt in E. lia.
Qed.

Lemma length_splice1 (ls : list Editor.layer) (index : Z) :
  (length (Workspace.splice1 ls index) <= length ls)%nat /\
  (0 <= index < Z.of_nat (length ls) ->
   S (length (Workspace.splice1 ls index)) = length ls).
Proof.
  unfold Workspace.splice1. cbv zeta. rewrite length_remove_at. split.
  - destruct (_ <? _)%nat; lia.
  - intros Hi.
    replace (index <? 0) with false by (symmetry; apply Z.ltb_ge; lia).
    replace (Z.min index (Z.of_nat (length ls))) with index by lia.
    replace (Z.to_nat index <? length ls)%nat with true
      by (symmetry; apply Nat.ltb_lt; lia).
    lia.
Qed.

(** X21: deleting a layer keeps the active index valid.  From a state
    whose active index points at a layer (or is -1 with no layers),
    [deleteLayer] of any index leads to such a state again; deleting an
    existing layer removes exactly one; afterwards the working paths and
    the live transform are those stored in the layer the index points at,
    and [processedPaths] is [null] exactly when no layer is left. *)
Theorem delete_layer_keeps_index (s : Workspace.state) (index : Z) :
  Workspace.well_indexed s ->
  let s' := Workspace.deleteLayer index s in
  Workspace.well_indexed s' /\
  (0 <= index < Z.of_nat (length (Workspace.layers s)) ->
   S (length (Workspace.layers s')) = length (Workspace.layers s)) /\
  match Editor.layer_at (Workspace.layers s') (Workspace.activeLayerIndex s') with
  | Some l =>
      Workspace.live s'
      = (Some (Editor.paths l), Editor.offset l, Editor.scaleX l,
         Editor.scaleY l, Editor.rotation l, Editor.flipH l, Editor.flipV l)
  | None => Workspace.layers s' = [] /\ Workspace.processedPaths s' = None
  end.
Proof.
  intros Hwi s'. subst s'. unfold Workspace.deleteLayer. cbv zeta.
  destruct (length_splice1 (Workspace.layers s) index) as [Hle Hone].
  set (ls' := Workspace.splice1 (Workspace.layers s) index) in *.
  set (active := if Z.of_nat (length ls') <=? Workspace.activeLayerIndex s
                 then Z.of_nat (length ls') - 1
                 else Workspace.activeLayerIndex s).
  assert (Hact : (ls' = [] /\ active = -1) \/ 0 <= active < Z.of_nat (length ls')).
  { subst active.
    destruct (Z.of_nat (length ls') <=? Workspace.activeLayerIndex s) eqn:E.
    - apply Z.leb_le in E. destruct ls' as [|l t]; [left; split; reflexivity|].
      right. cbn [length]. lia.
    - apply Z.leb_gt in E. destruct Hwi as [[Hnil Hm]|Hr].
      + rewrite Hnil in Hle. destruct ls'; [|cbn in Hle; lia].
        left. split; [reflexivity|exact Hm].
      + right. lia. }
  destruct Hact as [[Hnil Hm]|Hr].
  - rewrite Hm. cbn [Z.leb Z.compare Workspace.layers Workspace.activeLayerIndex
                     Workspace.processedPaths].
    rewrite Hnil. split; [left; split; reflexivity|]. split.
    + intros Hi. rewrite <- (Hone Hi). now rewrite Hnil.
    + cbn. split; reflexivity.
  - replace (0 <=? active) with true by (symmetry; apply Z.leb_le; lia).
    destruct (WorkspaceFacts.layer_at_in_range ls' active Hr) as [l El].
    match goal with |- context [Workspace.loadLayerState active ?s1] =>
      destruct (WorkspaceFacts.load_spec active s1 l El) as (Hl & Ha & Hlive)
    end.
    unfold Workspace.well_indexed. rewrite Hl, Ha, Hlive.
    cbn [Workspace.layers Workspace.activeLayerIndex].
    rewrite El. split; [right; exact Hr|]. split; [exact Hone|reflexivity].
Qed.

Lemma delete_layer_keeps_index_witness :
  let s' := Workspace.deleteLayer 0 two_layer_workspace in
  Workspace.well_indexed s' /\
  (0 <= 0 < Z.of_nat (length (Workspace.layers two_layer_workspace)) ->
   S (length (Workspace.layers s')) = length (Workspace.layers two_layer_workspace)) /\
  match Editor.layer_at (Workspace.layers s') (Workspace.activeLayerIndex s') with
  | Some l =>
      Workspace.live s'
      = (Some (Editor.paths l), Editor.offset l, Editor.scaleX l,
         Editor.scaleY l, Editor.rotation l, Editor.flipH l, Editor.flipV l)
  | None => Workspace.layers s' = [] /\ Workspace.processedPaths s' = None
  end.
Proof.
  apply (delete_layer_keeps_index two_layer_workspace 0).
  right. cbn. lia.
Defined.

Lemma layer_at_snoc (ls : list Editor.layer) (v : Editor.layer) (k : Z) :
  Editor.layer_at (ls ++ [v]) k
  = if k =? Z.of_nat (length ls) then Some v else Editor.layer_at ls k.
Proof.
  unfold Editor.layer_at. destruct (k <? 0) eqn:Ek.
  - apply Z.ltb_lt in Ek.
    replace (k =? Z.of_nat (length ls)) with false
      by (symmetry; apply Z.eqb_neq; lia).
    reflexivity.
  - apply Z.ltb_ge in Ek. destruct (k =? Z.of_nat (length ls)) eqn:E.
    + apply Z.eqb_eq in E. subst k. rewrite Nat2Z.id.
      rewrite nth_error_app2 by lia. now rewrite Nat.sub_diag.
    + apply Z.eqb_neq in E.
      destruct (Z_lt_le_dec k (Z.of_nat (length ls))) as [Hlt|Hge].
      * apply nth_error_app1. lia.
      * assert (N1 : nth_error (ls ++ [v]) (Z.to_nat k) = None)
          by (apply nth_error_None; rewrite length_app; cbn; lia).
        assert (N2 : nth_error ls (Z.to_nat k) = None)
          by (apply nth_error_None; lia).
        now rewrite N1, N2.
Qed.

(** X22: a new layer starts untransformed and keeps the others.
    [addLayer] appends one layer and makes it active with the given paths,
    offset (0, 0), scale 1, rotation 0 and no flips; the edits of the layer
    that was active are stored in it first, and every other layer is left
    as it was. *)
Theorem add_layer_fresh (paths : list Path) (s : Workspace.state) :
  let s' := Workspace.addLayer paths s in
  let n := Z.of_nat (length (Workspace.layers s)) in
  Workspace.activeLayerIndex s' = n /\
  Workspace.well_indexed s' /\
  length (Workspace.layers s') = S (length (Workspace.layers s)) /\
  Workspace.live s' = (Some paths, (0, 0)%Q, 1%Q, 1%Q, 0, false, false) /\
  (forall l,
     Editor.layer_at (Workspace.layers s) (Workspace.activeLayerIndex s) = Some l ->
     Editor.layer_at (Workspace.layers s') (Workspace.activeLayerIndex s)
     = Some (Workspace.snapshot s (Editor.visible l))) /\
  (forall k, k <> Workspace.activeLayerIndex s -> k <> n ->
     Editor.layer_at (Workspace.layers s') k
     = Editor.layer_at (Workspace.layers s) k).
Proof.
  cbv zeta. unfold Workspace.addLayer. cbv zeta.
  destruct (WorkspaceFacts.save_spec s) as (_ & _ & Hlen & Hat).
  set (s1 := Workspace.saveCurrentLayerState s) in *.
  cbn [Workspace.activeLayerIndex].
  assert (Hn : Z.of_nat (length (Workspace.layers s1 ++ [Workspace.new_layer paths])) - 1
               = Z.of_nat (length (Workspace.layers s))).
  { rewrite length_app, Hlen. cbn [length]. lia. }
  rewrite Hn.
  match goal with |- context [Workspace.loadLayerState ?i ?s2] =>
    destruct (WorkspaceFacts.load_spec i s2 (Workspace.new_layer paths))
      as (Hl & Ha & Hlive)
  end.
  { cbn [Workspace.layers]. rewrite layer_at_snoc, Hlen, Z.eqb_refl. reflexivity. }
  unfold Workspace.well_indexed.
  rewrite Hl, Ha, Hlive. cbn [Workspace.layers Workspace.activeLayerIndex].
  split; [reflexivity|]. split.
  { right. rewrite length_app, Hlen. cbn [length]. lia. }
  split; [rewrite length_app, Hlen; cbn [length]; lia|].
  split; [reflexivity|]. split.
  - intros l El. pose proof (WorkspaceFacts.layer_at_some_range _ _ _ El) as R.
    rewrite layer_at_snoc, Hlen.
    replace (Workspace.activeLayerIndex s =? Z.of_nat (length (Workspace.layers s)))
      with false by (symmetry; apply Z.eqb_neq; lia).
    rewrite Hat, Z.eqb_refl, El. reflexivity.
  - intros k Hk Hkn. rewrite layer_at_snoc, Hlen.
    replace (k =? Z.of_nat (length (Workspace.layers s))) with false
      by (symmetry; apply Z.eqb_neq; exact Hkn).
    rewrite Hat.
    replace (k =? Workspace.activeLayerIndex s) with false
      by (symmetry; apply Z.eqb_neq; exact Hk).
    reflexivity.
Qed.

(** X23: quarter turns keep the rotation within one full turn.  After
    [rotate90(dir)] the rotation is strictly between -360 and 360 and
    congruent to [rotation + 90 * dir] modulo 360; it is not normalised to
    [0, 360): its sign is that of the sum.  Turning back with
    [rotate90(-dir)] restores the rotation modulo 360. *)
Theorem rotate90_range (dir : Z) (s : Workspace.state) :
  let r := Workspace.rotation s in
  let r' := Workspace.rotation (Workspace.rotate90 dir s) in
  -360 < r' < 360 /\
  (r' - (r + dir * 90)) mod 360 = 0 /\
  (0 <= r + dir * 90 -> 0 <= r') /\
  (r + dir * 90 <= 0 -> r' <= 0) /\
  (Workspace.rotation (Workspace.rotate90 (- dir) (Workspace.rotate90 dir s)) - r)
    mod 360 = 0.
Proof.
  cbv zeta. unfold Workspace.rotate90. cbn [Workspace.rotation].
  set (a := Workspace.rotation s + dir * 90).
  assert (Hrem : forall x, exists q, x = 360 * q + Z.rem x 360 /\
                                     -360 < Z.rem x 360 < 360 /\
                                     (0 <= x -> 0 <= Z.rem x 360) /\
                                     (x <= 0 -> Z.rem x 360 <= 0)).
  { intros x. exists (Z.quot x 360).
    pose proof (Z.quot_rem' x 360) as Hq.
    split; [exact Hq|].
    destruct (Z_le_gt_dec 0 x) as [Hx|Hx].
    - pose proof (Z.rem_bound_pos x 360 Hx ltac:(lia)). lia.
    - pose proof (Z.rem_bound_pos_neg x 360 ltac:(lia) ltac:(lia)). lia. }
  destruct (Hrem a) as (q & Ea & Ba & Pa & Na).
  destruct (Hrem (Z.rem a 360 + - dir * 90)) as (q2 & Eb & _).
  split; [exact Ba|]. split.
  { replace (Z.rem a 360 - a) with ((- q) * 360) by lia. apply Z.mod_mul. lia. }
  split; [exact Pa|]. split; [exact Na|].
  replace (Z.rem (Z.rem a 360 + - dir * 90) 360 - Workspace.rotation s)
    with ((- q2 - q) * 360) by (subst a; lia).
  apply Z.mod_mul. lia.
Qed.

(* ================================================================== *)
(** * Further properties of the line clustering *)

Lemma fold_add_bounds (lo hi : Z) (l : list Z) :
  Forall (fun x => lo <= x <= hi) l ->
  forall acc,
    acc + Z.of_nat (length l) * lo <= fold_left Z.add l acc
    <= acc + Z.of_nat (length l) * hi.
Proof.
  induction 1 as [|x t Hx Ht IH]; intros acc; cbn [fold_left length].
  - lia.
  - specialize (IH (acc + x)). lia.
Qed.

Lemma mean_between (lo hi : Z) (c : list Line) :
  c <> [] -> Forall (fun x => lo <= fst x <= hi) c ->
  lo <= Py.int (mean_position c) <= hi.
Proof.
  intros Hne Hall. unfold mean_position.
  assert (Hmap : Forall (fun x => lo <= x <= hi) (map fst c)).
  { apply Forall_forall. intros x Hx. apply in_map_iff in Hx.
    destruct Hx as (y & <- & Hy). rewrite Forall_forall in Hall. now apply Hall. }
  pose proof (fold_add_bounds lo hi _ Hmap 0) as Hsum.
  rewrite length_map in Hsum.
  set (n := Z.of_nat (length c)) in *.
  set (total := fold_left Z.add (map fst c) 0) in *.
  assert (Hn : 0 < n) by (subst n; destruct c; [congruence|cbn [length]; lia]).
  assert (Qn : (0 < inject_Z n)%Q) by (rewrite <- (Zlt_Qlt 0); exact Hn).
  apply int_between.
  - apply Qle_shift_div_l; [exact Qn|].
    rewrite <- inject_Z_mult, <- Zle_Qle. subst n. unfold Line in *. lia.
  - apply Qle_shift_div_r; [exact Qn|].
    rewrite <- inject_Z_mult, <- Zle_Qle. subst n. unfold Line in *. lia.
Qed.

Lemma exists_extremes (c : list Line) :
  c <> [] ->
  exists a b, In a c /\ In b c /\ Forall (fun x => fst a <= fst x <= fst b) c.
Proof.
  induction c as [|x t IH]; [congruence|]. intros _.
  destruct t as [|y t'].
  - exists x, x. repeat split; try (left; reflexivity).
    constructor; [lia|constructor].
  - destruct IH as (a & b & Ha & Hb & Hall); [discriminate|].
    exists (if fst x <=? fst a then x else a),
           (if fst b <=? fst x then x else b).
    split; [destruct (fst x <=? fst a); [left; reflexivity|right; exact Ha]|].
    split; [destruct (fst b <=? fst x); [left; reflexivity|right; exact Hb]|].
    assert (Hab : fst a <= fst b).
    { rewrite Forall_forall in Hall. specialize (Hall a Ha). lia. }
    constructor.
    + destruct (Z.leb_spec (fst x) (fst a)), (Z.leb_spec (fst b) (fst x)); lia.
    + eapply Forall_impl; [|exact Hall]. cbv beta. intros z Hz.
      destruct (Z.leb_spec (fst x) (fst a)), (Z.leb_spec (fst b) (fst x)); lia.
Qed.

Lemma ascending_cons (a : Line) (l : list Line) :
  ascending (a :: l) -> ascending l /\ Forall (fun x => fst a <= fst x) l.
Proof.
  revert a. induction l as [|b t IH]; intros a H; [split; [exact I|constructor]|].
  destruct H as [Hab Ht]. split; [exact Ht|].
  constructor; [exact Hab|].
  destruct (IH b Ht) as [_ Hall].
  eapply Forall_impl; [|exact Hall]. cbv beta. intros; lia.
Qed.

Lemma ascending_app (l1 l2 : list Line) :
  ascending (l1 ++ l2) ->
  ascending l2 /\ forall x y, In x l1 -> In y l2 -> fst x <= fst y.
Proof.
  induction l1 as [|a t IH]; intros H.
  - split; [exact H|]. intros x y [].
  - change ((a :: t) ++ l2) with (a :: (t ++ l2)) in H.
    apply ascending_cons in H. destruct H as [Ht Hall].
    destruct (IH Ht) as [H2 Hp]. split; [exact H2|].
    intros x y [<-|Hx] Hy.
    + rewrite Forall_forall in Hall. apply Hall. apply in_or_app. now right.
    + now apply Hp.
Qed.

Lemma reduce_cluster_span (c : list Line) :
  c <> [] ->
  exists a b, In a c /\ In b c /\ fst a <= fst (reduce_cluster c) <= fst b.
Proof.
  intros Hne. destruct (exists_extremes c Hne) as (a & b & Ha & Hb & Hall).
  exists a, b. split; [exact Ha|]. split; [exact Hb|].
  unfold reduce_cluster. cbn [fst]. now apply mean_between.
Qed.

Lemma reduced_ascending (clusters : list (list Line)) :
  Forall (fun c => c <> []) clusters ->
  ascending (concat clusters) ->
  ascending (map reduce_cluster clusters).
Proof.
  induction clusters as [|c cs IH]; intros Hne Hasc; [exact I|].
  inversion Hne as [|? ? Hc Hcs]; subst.
  cbn [concat] in Hasc. destruct (ascending_app _ _ Hasc) as [Hrest Hpairs].
  specialize (IH Hcs Hrest).
  destruct cs as [|c2 cs']; [exact I|].
  cbn [map] in *. split; [|exact IH].
  inversion Hcs as [|? ? Hc2 _]; subst.
  destruct (reduce_cluster_span c Hc) as (_ & b & _ & Hb & [_ Hub]).
  destruct (reduce_cluster_span c2 Hc2) as (a2 & _ & Ha2 & _ & [Hlb _]).
  assert (fst b <= fst a2).
  { apply Hpairs; [exact Hb|]. cbn [concat]. apply in_or_app. now left. }
  lia.
Qed.

Lemma length_concat_nonempty (clusters : list (list Line)) :
  Forall (fun c => c <> []) clusters ->
  (length clusters <= length (concat clusters))%nat.
Proof.
  induction 1 as [|c cs Hc Hcs IH]; [reflexivity|].
  cbn [concat length]. rewrite length_app.
  destruct c; [congruence|cbn [length]; lia].
Qed.

Lemma grouped_facts (gap : Z) (sorted_lines : list Line) :
  concat (grouped gap sorted_lines) = sorted_lines /\
  Forall (fun c => c <> []) (grouped gap sorted_lines).
Proof.
  unfold grouped. destruct sorted_lines as [|a t].
  - split; [reflexivity|constructor].
  - split; [apply group_from_concat|apply group_from_nonempty; discriminate].
Qed.

(** X24: what [cluster_lines] returns, for any input and gap.  There are
    never more clusters than lines, and at least one when there is a line;
    the clusters come in ascending order of position; and every cluster
    position lies between the positions of two of the input lines (so
    within the span of the detected lines). *)
Theorem cluster_lines_ordered (lines : list Line) (min_gap : Z) :
  let clusters := cluster_lines lines min_gap in
  (length clusters <= length lines)%nat /\
  (lines <> [] -> clusters <> []) /\
  ascending clusters /\
  forall c, In c clusters ->
    exists a b, In a lines /\ In b lines /\ fst a <= fst c <= fst b.
Proof.
  cbv zeta. rewrite cluster_lines_grouped.
  destruct (grouped_facts min_gap (sorted_by_position lines)) as [Hcat Hne].
  pose proof (sorted_by_position_perm lines) as Hperm.
  set (gs := grouped min_gap (sorted_by_position lines)) in *.
  split.
  { rewrite length_map, (Permutation_length Hperm), <- Hcat.
    now apply length_concat_nonempty. }
  split.
  { intros Hl Hmap. apply map_eq_nil in Hmap. rewrite Hmap in Hcat.
    cbn in Hcat. rewrite <- Hcat in Hperm.
    apply Permutation_sym, Permutation_nil in Hperm. contradiction. }
  split.
  { apply reduced_ascending; [exact Hne|].
    rewrite Hcat. apply sorted_by_position_ascending. }
  intros c Hc. apply in_map_iff in Hc. destruct Hc as (g & <- & Hg).
  rewrite Forall_forall in Hne.
  destruct (reduce_cluster_span g (Hne g Hg)) as (a & b & Ha & Hb & Hab).
  assert (Hin : forall x, In x g -> In x lines).
  { intros x Hx. apply (Permutation_in x (Permutation_sym Hperm)).
    rewrite <- Hcat. apply in_concat. exists g. now split. }
  exists a, b. split; [now apply Hin|]. split; [now apply Hin|exact Hab].
Qed.

(* ================================================================== *)
(** * Layout of the detected area *)

Lemma band_le_iff (v n d : Z) :
  (inject_Z v <= (n # 100) * inject_Z d)%Q <-> 100 * v <= n * d.
Proof.
  unfold Qle, Qmult, inject_Z. cbn [Qnum Qden]. rewrite Pos.mul_1_r. lia.
Qed.

Lemma band_ge_iff (v n d : Z) :
  ((n # 100) * inject_Z d <= inject_Z v)%Q <-> n * d <= 100 * v.
Proof.
  unfold Qle, Qmult, inject_Z. cbn [Qnum Qden]. rewrite Pos.mul_1_r. lia.
Qed.

Lemma estimate_value (d n : Z) :
  0 <= d -> 0 <= n -> Py.int (inject_Z d * (n # 100)) = (d * n) / 100.
Proof.
  intros Hd Hn. rewrite <- (int_scaled d n 100) by lia.
  apply int_proper. apply Qmult_comp; [reflexivity|].
  unfold Qeq. cbn. lia.
Qed.

(** A slot's value, found or estimated, lies in the slot's band, written
    in hundredths of the card dimension. *)
Lemma slot_within_band (clusters : list Line) (qlo qhi : Q) (lo hi est d : Z)
  (found : option Z) :
  strongest_in_band clusters qlo qhi d found ->
  (qlo == lo # 100)%Q -> (qhi == hi # 100)%Q ->
  0 <= est -> 0 <= d ->
  lo * d <= 100 * ((d * est) / 100) <= hi * d ->
  lo * d <= 100 * or_estimate found d (est # 100) <= hi * d.
Proof.
  intros Hfound Elo Ehi Hest Hd Hfall. destruct found as [v|]; cbn [or_estimate].
  - destruct Hfound as (best & _ & Hband & -> & _).
    unfold in_band in Hband. apply andb_true_iff in Hband as [B1 B2].
    apply Qle_bool_iff in B1, B2.
    rewrite Elo in B1. rewrite Ehi in B2.
    apply band_ge_iff in B1. apply band_le_iff in B2. lia.
  - rewrite estimate_value by assumption. exact Hfall.
Qed.

Lemma estimate_in_band (lo hi est d : Z) :
  17 <= d -> 0 <= est -> lo = 0 \/ lo + 6 <= est -> est <= hi ->
  lo * d <= 100 * ((d * est) / 100) <= hi * d.
Proof.
  intros Hd Hest Hlo Hhi.
  assert (Hq : d * est - 100 < 100 * ((d * est) / 100) <= d * est)
    by (Z.to_euclidean_division_equations; lia).
  assert (Hup : d * est <= hi * d) by nia.
  assert (Hnn : 0 <= d * est) by nia.
  split; [|lia].
  destruct Hlo as [->|Hlo]; [lia|].
  assert (102 <= (est - lo) * d) by nia. lia.
Qed.

Lemma assign_slots_layout (h_clusters v_clusters : list Line)
  (card_x card_y card_w card_h : Z) :
  17 <= card_w -> 17 <= card_h ->
  exists a,
    assign_slots h_clusters v_clusters card_x card_y card_w card_h = Ok a /\
    (card_x <= left a /\ left a < cutout_left a /\
     cutout_left a < right a /\ right a <= card_x + card_w) /\
    (card_y <= top a /\ top a < cutout_top a /\
     cutout_top a < bottom a /\ bottom a <= card_y + card_h) /\
    card_x < top_excl_right a < cutout_left a /\
    card_y < top_excl_bottom a < cutout_top a.
Proof.
  intros Hw Hh. unfold assign_slots.
  destruct (find_boundary_line_ok (sorted_by_position h_clusters)
              0 (15 # 100) card_h) as (o1 & -> & H1).
  destruct (find_boundary_line_ok (sorted_by_position h_clusters)
              (80 # 100) 1 card_h) as (o2 & -> & H2).
  destruct (find_boundary_line_ok (sorted_by_position v_clusters)
              0 (15 # 100) card_w) as (o3 & -> & H3).
  destruct (find_boundary_line_ok (sorted_by_position v_clusters)
              (85 # 100) 1 card_w) as (o4 & -> & H4).
  destruct (find_boundary_line_ok (sorted_by_position h_clusters)
              (10 # 100) (25 # 100) card_h) as (o5 & -> & H5).
  destruct (find_boundary_line_ok (sorted_by_position v_clusters)
              (12 # 100) (30 # 100) card_w) as (o6 & -> & H6).
  destruct (find_boundary_line_ok (sorted_by_position h_clusters)
              (45 # 100) (70 # 100) card_h) as (o7 & -> & H7).
  destruct (find_boundary_line_ok (sorted_by_position v_clusters)
              (50 # 100) (75 # 100) card_w) as (o8 & -> & H8).
  cbn [bind]. eexists. split; [reflexivity|].
  cbn [top left right bottom cutout_left cutout_top
       top_excl_right top_excl_bottom].
  assert (Q0 : (0 == 0 # 100)%Q) by reflexivity.
  assert (Q1 : (1 == 100 # 100)%Q) by reflexivity.
  assert (Qr : forall q : Q, (q == q)%Q) by (intros; reflexivity).
  pose proof (slot_within_band _ _ _ 0 15 5 card_h o1 H1 Q0 (Qr _)
                ltac:(lia) ltac:(lia)
                (estimate_in_band 0 15 5 card_h Hh ltac:(lia) ltac:(lia) ltac:(lia)))
    as B1.
  pose proof (slot_within_band _ _ _ 80 100 92 card_h o2 H2 (Qr _) Q1
                ltac:(lia) ltac:(lia)
                (estimate_in_band 80 100 92 card_h Hh ltac:(lia) ltac:(lia) ltac:(lia)))
    as B2.
  pose proof (slot_within_band _ _ _ 0 15 7 card_w o3 H3 Q0 (Qr _)
                ltac:(lia) ltac:(lia)
                (estimate_in_band 0 15 7 card_w Hw ltac:(lia) ltac:(lia) ltac:(lia)))
    as B3.
  pose proof (slot_within_band _ _ _ 85 100 94 card_w o4 H4 (Qr _) Q1
                ltac:(lia) ltac:(lia)
                (estimate_in_band 85 100 94 card_w Hw ltac:(lia) ltac:(lia) ltac:(lia)))
    as B4.
  pose proof (slot_within_band _ _ _ 10 25 18 card_h o5 H5 (Qr _) (Qr _)
                ltac:(lia) ltac:(lia)
                (estimate_in_band 10 25 18 card_h Hh ltac:(lia) ltac:(lia) ltac:(lia)))
    as B5.
  pose proof (slot_within_band _ _ _ 12 30 18 card_w o6 H6 (Qr _) (Qr _)
                ltac:(lia) ltac:(lia)
                (estimate_in_band 12 30 18 card_w Hw ltac:(lia) ltac:(lia) ltac:(lia)))
    as B6.
  pose proof (slot_within_band _ _ _ 45 70 58 card_h o7 H7 (Qr _) (Qr _)
                ltac:(lia) ltac:(lia)
                (estimate_in_band 45 70 58 card_h Hh ltac:(lia) ltac:(lia) ltac:(lia)))
    as B7.
  pose proof (slot_within_band _ _ _ 50 75 60 card_w o8 H8 (Qr _) (Qr _)
                ltac:(lia) ltac:(lia)
                (estimate_in_band 50 75 60 card_w Hw ltac:(lia) ltac:(lia) ltac:(lia)))
    as B8.
  clear H1 H2 H3 H4 H5 H6 H7 H8 Q0 Q1 Qr.
  repeat split; lia.
Qed.

(** X25: the layout [detect_boundary] returns, whatever lines were
    detected.  On a card at least 17 pixels wide and high it returns an
    area that lies within the card, whose bottom-right cutout starts
    strictly inside the outer rectangle, and whose top-left exclusion ends
    strictly before the cutout begins, on both axes: the two exclusion
    zones never meet. *)
Theorem detect_boundary_layout (h_lines v_lines : list Line)
  (card_x card_y card_w card_h : Z) :
  17 <= card_w -> 17 <= card_h ->
  exists a,
    detect_boundary h_lines v_lines card_x card_y card_w card_h = Ok a /\
    (card_x <= left a /\ left a < cutout_left a /\
     cutout_left a < right a /\ right a <= card_x + card_w) /\
    (card_y <= top a /\ top a < cutout_top a /\
     cutout_top a < bottom a /\ bottom a <= card_y + card_h) /\
    card_x < top_excl_right a < cutout_left a /\
    card_y < top_excl_bottom a < cutout_top a.
Proof.
  intros Hw Hh. unfold detect_boundary.
  apply assign_slots_layout; assumption.
Qed.

Lemma detect_boundary_layout_witness :
  exists a,
    detect_boundary dotted_lines far_apart_lines 40 60 1000 2000 = Ok a /\
    (40 <= left a /\ left a < cutout_left a /\
     cutout_left a < right a /\ right a <= 40 + 1000) /\
    (60 <= top a /\ top a < cutout_top a /\
     cutout_top a < bottom a /\ bottom a <= 60 + 2000) /\
    40 < top_excl_right a < cutout_left a /\
    60 < top_excl_bottom a < cutout_top a.
Proof.
  apply (detect_boundary_layout dotted_lines far_apart_lines 40 60 1000 2000); lia.
Defined.

(* ================================================================== *)
(** * Further properties of the eraser *)

Lemma filter_subsequence {A : Type} (f : A -> bool) (l : list A) :
  subsequence (filter f l) l.
Proof.
  induction l as [|x t IH]; cbn [filter]; [constructor|].
  destruct (f x); now constructor.
Qed.

Lemma nth_error_assign_paths_other (ls : list Editor.layer) (i j : nat)
  (ps : list Path) :
  i <> j ->
  nth_error (Editor.assign_paths ls i ps) j = nth_error ls j.
Proof.
  revert i j. induction ls as [|l t IH]; intros [|i] [|j] Hne; cbn;
    try reflexivity; try congruence.
  apply IH. congruence.
Qed.

Lemma layer_at_assign_paths_other (ls : list Editor.layer) (i k : Z)
  (ps : list Path) :
  0 <= i -> k <> i ->
  Editor.layer_at (Editor.assign_paths ls (Z.to_nat i) ps) k
  = Editor.layer_at ls k.
Proof.
  intros Hi Hk. unfold Editor.layer_at.
  destruct (k <? 0) eqn:E; [reflexivity|]. apply Z.ltb_ge in E.
  apply nth_error_assign_paths_other. lia.
Qed.

(** X26: the eraser only deletes points.  [eraseAt] either leaves the
    session untouched (no active layer, no drawing area, or a layer without
    paths) or replaces the active layer's paths so that: every surviving
    path has at least two points and is an original path with exactly the
    points within the eraser's radius deleted, in the original order; the
    number of paths does not grow; [processedPaths] equals the layer's new
    paths; and every other layer is unchanged. *)
Theorem eraseAt_deletes_points (far : list Path -> Point -> bool)
  (s : Editor.session) :
  let s' := Editor.eraseAt far s in
  (Editor.drawingArea s = None \/ Editor.active_paths s = None \/
   Editor.active_paths s = Some [] -> s' = s) /\
  (s' = s \/
   exists cur new,
     Editor.active_paths s = Some cur /\
     Editor.active_paths s' = Some new /\
     Editor.processedPaths s' = Some new /\
     (length new <= length cur)%nat /\
     (forall p', In p' new ->
        (2 <= length p')%nat /\
        exists p, In p cur /\ subsequence p' p /\
                  forall q, In q p' <-> In q p /\ far cur q = true) /\
     (forall k, k <> Editor.activeLayerIndex s ->
        Editor.layer_at (Editor.layers s') k
        = Editor.layer_at (Editor.layers s) k)).
Proof.
  cbv zeta. unfold Editor.eraseAt, Editor.active_paths.
  destruct (Editor.layer_at (Editor.layers s) (Editor.activeLayerIndex s))
    as [l|] eqn:El; [|split; [reflexivity|now left]].
  destruct (Editor.drawingArea s) as [area|]; [|split; [reflexivity|now left]].
  destruct (Editor.paths l) as [|p0 rest] eqn:Ep; [split; [reflexivity|now left]|].
  split.
  { cbn [option_map]. rewrite Ep. intros [H|[H|H]]; discriminate. }
  right. set (cur := p0 :: rest) in *.
  set (new := filter (fun path => (2 <=? length path)%nat)
                     (map (filter (far cur)) cur)).
  exists cur, new.
  cbn [Editor.layers Editor.activeLayerIndex Editor.processedPaths].
  rewrite EditorFacts.layer_at_assign_paths, El. cbn [option_map Editor.set_paths Editor.paths].
  rewrite Ep.
  assert (Hi : 0 <= Editor.activeLayerIndex s).
  { unfold Editor.layer_at in El.
    destruct (Editor.activeLayerIndex s <? 0) eqn:E; [discriminate|].
    now apply Z.ltb_ge in E. }
  split; [reflexivity|]. split; [reflexivity|]. split; [reflexivity|].
  split.
  { subst new. etransitivity; [apply filter_length_le|].
    rewrite length_map. reflexivity. }
  split.
  - intros p' Hp'. subst new. apply filter_In in Hp'. destruct Hp' as [Hmap Hlen].
    apply Nat.leb_le in Hlen. split; [exact Hlen|].
    apply in_map_iff in Hmap. destruct Hmap as (p & <- & Hp).
    exists p. split; [exact Hp|]. split; [apply filter_subsequence|].
    intros q. apply filter_In.
  - intros k Hk. now apply layer_at_assign_paths_other.
Qed.

(* ================================================================== *)
(** * A layer without points aborts the drawing *)

Section GenerateErrors.

Context {M : MathLib}.
Variable a : DrawingArea.

Let step (acc : result (list Path)) (layer : Layer.t) : result (list Path) :=
  all_scaled_paths <- acc ;;
  match Layer.paths layer with
  | [] => Ok all_scaled_paths
  | paths =>
      f <- layer_fit a paths ;;
      Ok (collect_loop a (layer_transform a layer f) all_scaled_paths paths)
  end.

Lemma fold_step_raise (layers : list Layer.t) (e : PyExc) :
  fold_left step layers (Raise e) = Raise e.
Proof. induction layers as [|l ls IH]; [reflexivity|exact IH]. Qed.

Lemma fold_step_pointless (layers : list Layer.t) :
  (exists layer, In layer layers /\ Layer.paths layer <> [] /\
                 concat (Layer.paths layer) = []) ->
  forall acc, fold_left step layers (Ok acc) = Raise ValueError.
Proof.
  induction layers as [|l ls IH]; intros (bad & Hin & Hne & Hnil) acc;
    [destruct Hin|].
  cbn [fold_left]. unfold step at 2. cbn [bind].
  destruct (Layer.paths l) as [|p ps] eqn:Eps.
  - apply IH. exists bad. destruct Hin as [<-|Hin]; [congruence|].
    repeat split; assumption.
  - destruct (layer_fit_cases a (p :: ps)) as [[_ Hr]|[Hc [f Hf]]].
    + rewrite Hr. cbn [bind]. apply fold_step_raise.
    + rewrite Hf. cbn [bind]. apply IH. exists bad.
      destruct Hin as [<-|Hin]; [rewrite Eps in Hnil; contradiction|].
      repeat split; assumption.
Qed.

Lemma generate_pointless (layers : list Layer.t) :
  (exists layer, In layer layers /\ Layer.paths layer <> [] /\
                 concat (Layer.paths layer) = []) ->
  generate a layers = Raise ValueError.
Proof.
  intros H. unfold generate. exact (fold_step_pointless layers H []).
Qed.

End GenerateErrors.

(** X27: one layer without points aborts the whole drawing.  When some
    layer of the request has a non-empty path list that holds no point at
    all, the fit of [draw] raises [ValueError] (the minimum of an empty
    sequence) and the stream consists of the error event alone: no swipe
    is issued, not even for the other layers, and neither progress nor
    completion is reported. *)
Theorem draw_events_pointless_layer {M : MathLib} (drawing : nat -> bool)
  (stroke_duration : Z) (area : DrawingArea) (input_layers : list Layer.t) :
  (exists layer, In layer input_layers /\ Layer.paths layer <> [] /\
                 concat (Layer.paths layer) = []) ->
  let events := draw_events drawing stroke_duration area input_layers in
  generate area input_layers = Raise ValueError /\
  events = [Error ValueError] /\
  swipes_of events = [] /\ progress_of events = [].
Proof.
  intros H. cbv zeta. unfold draw_events.
  rewrite (generate_pointless area input_layers H).
  repeat split.
Qed.

Lemma draw_events_pointless_layer_witness :
  let events :=
    @draw_events unused_math (fun _ => true) 60 scenario_area
      [Layer.identity [square100]; pointless_layer] in
  @generate unused_math scenario_area [Layer.identity [square100]; pointless_layer]
  = Raise ValueError /\
  events = [Error ValueError] /\
  swipes_of events = [] /\ progress_of events = [].
Proof.
  apply (@draw_events_pointless_layer unused_math (fun _ => true) 60 scenario_area
           [Layer.identity [square100]; pointless_layer]).
  exists pointless_layer. split; [right; left; reflexivity|].
  split; [discriminate|reflexivity].
Defined.
